(** * Audio QA metrics engine: a shallow embedding of [metrics.py] and of
    [analyze_file] from [analysis.py], with the properties of its level,
    true-peak, loudness, SNR and per-channel estimators; of the judgement
    layer of [analysis.py] and the verdict loop of [report.py]; and of the
    sample scaling and mono down-mix of [audio_io.py].

    Number model.  The program computes on IEEE binary64 samples through
    numpy.  Here a sample is a real number and every arithmetic operation is
    exact; the special values the program can still produce from finite
    samples (the NaN of [np.mean] on an empty array, the infinities a
    loudness meter may hand back) are kept in the type [float], and Python
    exceptions in the type [result].  Integer quantities (lengths, frame
    sizes, FFT sizes, indices) are [nat] or [Z] exactly as in the source.

    The guard [1e-12] is added exactly here.  In binary arithmetic the sum
    can round back to the unguarded value (a float32 peak of ordinary level
    absorbs it), so wherever only the guard separates two quantities the
    statements are non-strict, and bounds that the guard alone makes strict
    are given as tolerances. *)

From Stdlib Require Import String.
From Stdlib Require Import Reals Lra Lia List ZArith Bool Permutation Sorted.
Import ListNotations.
Open Scope R_scope.

(* ================================================================== *)
(** ** Values: floats, exceptions, results *)

Inductive float : Type :=
| Finite (r : R)
| PInf
| NInf
| NaN.

(** [math.isfinite] / [np.isfinite]. *)
Definition isfinite (f : float) : bool :=
  match f with Finite _ => true | _ => false end.

(** IEEE subtraction on the extended values. *)
Definition fsub (a b : float) : float :=
  match a, b with
  | Finite x, Finite y => Finite (x - y)
  | NaN, _ | _, NaN => NaN
  | PInf, PInf | NInf, NInf => NaN
  | PInf, _ => PInf
  | NInf, _ => NInf
  | Finite _, PInf => NInf
  | Finite _, NInf => PInf
  end.

Definition Rltb (x y : R) : bool := if Rlt_dec x y then true else false.
Definition Rleb (x y : R) : bool := if Rle_dec x y then true else false.

(** [a < c] for a float [a] and a finite constant [c]; false on NaN. *)
Definition flt (a : float) (c : R) : bool :=
  match a with
  | Finite x => Rltb x c
  | NInf => true
  | PInf | NaN => false
  end.

(** The Python exceptions the engine can meet.  All of them derive from
    [Exception], so every [except Exception] clause catches each of them. *)
Inductive exn : Type :=
| ValueError
| OverflowError
| LibraryError (code : nat).

Inductive result (A : Type) : Type :=
| Ok (a : A)
| Raise (e : exn).
Arguments Ok {A} a.
Arguments Raise {A} e.

Definition bind {A B : Type} (m : result A) (k : A -> result B) : result B :=
  match m with
  | Ok a => k a
  | Raise e => Raise e
  end.

(** [try: m except Exception: h] *)
Definition try_except {A : Type} (m : result A) (h : A) : A :=
  match m with
  | Ok a => a
  | Raise _ => h
  end.

Notation "x <- m ;; k" := (bind m (fun x => k))
  (at level 61, m at next level, right associativity).

(* ================================================================== *)
(** ** numpy reductions used by the engine *)

(** [np.sum] *)
Definition np_sum (l : list R) : R := fold_right Rplus 0 l.

(** [np.mean] of a non-empty array (callers handle the empty one). *)
Definition np_mean (l : list R) : R := np_sum l / INR (length l).

(** [np.max]: undefined on the empty array (numpy raises [ValueError]). *)
Definition np_max (l : list R) : option R :=
  match l with
  | [] => None
  | x :: t => Some (fold_left Rmax t x)
  end.

Definition square (l : list R) : list R := map (fun v => v * v) l.

(** [math.log10] / [np.log10] on a positive argument. *)
Definition log10 (x : R) : R := ln x / ln 10.

(** the guard added before every logarithm of a level *)
Definition eps : R := 1e-12.

(* ================================================================== *)
(** ** Level metrics ([metrics.py], lines 10-21) *)

(** [rms_dbfs]: on the empty array [np.mean] yields NaN (with a warning),
    which [np.sqrt], the addition and [math.log10] all hand on.  The guard
    is added exactly; see the note on the number model. *)
Definition rms_dbfs (y : list R) : float :=
  match y with
  | [] => NaN
  | _ => let rms := sqrt (np_mean (square y)) + eps in
         Finite (20 * log10 rms)
  end.

(** [peak_dbfs]: [np.max] raises on the empty array.  The guard is added
    exactly; see the note on the number model. *)
Definition peak_dbfs (y : list R) : result float :=
  match np_max (map Rabs y) with
  | None => Raise ValueError
  | Some m => let peak := m + eps in Ok (Finite (20 * log10 peak))
  end.

Definition crest_db (peak_db rms_db : float) : float := fsub peak_db rms_db.

(* ================================================================== *)
(** ** True peak ([metrics.py], lines 122-136) *)

(** [np.interp(t, arange(n), x)] at the abscissa [t = num/den]:
    the segment index is [floor t], the weight its fractional part.  At the
    right end of the grid the value is the last sample. *)
Definition interp_at (x : list R) (num den : nat) : R :=
  let i := (num / den)%nat in
  let r := (num mod den)%nat in
  let a := nth i x 0 in
  let b := nth (S i) x a in
  a + (INR r / INR den) * (b - a).

(** [np.interp(np.linspace(0, n-1, n*os), arange(n), x)]: the grid point
    number [j] is [j*(n-1)/(n*os-1)]. *)
Definition oversample (x : list R) (os_factor : nat) : list R :=
  let n := length x in
  let m := (n * os_factor)%nat in
  map (fun j => interp_at x (j * (n - 1)) (m - 1)) (seq 0 m).

(** The linear peak before the conversion to dBFS. *)
Definition true_peak_linear (x : list R) (os_factor : nat) : option R :=
  match np_max (map Rabs x) with
  | None => None
  | Some peak =>
      if ((1 <? os_factor)%nat && (1 <? length x)%nat)%bool then
        match np_max (map Rabs (oversample x os_factor)) with
        | Some up => Some (Rmax peak up)
        | None => Some peak
        end
      else Some peak
  end.

(** Line 134 tests [not math.isfinite(peak) or peak <= 0].  The samples of
    this buffer are reals, so the peak is a finite float and the first test
    never fires here; [true_peak_dbfs_any] below takes buffers that may
    hold infinities or NaN. *)
Definition true_peak_dbfs (y : list R) (sr : Z) (os_factor : nat) : option R :=
  match y with
  | [] => None
  | _ =>
      match true_peak_linear y os_factor with
      | None => None
      | Some peak =>
          if (negb (isfinite (Finite peak)) || Rleb peak 0)%bool then None
          else Some (20 * log10 peak)
      end
  end.

(* ================================================================== *)
(** ** Order statistics: [np.percentile], [np.median], [np.argmax] *)

Fixpoint insert (x : R) (l : list R) : list R :=
  match l with
  | [] => [x]
  | h :: t => if Rle_dec x h then x :: l else h :: insert x t
  end.

(** ascending sort *)
Definition sort (l : list R) : list R := fold_right insert [] l.

(** [np.percentile(a, q)] with numpy's default linear interpolation: the
    virtual index is [q/100 * (len a - 1)], the result lies between the two
    neighbouring order statistics. *)
Definition np_percentile (a : list R) (q : nat) : R :=
  let s := sort a in
  let h := (q * (length a - 1))%nat in
  let lo := (h / 100)%nat in
  let g := INR (h mod 100) / 100 in
  let v_lo := nth lo s 0 in
  let v_hi := nth (S lo) s v_lo in
  v_lo + g * (v_hi - v_lo).

(** [np.median] of a non-empty array. *)
Definition np_median (a : list R) : R :=
  let s := sort a in
  let n := length a in
  if Nat.even n
  then (nth (n / 2 - 1) s 0 + nth (n / 2) s 0) / 2
  else nth (n / 2) s 0.

(** [np.argmax]: index of the first occurrence of the maximum. *)
Fixpoint argmax_from (l : list R) (i best : nat) (bv : R) : nat :=
  match l with
  | [] => best
  | x :: t =>
      if Rlt_dec bv x then argmax_from t (S i) i x
      else argmax_from t (S i) best bv
  end.

Definition np_argmax (l : list R) : nat :=
  match l with
  | [] => 0%nat
  | x :: t => argmax_from t 1 0 x
  end.

(** Python slice [a[i:j]] with its clipping at the end of the array. *)
Definition slice (a : list R) (i j : nat) : list R :=
  firstn (j - i) (skipn i a).

(** [range(0, n, step)] *)
Definition range_step (n step : nat) : list nat :=
  map (fun k => (k * step)%nat) (seq 0 ((n + step - 1) / step)).

(* ================================================================== *)
(** ** numpy's Hann window and real FFT *)

(** [np.hanning(M)]: the weights [0.5 - 0.5*cos(2*pi*n/(M-1))] *)
Definition hann_weight (M n : nat) : R :=
  0.5 - 0.5 * cos (2 * PI * INR n / INR (M - 1)).

Definition hanning (M : nat) : list R :=
  match M with
  | O => []
  | S O => [1]
  | _ => map (hann_weight M) (seq 0 M)
  end.

(** One bin of the discrete Fourier transform, as (real, imaginary). *)
Definition dft_bin (x : list R) (k : nat) : R * R :=
  let N := length x in
  let term (f : R -> R) :=
    np_sum (map (fun n => nth n x 0 * f (2 * PI * INR k * INR n / INR N))
                (seq 0 N)) in
  (term cos, - term sin).

(** [np.fft.rfft]: bins [0 .. N/2]. *)
Definition rfft (x : list R) : list (R * R) :=
  map (dft_bin x) (seq 0 (length x / 2 + 1)).

(* ================================================================== *)
(** ** SNR estimator ([metrics.py], lines 29-78) *)

(** [int(0.5 * sr)] and [int(0.05 * sr)]: the products are taken exactly and
    [int] truncates toward zero.  For an integer rate the binary64 product
    is within one part in 10^16 of the exact one and the exact one is an
    integer or at least 0.05 away from the next, so the truncation is the
    same. *)
Definition half_second (sr : Z) : Z := Z.quot sr 2.
Definition frame_size (sr : Z) : nat := Z.to_nat (Z.max 1 (Z.quot sr 20)).

(** lines 45-46: mean-square energy of each 50 ms frame, zero frames dropped *)
Definition frame_energies (y : list R) (frame : nat) : list R :=
  map (fun i => np_mean (square (slice y i (i + frame))))
      (range_step (length y) frame).

Definition active_frames (y : list R) (sr : Z) : list R :=
  filter (Rltb 0) (frame_energies y (frame_size sr)).

Definition low_frames (frames : list R) : list R :=
  filter (fun e => Rleb e (np_percentile frames 20)) frames.
Definition high_frames (frames : list R) : list R :=
  filter (fun e => Rleb (np_percentile frames 80) e) frames.

Definition dyn_db (frames : list R) : R :=
  10 * log10 ((np_percentile frames 90 + eps) / (np_percentile frames 10 + eps)).

(** lines 47-58: the time-domain percentile method; [None] when control
    falls through to the spectral method. *)
Definition snr_percentile (frames : list R) : option R :=
  if (10 <=? length frames)%nat then
    let low_count := length (low_frames frames) in
    let high_count := length (high_frames frames) in
    if (Rleb 6 (dyn_db frames) && (5 <=? low_count)%nat
        && (5 <=? high_count)%nat)%bool
    then
      let noise_power := np_mean (low_frames frames) + eps in
      let sig_power := np_mean (high_frames frames) + eps in
      Some (10 * log10 (sig_power / noise_power))
    else None
  else None.

(** line 61: [1 << int(np.floor(np.log2(min(n, 262144))))].  For [n = 0]
    the logarithm is minus infinity and [int] raises [OverflowError]. *)
Definition nfft_of (n : nat) : result nat :=
  if (n =? 0)%nat then Raise OverflowError
  else Ok (Z.to_nat (Z.shiftl 1 (Z.log2 (Z.min (Z.of_nat n) 262144)))).

(** line 67: [(X.real ** 2 + X.imag ** 2) / norm] for one bin *)
Definition bin_power (norm : R) (X : R * R) : R :=
  (fst X * fst X + snd X * snd X) / norm.

(** lines 64-68: windowed power spectrum with the DC bin cleared *)
Definition power_spectrum (y : list R) (nfft : nat) : list R :=
  let x := firstn nfft y in
  let w := hanning nfft in
  let X := rfft (map (fun p => fst p * snd p) (combine x w)) in
  let psd := map (bin_power (np_sum (square w) + eps)) X in
  match psd with
  | [] => []
  | _ :: t => 0 :: t
  end.

(** lines 69-78: the tone test and the estimate, from the power spectrum *)
Definition snr_tone (psd : list R) : option R :=
  let pk := np_argmax psd in
  let med := np_median (tl psd) in
  if (Rleb med 0 || Rltb (nth pk psd 0) (20 * med))%bool then None
  else
    let sig := np_sum (slice psd (Nat.max 1 (pk - 1)) (pk + 2)) in
    let noise := np_sum psd - sig + eps in
    Some (10 * log10 (sig / noise)).

(** lines 60-78 *)
Definition snr_spectral (y : list R) : result (option R) :=
  nfft <- nfft_of (length y) ;;
  if (nfft <? 4096)%nat then Ok None
  else Ok (snr_tone (power_spectrum y nfft)).

Definition snr_db (y : list R) (sr : Z) : result (option R) :=
  let n := length y in
  if (Z.of_nat n <? half_second sr)%Z then Ok None
  else
    match snr_percentile (active_frames y sr) with
    | Some v => Ok (Some v)
    | None => snr_spectral y
    end.

(* ================================================================== *)
(** ** R128 loudness ([metrics.py], lines 82-118) *)

(** The loudness meter is the external library object [pyln.Meter(sr)];
    the engine only calls these four methods on it.  A call either returns
    or raises; a series may be [None]. *)
Record Meter : Type := {
  integrated_loudness : list R -> result float;
  loudness_shortterm : list R -> result (option (list float));
  loudness_momentary : list R -> result (option (list float));
  loudness_range : list R -> result float
}.

(** [series[np.isfinite(series)]] *)
Fixpoint finite_values (series : list float) : list R :=
  match series with
  | [] => []
  | Finite r :: t => r :: finite_values t
  | _ :: t => finite_values t
  end.

(** the local helper [_p95] *)
Definition p95 (series : option (list float)) : option R :=
  match series with
  | None => None
  | Some s =>
      match finite_values s with
      | [] => None
      | v => Some (np_percentile v 95)
      end
  end.

Definition finite_or_none (v : float) : option R :=
  match v with
  | Finite r => Some r
  | _ => None
  end.

Definition loudness : Type := float * option R * option R * option R.

(* ================================================================== *)
(** ** True peak of a buffer with non-finite samples
    ([metrics.py], lines 123-136) *)

(** [np.abs] on one float *)
Definition fabs (f : float) : float :=
  match f with
  | Finite r => Finite (Rabs r)
  | PInf | NInf => PInf
  | NaN => NaN
  end.

(** one step of [np.max]: a NaN on either side wins, then the larger *)
Definition fmax (a b : float) : float :=
  match a, b with
  | NaN, _ | _, NaN => NaN
  | PInf, _ | _, PInf => PInf
  | NInf, x | x, NInf => x
  | Finite x, Finite y => Finite (Rmax x y)
  end.

(** [np.max] on floats: undefined on the empty array *)
Definition np_max_float (l : list float) : option float :=
  match l with
  | [] => None
  | x :: t => Some (fold_left fmax t x)
  end.

(** [true_peak_dbfs] on such a buffer.  Line 127 takes
    [float(np.max(np.abs(x)))].  When that peak is NaN or infinite, the
    Python [max(peak, ...)] of line 133 keeps it (no float compares greater
    than a NaN or than infinity) and line 134 returns [None].  When it is
    finite every sample is ([finite_values] drops nothing), and the
    function is [true_peak_dbfs] on the samples as reals. *)
Definition true_peak_dbfs_any (y : list float) (sr : Z) (os_factor : nat)
  : option R :=
  match np_max_float (map fabs y) with
  | None => None
  | Some (Finite _) => true_peak_dbfs (finite_values y) sr os_factor
  | Some _ => None
  end.

(* ================================================================== *)
(** ** The loudness functions *)

Section Loudness.

(** the constructor [pyln.Meter] *)
Variable pyln_Meter : Z -> Meter.

Definition lufs_integrated (y : list R) (sr : Z) : result float :=
  integrated_loudness (pyln_Meter sr) y.

Definition r128_loudness_and_lra (y : list R) (sr : Z) : result loudness :=
  let meter := pyln_Meter sr in
  L_i <- integrated_loudness meter y ;;
  let L_s := try_except (s <- loudness_shortterm meter y ;; Ok (p95 s)) None in
  let L_m := try_except (s <- loudness_momentary meter y ;; Ok (p95 s)) None in
  let LRA := try_except (v <- loudness_range meter y ;; Ok (finite_or_none v))
                        None in
  Ok (L_i, L_s, L_m, LRA).

(* ================================================================ *)
(** ** Per-channel analysis ([metrics.py], lines 139-190) *)

(** A two-dimensional array of shape [(N, C)]: [N] frames of [C] samples. *)
Record array2 : Type := {
  shape_N : nat;
  shape_C : nat;
  frames_of : list (list R)
}.

(** [y_multi[:, c]] *)
Definition column (a : array2) (c : nat) : list R :=
  map (fun fr => nth c fr 0) (frames_of a).

Record channel_row : Type := {
  ch : nat;
  ch_peak_dbfs : float;
  ch_rms_dbfs : float;
  ch_crest_db : float;
  ch_lufs : option float;
  ch_lufs_s : option R;
  ch_lufs_m : option R;
  ch_lra : option R
}.

Record channel_extra : Type := {
  lr_corr : option R;
  channel_imbalance_db : option R;
  silent_channels : list nat
}.

(** lines 143-163: one row per channel; the level metrics are outside
    the [try], only the loudness call is guarded. *)
Definition channel_metrics (a : array2) (sr : Z) (c : nat) : result channel_row :=
  let yc := column a c in
  pk <- peak_dbfs yc ;;
  let rms := rms_dbfs yc in
  let cr := crest_db pk rms in
  let '(Li, Ls, Lm, LRA) :=
    try_except
      (l <- r128_loudness_and_lra yc sr ;;
       let '(Li, Ls, Lm, LRA) := l in Ok (Some Li, Ls, Lm, LRA))
      (None, None, None, None) in
  Ok {| ch := c; ch_peak_dbfs := pk; ch_rms_dbfs := rms; ch_crest_db := cr;
        ch_lufs := Li; ch_lufs_s := Ls; ch_lufs_m := Lm; ch_lra := LRA |}.

Fixpoint channel_rows (a : array2) (sr : Z) (cs : list nat)
  : result (list channel_row) :=
  match cs with
  | [] => Ok []
  | c :: rest =>
      r <- channel_metrics a sr c ;;
      rs <- channel_rows a sr rest ;;
      Ok (r :: rs)
  end.

(** [np.std] (population standard deviation), exact: it is 0 on every
    constant channel.  In binary arithmetic it is exactly 0 on an all-zero
    channel; on another constant channel numpy may return rounding noise,
    which need not stay below a guard. *)
Definition np_std (l : list R) : R :=
  let m := np_mean l in
  sqrt (np_mean (square (map (fun v => v - m) l))).

(** [np.corrcoef(L, R)[0, 1]], clipped to [-1, 1] as numpy does *)
Definition np_corrcoef (l r : list R) : R :=
  let ml := np_mean l in
  let mr := np_mean r in
  let dl := map (fun v => v - ml) l in
  let dr := map (fun v => v - mr) r in
  let cov := np_sum (map (fun p => fst p * snd p) (combine dl dr)) in
  let c := cov / sqrt (np_sum (square dl) * np_sum (square dr)) in
  Rmax (-1) (Rmin 1 c).

(** lines 181-188: dead-channel detection over the enumerated rows
    (the [is not None] tests always pass: both levels are floats) *)
Definition is_silent (r : channel_row) : bool :=
  (flt (ch_rms_dbfs r) (-80) || flt (ch_peak_dbfs r) (-60))%bool.

Fixpoint silent_scan (i : nat) (rows : list channel_row) : list nat :=
  match rows with
  | [] => []
  | r :: rest =>
      if is_silent r
      then i :: silent_scan (S i) rest
      else silent_scan (S i) rest
  end.

Definition per_channel_metrics (a : array2) (sr : Z)
  : result (list channel_row * channel_extra) :=
  let C := shape_C a in
  rows <- channel_rows a sr (seq 0 C) ;;
  let '(corr, imb) :=
    if (2 <=? C)%nat then
      let L := column a 0 in
      let R_ := column a 1 in
      let corr :=
        if (Rltb 1e-12 (np_std L) && Rltb 1e-12 (np_std R_))%bool
        then Some (np_corrcoef L R_) else None in
      let imb :=
        match rms_dbfs L, rms_dbfs R_ with
        | Finite l, Finite r => Some (Rabs (l - r))
        | _, _ => None
        end in
      (corr, imb)
    else (None, None) in
  Ok (rows, {| lr_corr := corr; channel_imbalance_db := imb;
               silent_channels := silent_scan 0 rows |}).

(* ================================================================ *)
(** ** [analyze_file] ([analysis.py], lines 20-70) *)

Record file_row : Type := {
  row_sr : Z;
  row_peak_dbfs : float;
  row_true_peak_dbfs : option R;
  row_rms_dbfs : float;
  row_crest_db : float;
  row_lufs : float;
  row_lufs_s : option R;
  row_lufs_m : option R;
  row_lra : option R;
  row_snr_db : option R;
  row_channels : option (list channel_row);
  row_lr_corr : option R;
  row_channel_imbalance_db : option R;
  row_silent_channels : list nat
}.

(** The decoder is outside the engine: [analyze_file] is given what
    [read_audio] returned (the mono buffer and its rate) and the outcome
    of [read_audio_multi]. *)
Definition analyze_file (y : list R) (sr : Z) (multi : result array2)
  : result file_row :=
  pk <- peak_dbfs y ;;
  let rms := rms_dbfs y in
  let crest := crest_db pk rms in
  l <- r128_loudness_and_lra y sr ;;
  let '(L_i, L_s, L_m, LRA) := l in
  snr <- snr_db y sr ;;
  let tp := true_peak_dbfs y sr 4 in
  let '(ch_rows, ch_extra) :=
    try_except
      (ymc <- multi ;;
       if (2 <=? shape_C ymc)%nat then
         r <- per_channel_metrics ymc sr ;;
         Ok (Some (fst r), Some (snd r))
       else Ok (None, None))
      (None, None) in
  Ok {| row_sr := sr;
        row_peak_dbfs := pk;
        row_true_peak_dbfs := tp;
        row_rms_dbfs := rms;
        row_crest_db := crest;
        row_lufs := L_i;
        row_lufs_s := L_s;
        row_lufs_m := L_m;
        row_lra := LRA;
        row_snr_db := snr;
        row_channels := ch_rows;
        row_lr_corr :=
          match ch_extra with Some e => lr_corr e | None => None end;
        row_channel_imbalance_db :=
          match ch_extra with Some e => channel_imbalance_db e | None => None end;
        row_silent_channels :=
          match ch_extra with Some e => silent_channels e | None => [] end |}.

End Loudness.

(* ================================================================== *)
(** ** Decoding helpers ([audio_io.py]) *)

(** [y.mean(axis=1)] (lines 35-36 and 56-57): the mono down-mix that
    [read_audio] makes of a two-dimensional array. *)
Definition downmix (a : array2) : list R := map np_mean (frames_of a).

(** lines 53-55 and 83-85: integer PCM samples of [sample_width] bytes
    divided by [1 << (8 * sample_width - 1)]; the shift is Python's for
    [sample_width >= 1] (Python refuses a negative shift count) *)
Definition pcm_scale (sample_width : Z) : Z :=
  Z.shiftl 1 (8 * sample_width - 1).

Definition pcm_to_float (sample_width : Z) (arr : list Z) : list R :=
  map (fun v => IZR v / IZR (pcm_scale sample_width)) arr.

(* ================================================================== *)
(** ** Threshold rules and verdicts ([analysis.py], lines 85-138) *)

Inductive mark : Type := PASS | WARN | FAIL | NA.

Definition mark_eqb (a b : mark) : bool :=
  match a, b with
  | PASS, PASS | WARN, WARN | FAIL, FAIL | NA, NA => true
  | _, _ => false
  end.

(** A rule as [judge] declares it ([Dict[str, float]]): each of the keys
    [min], [max], [warn_min], [warn_max] is absent or a number.  What a
    YAML file can hold besides, a key present with [null], is in
    [raw_rule] below. *)
Record rule : Type := {
  rule_min : option R;
  rule_max : option R;
  rule_warn_min : option R;
  rule_warn_max : option R
}.

(** What [row.get(key)] hands to [judge]: nothing, a float, an integer,
    or a value that is no number (the file name, a list). *)
Inductive pyval : Type :=
| VNone
| VFloat (f : float)
| VInt (z : Z)
| VOther.

(** A computation of the judgement layer: comparing a number with a
    string or a list raises [TypeError]. *)
Inductive typed (A : Type) : Type :=
| Done (a : A)
| TypeError.
Arguments Done {A} a.
Arguments TypeError {A}.

(** [has_min and cond(rule["min"])] and its sibling for [max] *)
Definition with_min (r : rule) (cond : R -> bool) : bool :=
  match rule_min r with Some lo => cond lo | None => false end.
Definition with_max (r : rule) (cond : R -> bool) : bool :=
  match rule_max r with Some hi => cond hi | None => false end.
Definition has_min (r : rule) : bool := with_min r (fun _ => true).
Definition has_max (r : rule) : bool := with_max r (fun _ => true).

(** lines 119-121 and 123-125: [WARN] inside the optional warn band *)
Definition warn_or_fail (bound : option R) (inside : R -> bool) : mark :=
  match bound with
  | Some w => if inside w then WARN else FAIL
  | None => FAIL
  end.

(** lines 104-128 of [judge], on a finite number *)
Definition judge_number (val : R) (r : rule) : mark :=
  if (with_min r (fun lo => Rleb lo val) && with_max r (fun hi => Rleb val hi))%bool
  then PASS
  else if (with_min r (fun lo => Rleb lo val) && negb (has_max r))%bool then PASS
  else if (with_max r (fun hi => Rleb val hi) && negb (has_min r))%bool then PASS
  else if with_min r (fun lo => Rltb val lo)
  then warn_or_fail (rule_warn_min r) (fun w => Rleb w val)
  else if with_max r (fun hi => Rltb hi val)
  then warn_or_fail (rule_warn_max r) (fun w => Rleb val w)
  else PASS.

Definition judge (val : pyval) (r : rule) : typed mark :=
  match val with
  | VNone => Done NA
  | VFloat (Finite v) => Done (judge_number v r)
  | VFloat _ => Done NA
  | VInt z => Done (judge_number (IZR z) r)
  | VOther => if (has_min r || has_max r)%bool then TypeError else Done PASS
  end.

Definition opt_float (o : option R) : pyval :=
  match o with Some v => VFloat (Finite v) | None => VNone end.

(** [row.get(key)] on a row that [analyze_file] built *)
Definition row_get (r : file_row) (key : string) : pyval :=
  if String.eqb key "file" then VOther
  else if String.eqb key "sr" then VInt (row_sr r)
  else if String.eqb key "peak_dbfs" then VFloat (row_peak_dbfs r)
  else if String.eqb key "true_peak_dbfs" then opt_float (row_true_peak_dbfs r)
  else if String.eqb key "rms_dbfs" then VFloat (row_rms_dbfs r)
  else if String.eqb key "crest_db" then VFloat (row_crest_db r)
  else if String.eqb key "lufs" then VFloat (row_lufs r)
  else if String.eqb key "lufs_s" then opt_float (row_lufs_s r)
  else if String.eqb key "lufs_m" then opt_float (row_lufs_m r)
  else if String.eqb key "lra" then opt_float (row_lra r)
  else if String.eqb key "snr_db" then opt_float (row_snr_db r)
  else if String.eqb key "channels"
  then match row_channels r with Some _ => VOther | None => VNone end
  else if String.eqb key "lr_corr" then opt_float (row_lr_corr r)
  else if String.eqb key "channel_imbalance_db"
  then opt_float (row_channel_imbalance_db r)
  else if String.eqb key "silent_channels" then VOther
  else VNone.

(** [format_marks]: one judgement per rule, in the order of the rules *)
Fixpoint format_marks (row : file_row) (thresholds : list (string * rule))
  : typed (list (string * mark)) :=
  match thresholds with
  | [] => Done []
  | (key, r) :: rest =>
      match judge (row_get row key) r with
      | TypeError => TypeError
      | Done m =>
          match format_marks row rest with
          | TypeError => TypeError
          | Done out => Done ((key, m) :: out)
          end
      end
  end.

(** *** Rules as the YAML file gives them

    [load_thresholds] hands on what [yaml.safe_load] returns, so a key can
    be present with the value [null].  A bound here is absent, null or a
    number; a bound that is a string or a list is outside this type. *)
Inductive bound : Type :=
| Absent
| Null
| Num (r : R).

Record raw_rule : Type := {
  raw_min : bound;
  raw_max : bound;
  raw_warn_min : bound;
  raw_warn_max : bound
}.

(** ["min" in rule] *)
Definition present (b : bound) : bool :=
  match b with Absent => false | _ => true end.

(** a comparison of the value with [rule[key]] for a key that is present:
    [None] against a number raises [TypeError] *)
Definition compare_bound (b : bound) (test : R -> bool) : typed bool :=
  match b with
  | Num r => Done (test r)
  | _ => TypeError
  end.

(** [rule.get(key, None)]: absent and null are both [None] *)
Definition get_bound (b : bound) : option R :=
  match b with Num w => Some w | _ => None end.

Definition tbind {A B : Type} (m : typed A) (k : A -> typed B) : typed B :=
  match m with
  | Done a => k a
  | TypeError => TypeError
  end.

(** [guard and comparison]: the comparison is evaluated only under the
    guard *)
Definition guarded (guard : bool) (c : typed bool) : typed bool :=
  if guard then c else Done false.

(** lines 104-128 of [judge] on a finite number, test by test; the chain
    [rule["min"] <= val <= rule["max"]] of line 108 stops at its first
    false comparison *)
Definition judge_raw_number (val : R) (r : raw_rule) : typed mark :=
  let has_min := present (raw_min r) in
  let has_max := present (raw_max r) in
  tbind (guarded (has_min && has_max)
           (tbind (compare_bound (raw_min r) (fun lo => Rleb lo val))
                  (fun c => if c
                            then compare_bound (raw_max r) (fun hi => Rleb val hi)
                            else Done false)))
    (fun both =>
  if both then Done PASS else
  tbind (guarded (has_min && negb has_max)
           (compare_bound (raw_min r) (fun lo => Rleb lo val)))
    (fun only_min =>
  if only_min then Done PASS else
  tbind (guarded (has_max && negb has_min)
           (compare_bound (raw_max r) (fun hi => Rleb val hi)))
    (fun only_max =>
  if only_max then Done PASS else
  tbind (guarded has_min (compare_bound (raw_min r) (fun lo => Rltb val lo)))
    (fun below =>
  if below
  then Done (warn_or_fail (get_bound (raw_warn_min r)) (fun w => Rleb w val))
  else
  tbind (guarded has_max (compare_bound (raw_max r) (fun hi => Rltb hi val)))
    (fun above =>
  if above
  then Done (warn_or_fail (get_bound (raw_warn_max r)) (fun w => Rleb val w))
  else Done PASS))))).

(** [judge] on such a rule; a value that is no number raises at the first
    comparison, which a rule with a [min] or a [max] always reaches *)
Definition judge_raw (val : pyval) (r : raw_rule) : typed mark :=
  match val with
  | VNone => Done NA
  | VFloat (Finite v) => judge_raw_number v r
  | VFloat _ => Done NA
  | VInt z => judge_raw_number (IZR z) r
  | VOther =>
      if (present (raw_min r) || present (raw_max r))%bool then TypeError
      else Done PASS
  end.

Fixpoint format_marks_raw (row : file_row) (thresholds : list (string * raw_rule))
  : typed (list (string * mark)) :=
  match thresholds with
  | [] => Done []
  | (key, r) :: rest =>
      tbind (judge_raw (row_get row key) r) (fun m =>
      tbind (format_marks_raw row rest) (fun out => Done ((key, m) :: out)))
  end.

(** a rule with numeric bounds, as a rule of the file *)
Definition bound_of (o : option R) : bound :=
  match o with Some r => Num r | None => Absent end.

Definition raw_of (r : rule) : raw_rule :=
  {| raw_min := bound_of (rule_min r);
     raw_max := bound_of (rule_max r);
     raw_warn_min := bound_of (rule_warn_min r);
     raw_warn_max := bound_of (rule_warn_max r) |}.

(** ["X" in marks.values()] *)
Definition has_mark (m : mark) (marks : list (string * mark)) : bool :=
  existsb (fun kv => mark_eqb (snd kv) m) marks.

Definition verdict_from_marks (marks : list (string * mark)) : mark :=
  if has_mark FAIL marks then FAIL
  else if has_mark WARN marks then WARN
  else PASS.

(** [is_near_silence], on a row of [analyze_file] (both keys are present) *)
Definition is_near_silence (row : file_row) : bool :=
  (flt (row_rms_dbfs row) (-80) || flt (row_peak_dbfs row) (-60))%bool.

(* ================================================================== *)
(** ** The batch verdicts ([report.py], lines 44-66 and 133-136) *)

(** [[k for k, v in marks.items() if v == m]] *)
Definition keys_marked (m : mark) (marks : list (string * mark)) : list string :=
  map fst (filter (fun kv => mark_eqb (snd kv) m) marks).

(** lines 46-59: verdict and reason of one row *)
Definition row_verdict (thresholds : list (string * rule)) (r : file_row)
  : typed (mark * string) :=
  match format_marks r thresholds with
  | TypeError => TypeError
  | Done marks =>
      if is_near_silence r then Done (FAIL, "near-silence"%string)
      else
        let fails := keys_marked FAIL marks in
        let warns := keys_marked WARN marks in
        let reason :=
          match fails, warns with
          | _ :: _, _ => String.concat "," fails
          | [], _ :: _ => String.concat "," warns
          | [], [] => EmptyString
          end in
        Done (verdict_from_marks marks, reason)
  end.

Record tally : Type := { pass_n : nat; fail_n : nat; warn_n : nat }.

(** lines 61-66 *)
Definition count_verdict (verdict : mark) (t : tally) : tally :=
  match verdict with
  | PASS => {| pass_n := S (pass_n t); fail_n := fail_n t; warn_n := warn_n t |}
  | FAIL => {| pass_n := pass_n t; fail_n := S (fail_n t); warn_n := warn_n t |}
  | _ => {| pass_n := pass_n t; fail_n := fail_n t; warn_n := S (warn_n t) |}
  end.

(** the loop of lines 45-82 over the rows, without the writing *)
Fixpoint batch_tally (thresholds : list (string * rule)) (rows : list file_row)
         (t : tally) : typed tally :=
  match rows with
  | [] => Done t
  | r :: rest =>
      match row_verdict thresholds r with
      | TypeError => TypeError
      | Done (verdict, _) => batch_tally thresholds rest (count_verdict verdict t)
      end
  end.

(** lines 133-136: the process exits with status 1 when a file failed *)
Definition exit_status (t : tally) : Z :=
  if (0 <? fail_n t)%nat then 1%Z else 0%Z.

(* ================================================================== *)
(** ** Buffers used in the statements *)

(** amplitude scaling of a buffer by the factor [k] *)
Definition scale (k : R) (y : list R) : list R := map (fun v => k * v) y.

(** the level both level metrics report for an all-zero buffer *)
Definition floor_dbfs : R := 20 * log10 1e-12.

(** A meter on which every call fails. *)
Definition failing_meter (sr : Z) : Meter :=
  {| integrated_loudness := fun _ => Raise (LibraryError 1);
     loudness_shortterm := fun _ => Raise (LibraryError 2);
     loudness_momentary := fun _ => Raise (LibraryError 3);
     loudness_range := fun _ => Raise (LibraryError 4) |}.

(** A meter that measures the plain mean-square power of the buffer, with
    the offset of BS.1770 but no weighting filter and no gating block
    structure: the power of digital silence is zero and its logarithm is
    minus infinity, as [np.log10(0.0)] is.  Its short-term call fails, its
    momentary series holds non-finite entries and its range is NaN. *)
Definition power_meter (sr : Z) : Meter :=
  {| integrated_loudness := fun y =>
       let z := np_mean (square y) in
       if Rleb z 0 then Ok NInf else Ok (Finite (-0.691 + 10 * log10 z));
     loudness_shortterm := fun _ => Raise (LibraryError 2);
     loudness_momentary := fun _ => Ok (Some [NaN; Finite (-23); NInf]);
     loudness_range := fun _ => Ok NaN |}.

(** a stereo recording whose second channel is dead *)
Definition one_dead_channel : array2 :=
  {| shape_N := 2; shape_C := 2; frames_of := [[0.5; 0]; [-0.5; 0]] |}.

(** ten samples at 20 Hz, five at one level and five at another: one
    sample per frame *)
Definition two_level (a b : R) : list R := [a; a; a; a; a; b; b; b; b; b].

Definition two_level_buffer : list R := two_level 0.1 1.

(** the same shape 120 dB lower *)
Definition quiet_buffer : list R := two_level 1e-7 1e-6.

(** As the specification words the time-domain method: the dynamic range
    is that of the percentiles themselves and the value is the plain ratio
    of the two means. *)
Definition spec_percentile_conditions (y : list R) (sr : Z) : Prop :=
  let frames := active_frames y sr in
  (half_second sr <= Z.of_nat (length y))%Z /\
  (10 <= length frames)%nat /\
  6 <= 10 * log10 (np_percentile frames 90 / np_percentile frames 10) /\
  (5 <= length (low_frames frames))%nat /\
  (5 <= length (high_frames frames))%nat.

Definition spec_percentile_value (y : list R) (sr : Z) : R :=
  let frames := active_frames y sr in
  10 * log10 (np_mean (high_frames frames) / np_mean (low_frames frames)).

(** *** A quiet tone at the Nyquist rate

    The samples alternate in sign; each is divided by the Hann weight it
    will meet, so that the windowed signal is the plain alternation
    [c, -c, c, ...] between two zero end points. *)

Definition alternating (n : nat) : R := if Nat.even n then 1 else -1.

Definition end_gated (N n : nat) : R :=
  if ((n =? 0) || (n =? N - 1))%nat then 0 else alternating n.

Definition compensated_sample (N : nat) (c : R) (n : nat) : R :=
  if ((n =? 0) || (n =? N - 1))%nat then 0
  else c * alternating n / hann_weight N n.

Definition compensated_tone (N : nat) (c : R) : list R :=
  map (compensated_sample N c) (seq 0 N).

(** 4096 samples of that tone at amplitude [1e-7] before the window (the
    largest sample is below 0.2), then 4095 samples of silence. *)
Definition tone_buffer : list R := compensated_tone 4096 1e-7 ++ repeat 0 4095.

(** a stereo recording whose second channel is the first with its
    polarity inverted *)
Definition inverted_pair : array2 :=
  {| shape_N := 2; shape_C := 2; frames_of := [[0.5; -0.5]; [-0.5; 0.5]] |}.

(** *** A row and a thresholds file for the judgement layer *)

(** the row of a file at ordinary level: peak -1 dBFS, RMS -20 dBFS, an
    SNR of 15 dB, no loudness range *)
Definition loud_row : file_row :=
  {| row_sr := 48000;
     row_peak_dbfs := Finite (-1);
     row_true_peak_dbfs := Some (-1.5);
     row_rms_dbfs := Finite (-20);
     row_crest_db := Finite 19;
     row_lufs := Finite (-23);
     row_lufs_s := Some (-21);
     row_lufs_m := Some (-19);
     row_lra := None;
     row_snr_db := Some 15;
     row_channels := None;
     row_lr_corr := None;
     row_channel_imbalance_db := None;
     row_silent_channels := [] |}.

(** a ceiling on the peak with a warn band, a floor on the SNR with a
    warn band, and a band for the loudness range *)
Definition sample_thresholds : list (string * rule) :=
  [("peak_dbfs"%string,
    {| rule_min := None; rule_max := Some (-0.5);
       rule_warn_min := None; rule_warn_max := Some (-0.1) |});
   ("snr_db"%string,
    {| rule_min := Some 20; rule_max := None;
       rule_warn_min := Some 10; rule_warn_max := None |});
   ("lra"%string,
    {| rule_min := Some 1; rule_max := Some 20;
       rule_warn_min := None; rule_warn_max := None |})].

(** a rule of a YAML file whose minimum is null *)
Definition null_minimum : list (string * raw_rule) :=
  [("peak_dbfs"%string,
    {| raw_min := Null; raw_max := Num (-0.5);
       raw_warn_min := Absent; raw_warn_max := Absent |})].

(* ================================================================== *)
(** * Properties *)

(** ** Logarithms and the guard *)

Lemma eps_pos : 0 < eps.
Proof. unfold eps; lra. Qed.

Lemma ln10_pos : 0 < ln 10.
Proof. rewrite <- ln_1. apply ln_increasing; lra. Qed.

Lemma log10_lt (x y : R) : 0 < x -> x < y -> log10 x < log10 y.
Proof.
  intros Hx Hxy. unfold log10.
  apply Rmult_lt_compat_r.
  - apply Rinv_0_lt_compat, ln10_pos.
  - now apply ln_increasing.
Qed.

Lemma log10_le (x y : R) : 0 < x -> x <= y -> log10 x <= log10 y.
Proof.
  intros Hx [Hlt | ->].
  - left; now apply log10_lt.
  - right; reflexivity.
Qed.

Lemma log10_1 : log10 1 = 0.
Proof. unfold log10. rewrite ln_1. lra. Qed.

Lemma log10_10 : log10 10 = 1.
Proof. unfold log10. field. pose proof ln10_pos; lra. Qed.

Lemma log10_mult (x y : R) :
  0 < x -> 0 < y -> log10 (x * y) = log10 x + log10 y.
Proof.
  intros Hx Hy. unfold log10. rewrite ln_mult by assumption.
  field. pose proof ln10_pos; lra.
Qed.

Lemma log10_div (x y : R) :
  0 < x -> 0 < y -> log10 (x / y) = log10 x - log10 y.
Proof.
  intros Hx Hy. unfold log10.
  replace (ln (x / y)) with (ln x - ln y).
  - field. pose proof ln10_pos; lra.
  - unfold Rdiv. rewrite ln_mult, ln_Rinv; auto using Rinv_0_lt_compat.
Qed.

Lemma log10_inj (x y : R) : 0 < x -> 0 < y -> log10 x = log10 y -> x = y.
Proof.
  intros Hx Hy H. apply ln_inv; auto.
  unfold log10 in H. pose proof ln10_pos.
  apply (Rmult_eq_reg_r (/ ln 10)); auto.
  apply Rinv_neq_0_compat; lra.
Qed.

Lemma log10_nonneg (x : R) : 1 <= x -> 0 <= log10 x.
Proof. intros H. rewrite <- log10_1. apply log10_le; lra. Qed.

Lemma log10_pos (x : R) : 1 < x -> 0 < log10 x.
Proof. intros H. rewrite <- log10_1. apply log10_lt; lra. Qed.

Lemma log10_pow10 (n : nat) : log10 (10 ^ n) = INR n.
Proof.
  unfold log10. rewrite ln_pow by lra. field.
  pose proof ln10_pos; lra.
Qed.

Lemma log10_inv_pow10 (n : nat) : log10 (/ 10 ^ n) = - INR n.
Proof.
  unfold log10. rewrite ln_Rinv by (apply pow_lt; lra).
  rewrite ln_pow by lra. field. pose proof ln10_pos; lra.
Qed.

(** the floor of the level metrics is -240 dBFS *)
Lemma floor_dbfs_value : floor_dbfs = -240.
Proof.
  unfold floor_dbfs.
  replace 1e-12 with (/ 10 ^ 12) by (simpl; lra).
  rewrite log10_inv_pow10, INR_IZR_INZ. simpl Z.of_nat. lra.
Qed.

Lemma log10_ge_neg (x : R) (n : nat) : / 10 ^ n <= x -> - INR n <= log10 x.
Proof.
  intros H. rewrite <- log10_inv_pow10. apply log10_le; [| assumption].
  apply Rinv_0_lt_compat, pow_lt. lra.
Qed.

(** ** Boolean comparisons *)

(** Decides the comparisons on concrete reals that a goal still contains. *)
Ltac rdecide :=
  repeat match goal with
    | |- context [Rcase_abs ?c] => destruct (Rcase_abs c); try lra
    | |- context [Rle_dec ?a ?b] => destruct (Rle_dec a b); try lra
    | |- context [Rlt_dec ?a ?b] => destruct (Rlt_dec a b); try lra
    end.

Ltac reval := unfold Rltb, Rleb, Rmax, Rmin, Rabs; rdecide.

Lemma Rltb_true (x y : R) : Rltb x y = true <-> x < y.
Proof. unfold Rltb. destruct (Rlt_dec x y); split; intros; try easy. Qed.

Lemma Rltb_false (x y : R) : Rltb x y = false <-> y <= x.
Proof.
  unfold Rltb. destruct (Rlt_dec x y); split; intros; try easy; lra.
Qed.

Lemma Rleb_true (x y : R) : Rleb x y = true <-> x <= y.
Proof. unfold Rleb. destruct (Rle_dec x y); split; intros; try easy. Qed.

Lemma Rleb_false (x y : R) : Rleb x y = false <-> y < x.
Proof.
  unfold Rleb. destruct (Rle_dec x y); split; intros; try easy; lra.
Qed.

(** ** [np_max] *)

Lemma fold_left_Rmax_ge (l : list R) (a : R) : a <= fold_left Rmax l a.
Proof.
  revert a. induction l as [| h t IH]; intros a; simpl.
  - lra.
  - eapply Rle_trans; [apply (Rmax_l a h) | apply IH].
Qed.

Lemma fold_left_Rmax_ub (l : list R) (a v : R) :
  In v l -> v <= fold_left Rmax l a.
Proof.
  revert a. induction l as [| h t IH]; intros a Hin; simpl in *.
  - contradiction.
  - destruct Hin as [-> | Hin].
    + eapply Rle_trans; [apply (Rmax_r a v) | apply fold_left_Rmax_ge].
    + now apply IH.
Qed.

Lemma fold_left_Rmax_In (l : list R) (a : R) :
  fold_left Rmax l a = a \/ In (fold_left Rmax l a) l.
Proof.
  revert a. induction l as [| h t IH]; intros a; simpl.
  - now left.
  - destruct (IH (Rmax a h)) as [E | Hin].
    + rewrite E. unfold Rmax. destruct (Rle_dec a h); auto.
    + auto.
Qed.

Lemma np_max_spec (l : list R) (m : R) :
  np_max l = Some m -> In m l /\ forall v, In v l -> v <= m.
Proof.
  destruct l as [| x t]; simpl; [discriminate |].
  intros [= <-]. split.
  - destruct (fold_left_Rmax_In t x) as [-> | H]; auto.
  - intros v [<- | Hin].
    + apply fold_left_Rmax_ge.
    + now apply fold_left_Rmax_ub.
Qed.

Lemma np_max_intro (l : list R) (m : R) :
  In m l -> (forall v, In v l -> v <= m) -> np_max l = Some m.
Proof.
  intros Hin Hub.
  destruct l as [| x t]; [contradiction |].
  simpl. f_equal.
  destruct (np_max_spec (x :: t) _ eq_refl) as [Hin' Hub'].
  apply Rle_antisym; auto.
Qed.

Lemma np_max_nonempty (l : list R) : l <> [] -> exists m, np_max l = Some m.
Proof. destruct l; [congruence | intros _; simpl; eauto]. Qed.

Lemma np_max_abs_nonneg (y : list R) (m : R) :
  np_max (map Rabs y) = Some m -> 0 <= m.
Proof.
  intros H. apply np_max_spec in H as [Hin _].
  apply in_map_iff in Hin as (v & <- & _). apply Rabs_pos.
Qed.

Lemma np_max_abs_bound (y : list R) (m : R) (i : nat) (d : R) :
  np_max (map Rabs y) = Some m -> Rabs d <= m -> Rabs (nth i y d) <= m.
Proof.
  intros H Hd. destruct (nth_in_or_default i y d) as [Hin | ->]; auto.
  apply np_max_spec in H as [_ Hub]. apply Hub. now apply in_map.
Qed.

(** ** True peak: linear interpolation never exceeds the sample peak *)

Lemma Rabs_le_between (x m : R) : Rabs x <= m -> - m <= x <= m.
Proof. unfold Rabs. destruct (Rcase_abs x); lra. Qed.

Lemma interp_at_bound (x : list R) (m : R) (num den : nat) :
  np_max (map Rabs x) = Some m -> (0 < den)%nat ->
  Rabs (interp_at x num den) <= m.
Proof.
  intros Hm Hden. unfold interp_at.
  set (a := nth (num / den) x 0).
  set (b := nth (S (num / den)) x a).
  assert (Ha : Rabs a <= m).
  { apply np_max_abs_bound; auto. rewrite Rabs_R0.
    eapply np_max_abs_nonneg; eauto. }
  assert (Hb : Rabs b <= m) by (apply np_max_abs_bound; auto).
  apply Rabs_le_between in Ha, Hb.
  assert (Hden' : 0 < INR den) by (apply (lt_INR 0); lia).
  assert (Hr : 0 <= INR (num mod den) / INR den <= 1).
  { assert (Hlt : (num mod den < den)%nat) by (apply Nat.mod_upper_bound; lia).
    apply lt_INR in Hlt. pose proof (pos_INR (num mod den)).
    split.
    - apply Rmult_le_pos; [assumption | left; now apply Rinv_0_lt_compat].
    - apply (Rmult_le_reg_r (INR den)); auto.
      unfold Rdiv. rewrite Rmult_assoc, Rinv_l by lra. lra. }
  apply Rabs_le. nra.
Qed.

Lemma oversample_peak_le (x : list R) (os_factor : nat) (m up : R) :
  (1 < os_factor)%nat -> (1 < length x)%nat ->
  np_max (map Rabs x) = Some m ->
  np_max (map Rabs (oversample x os_factor)) = Some up ->
  up <= m.
Proof.
  intros Hos Hlen Hm Hup.
  apply np_max_spec in Hup as [Hin _].
  apply in_map_iff in Hin as (v & <- & Hv).
  unfold oversample in Hv. apply in_map_iff in Hv as (j & <- & _).
  apply interp_at_bound; auto. nia.
Qed.

(** The "max of original and oversampled peak" is the sample peak itself. *)
Lemma true_peak_linear_eq (x : list R) (os_factor : nat) :
  true_peak_linear x os_factor = np_max (map Rabs x).
Proof.
  unfold true_peak_linear.
  destruct (np_max (map Rabs x)) as [m |] eqn:Hm; auto.
  destruct ((1 <? os_factor)%nat && (1 <? length x)%nat)%bool eqn:Hg; auto.
  apply andb_true_iff in Hg as [H1 H2].
  apply Nat.ltb_lt in H1, H2.
  destruct (np_max (map Rabs (oversample x os_factor))) as [up |] eqn:Hup; auto.
  f_equal. apply Rmax_left.
  exact (oversample_peak_le x os_factor m up H1 H2 Hm Hup).
Qed.

Lemma true_peak_dbfs_eq (y : list R) (sr : Z) (os_factor : nat) (m : R) :
  np_max (map Rabs y) = Some m -> 0 < m ->
  true_peak_dbfs y sr os_factor = Some (20 * log10 m).
Proof.
  intros Hm Hpos. unfold true_peak_dbfs.
  destruct y as [| v t]; [discriminate |].
  rewrite true_peak_linear_eq, Hm.
  assert (E : Rleb m 0 = false) by (apply Rleb_false; lra).
  now rewrite E.
Qed.

Lemma peak_dbfs_eq (y : list R) (m : R) :
  np_max (map Rabs y) = Some m -> peak_dbfs y = Ok (Finite (20 * log10 (m + eps))).
Proof. intros H. unfold peak_dbfs. now rewrite H. Qed.

(** C2, as amended: a buffer with a non-zero sample peak [m] gets a true
    peak, and that value is at least [20*log10 m], the sample peak in dBFS
    taken without the guard [eps]; hence it is at least [peak_dbfs] minus
    [20*log10 (1 + eps/m)]. *)
Theorem true_peak_ge_unguarded_peak (y : list R) (sr : Z) (os_factor : nat) (m : R) :
  np_max (map Rabs y) = Some m -> 0 < m ->
  exists tp pk,
    true_peak_dbfs y sr os_factor = Some tp /\
    peak_dbfs y = Ok (Finite pk) /\
    20 * log10 m <= tp /\
    pk - 20 * log10 (1 + eps / m) <= tp.
Proof.
  intros Hm Hpos.
  exists (20 * log10 m), (20 * log10 (m + eps)).
  rewrite (true_peak_dbfs_eq y sr os_factor m Hm Hpos), (peak_dbfs_eq y m Hm).
  repeat split; try lra.
  pose proof eps_pos as He.
  replace (m + eps) with (m * (1 + eps / m)) by (field; lra).
  rewrite log10_mult; try lra.
  assert (0 < eps / m) by (apply Rdiv_lt_0_compat; lra). lra.
Qed.

Lemma true_peak_ge_unguarded_peak_witness :
  exists tp pk,
    true_peak_dbfs [0.5; -1] 48000 4 = Some tp /\
    peak_dbfs [0.5; -1] = Ok (Finite pk) /\
    20 * log10 1 <= tp /\
    pk - 20 * log10 (1 + eps / 1) <= tp.
Proof.
  apply (true_peak_ge_unguarded_peak [0.5; -1] 48000 4 1).
  - simpl. f_equal. reval.
  - lra.
Defined.

(** C2, counterexample: on the one-sample buffer [1.0] the true peak is
    0 dBFS while [peak_dbfs], which adds [eps] inside the logarithm, is
    strictly above it. *)
Lemma true_peak_below_peak_dbfs :
  exists tp pk,
    true_peak_dbfs [1] 48000 4 = Some tp /\
    peak_dbfs [1] = Ok (Finite pk) /\
    tp < pk.
Proof.
  assert (Hm : np_max (map Rabs [1]) = Some 1) by (simpl; now rewrite Rabs_R1).
  exists (20 * log10 1), (20 * log10 (1 + eps)).
  rewrite (true_peak_dbfs_eq [1] 48000 4 1 Hm) by lra.
  rewrite (peak_dbfs_eq [1] 1 Hm).
  repeat split.
  pose proof eps_pos.
  assert (log10 1 < log10 (1 + eps)) by (apply log10_lt; lra). lra.
Qed.

(** ** Level metrics on silence *)

Lemma np_sum_cons (a : R) (l : list R) : np_sum (a :: l) = a + np_sum l.
Proof. reflexivity. Qed.

Lemma square_cons (a : R) (l : list R) : square (a :: l) = a * a :: square l.
Proof. reflexivity. Qed.

Lemma np_sum_square_zero (y : list R) :
  Forall (fun v => v = 0) y -> np_sum (square y) = 0.
Proof.
  induction 1 as [| v t Hv _ IH]; [reflexivity |].
  rewrite square_cons, np_sum_cons, IH, Hv. lra.
Qed.

Lemma np_max_abs_zero (y : list R) :
  y <> [] -> Forall (fun v => v = 0) y -> np_max (map Rabs y) = Some 0.
Proof.
  intros Hne Hz. rewrite Forall_forall in Hz.
  apply np_max_intro.
  - destruct y as [| v t]; [congruence |].
    left. rewrite (Hz v) by now left. apply Rabs_R0.
  - intros a Ha. apply in_map_iff in Ha as (v & <- & Hv).
    rewrite (Hz v Hv), Rabs_R0. lra.
Qed.

Lemma true_peak_dbfs_zero (y : list R) (sr : Z) (os_factor : nat) :
  Forall (fun v => v = 0) y -> true_peak_dbfs y sr os_factor = None.
Proof.
  intros Hz. destruct y as [| v t] eqn:E; [reflexivity |].
  unfold true_peak_dbfs. rewrite true_peak_linear_eq.
  rewrite np_max_abs_zero by (auto; congruence).
  assert (H0 : Rleb 0 0 = true) by (apply Rleb_true; lra).
  now rewrite H0.
Qed.

Lemma peak_dbfs_zero (y : list R) :
  y <> [] -> Forall (fun v => v = 0) y -> peak_dbfs y = Ok (Finite floor_dbfs).
Proof.
  intros Hne Hz.
  rewrite (peak_dbfs_eq y 0) by now apply np_max_abs_zero.
  unfold floor_dbfs, eps.
  now replace (0 + 1e-12) with 1e-12 by lra.
Qed.

Lemma rms_dbfs_zero (y : list R) :
  y <> [] -> Forall (fun v => v = 0) y -> rms_dbfs y = Finite floor_dbfs.
Proof.
  intros Hne Hz. destruct y as [| v t] eqn:E; [congruence |].
  unfold rms_dbfs, np_mean. rewrite np_sum_square_zero by assumption.
  unfold Rdiv. rewrite Rmult_0_l, sqrt_0.
  unfold floor_dbfs, eps.
  now replace (0 + 1e-12) with 1e-12 by lra.
Qed.

(** What holds of silence: an all-zero buffer of length at least one puts
    [peak_dbfs] and [rms_dbfs] at the floor [20*log10 1e-12], and
    [true_peak_dbfs] is NA on every all-zero buffer, the empty one
    included. *)
Theorem silence_levels (y : list R) (sr : Z) (os_factor : nat) :
  Forall (fun v => v = 0) y ->
  true_peak_dbfs y sr os_factor = None /\
  (y <> [] ->
   peak_dbfs y = Ok (Finite floor_dbfs) /\ rms_dbfs y = Finite floor_dbfs).
Proof.
  intros Hz. split.
  - now apply true_peak_dbfs_zero.
  - intros Hne. split.
    + now apply peak_dbfs_zero.
    + now apply rms_dbfs_zero.
Qed.

Lemma silence_levels_witness :
  true_peak_dbfs [0; 0] 48000 4 = None /\
  ([0; 0] <> [] ->
   peak_dbfs [0; 0] = Ok (Finite floor_dbfs) /\
   rms_dbfs [0; 0] = Finite floor_dbfs).
Proof.
  apply (silence_levels [0; 0] 48000 4).
  repeat constructor.
Defined.

(** C8: the zero-length buffer.  [true_peak_dbfs] tests [x.size == 0] and
    answers NA; [peak_dbfs] and [rms_dbfs] have no such test: [np.max]
    raises [ValueError], so [peak_dbfs] has no value, and [rms_dbfs] is the
    NaN of [np.mean]; neither is the floor. *)
Lemma empty_buffer_levels :
  true_peak_dbfs [] 48000 4 = None /\
  peak_dbfs [] = Raise ValueError /\
  rms_dbfs [] = NaN /\
  peak_dbfs [] <> Ok (Finite floor_dbfs) /\
  rms_dbfs [] <> Finite floor_dbfs.
Proof. repeat split; (reflexivity || discriminate). Qed.

(** ** SNR: the half-second precondition *)

(** C6: a buffer with fewer than [int(0.5*sr)] samples has SNR = NA. *)
Theorem snr_db_short_buffer (y : list R) (sr : Z) :
  (Z.of_nat (length y) < half_second sr)%Z -> snr_db y sr = Ok None.
Proof.
  intros H. unfold snr_db.
  apply Z.ltb_lt in H. now rewrite H.
Qed.

Lemma snr_db_short_buffer_witness : snr_db [0.25; -0.25; 0.5] 48000 = Ok None.
Proof.
  apply (snr_db_short_buffer [0.25; -0.25; 0.5] 48000).
  vm_compute. reflexivity.
Defined.

(** ** Level metrics under amplitude scaling *)

Lemma length_scale (k : R) (y : list R) : length (scale k y) = length y.
Proof. apply length_map. Qed.

Lemma np_max_abs_scale (k : R) (y : list R) (m : R) :
  0 <= k -> np_max (map Rabs y) = Some m ->
  np_max (map Rabs (scale k y)) = Some (k * m).
Proof.
  intros Hk Hm. apply np_max_spec in Hm as [Hin Hub].
  apply np_max_intro.
  - apply in_map_iff in Hin as (v & <- & Hv).
    apply in_map_iff. exists (k * v). split.
    + now rewrite Rabs_mult, (Rabs_pos_eq k).
    + unfold scale. now apply in_map.
  - intros a Ha. apply in_map_iff in Ha as (w & <- & Hw).
    unfold scale in Hw. apply in_map_iff in Hw as (v & <- & Hv).
    rewrite Rabs_mult, (Rabs_pos_eq k) by assumption.
    apply Rmult_le_compat_l; auto. apply Hub. now apply in_map.
Qed.

Lemma np_sum_square_scale (k : R) (y : list R) :
  np_sum (square (scale k y)) = k * k * np_sum (square y).
Proof.
  induction y as [| v t IH].
  - simpl. lra.
  - change (scale k (v :: t)) with (k * v :: scale k t).
    rewrite !square_cons, !np_sum_cons, IH. lra.
Qed.

Lemma np_sum_square_nonneg (y : list R) : 0 <= np_sum (square y).
Proof.
  induction y as [| v t IH]; [simpl; lra |].
  rewrite square_cons, np_sum_cons. nra.
Qed.

Lemma np_sum_square_ge (y : list R) (v : R) :
  In v y -> v * v <= np_sum (square y).
Proof.
  induction y as [| h t IH]; [contradiction |].
  rewrite square_cons, np_sum_cons.
  intros [-> | Hin].
  - pose proof (np_sum_square_nonneg t). lra.
  - specialize (IH Hin). nra.
Qed.

Lemma rms_linear_scale (k : R) (y : list R) :
  0 <= k ->
  sqrt (np_mean (square (scale k y))) = k * sqrt (np_mean (square y)).
Proof.
  intros Hk. unfold np_mean.
  rewrite np_sum_square_scale.
  replace (length (square (scale k y))) with (length (square y))
    by (unfold square, scale; now rewrite !length_map).
  replace (k * k * np_sum (square y) / INR (length (square y)))
    with ((k * k) * (np_sum (square y) / INR (length (square y))))
    by (unfold Rdiv; ring).
  rewrite sqrt_mult_alt by nra.
  now rewrite sqrt_square.
Qed.

Lemma rms_linear_pos (y : list R) (m : R) :
  np_max (map Rabs y) = Some m -> 0 < m -> 0 < sqrt (np_mean (square y)).
Proof.
  intros Hm Hpos. apply np_max_spec in Hm as [Hin _].
  apply in_map_iff in Hin as (v & Hv & Hin).
  apply sqrt_lt_R0. unfold np_mean.
  apply Rdiv_lt_0_compat.
  - pose proof (np_sum_square_ge y v Hin).
    assert (0 < v * v).
    { unfold Rabs in Hv. destruct (Rcase_abs v); nra. }
    lra.
  - unfold square. rewrite length_map.
    destruct y; [contradiction | apply (lt_INR 0); simpl; lia].
Qed.

(** The guard [eps] is not scaled with the signal: a level [a] scaled by
    [k] gains a little less than [20*log10 k]. *)
Lemma guarded_level_shift (a k : R) :
  0 < a -> 1 < k ->
  20 * log10 (a + eps) + 20 * log10 k - 20 * log10 (1 + eps / a)
    < 20 * log10 (k * a + eps)
  /\ 20 * log10 (k * a + eps) < 20 * log10 (a + eps) + 20 * log10 k.
Proof.
  intros Ha Hk. pose proof eps_pos as He.
  assert (Hq : 0 < eps / a) by (apply Rdiv_lt_0_compat; lra).
  assert (Hka : 0 < k * a) by nra.
  split.
  - replace (a + eps) with (a * (1 + eps / a)) by (field; lra).
    rewrite (log10_mult a) by lra.
    assert (log10 (k * a) < log10 (k * a + eps)) by (apply log10_lt; lra).
    rewrite (log10_mult k a) in H by lra. lra.
  - assert (log10 (k * a + eps) < log10 ((a + eps) * k)).
    { apply log10_lt; nra. }
    rewrite log10_mult in H by lra. lra.
Qed.

Lemma rms_dbfs_eq (y : list R) :
  y <> [] -> rms_dbfs y = Finite (20 * log10 (sqrt (np_mean (square y)) + eps)).
Proof. destruct y; [congruence | reflexivity]. Qed.

(** the tolerance the guard leaves: never negative, and at most
    [2e-7] dB for a level of at least [1e-4] *)
Lemma guard_tolerance (a : R) :
  0 < a ->
  0 <= 20 * log10 (1 + eps / a) /\
  (1e-4 <= a -> 20 * log10 (1 + eps / a) <= 2e-7).
Proof.
  intros Ha. pose proof eps_pos as He.
  assert (Hx : 0 < eps / a) by (apply Rdiv_lt_0_compat; lra).
  split.
  - assert (0 <= log10 (1 + eps / a)) by (apply log10_nonneg; lra). lra.
  - intros Hlevel.
    assert (Hln : ln (1 + eps / a) < eps / a).
    { rewrite <- (ln_exp (eps / a)) at 2.
      apply ln_increasing; [lra | apply exp_ineq1; lra]. }
    assert (H10 : 1 < ln 10).
    { rewrite <- (ln_exp 1). apply ln_increasing; [apply exp_pos |].
      pose proof exp_le_3. lra. }
    assert (Hxle : eps / a <= 1e-8).
    { apply Rmult_le_reg_r with a; [assumption |].
      unfold Rdiv. rewrite Rmult_assoc, Rinv_l by lra.
      unfold eps. nra. }
    assert (Hlog : log10 (1 + eps / a) <= eps / a).
    { unfold log10. apply Rmult_le_reg_r with (ln 10); [lra |].
      unfold Rdiv. rewrite Rmult_assoc, Rinv_l by lra. nra. }
    lra.
Qed.

(** C7, as amended: for a buffer with a non-zero sample peak [m] (and
    linear RMS [q]) and a factor [k > 1], [peak_dbfs] and [rms_dbfs] of the
    scaled buffer exceed those of the original by [20*log10 k] within a
    tolerance: the gain is at most [20*log10 k] and falls short of it by at
    most [20*log10 (1 + eps/m)], resp. [20*log10 (1 + eps/q)]; [crest_db]
    is unchanged within the same tolerance.  The tolerance is at most
    [2e-7] dB as soon as the level is at least [1e-4]. *)
Theorem scaling_shifts_levels (y : list R) (k m : R) :
  1 < k -> np_max (map Rabs y) = Some m -> 0 < m ->
  let q := sqrt (np_mean (square y)) in
  let gain := 20 * log10 k in
  let tol_peak := 20 * log10 (1 + eps / m) in
  let tol_rms := 20 * log10 (1 + eps / q) in
  exists p p' r r' c c',
    peak_dbfs y = Ok (Finite p) /\
    peak_dbfs (scale k y) = Ok (Finite p') /\
    rms_dbfs y = Finite r /\
    rms_dbfs (scale k y) = Finite r' /\
    crest_db (Finite p) (Finite r) = Finite c /\
    crest_db (Finite p') (Finite r') = Finite c' /\
    0 < q /\
    p + gain - tol_peak <= p' <= p + gain /\
    r + gain - tol_rms <= r' <= r + gain /\
    - tol_peak <= c' - c <= tol_rms /\
    0 <= tol_peak /\ 0 <= tol_rms /\
    (1e-4 <= m -> tol_peak <= 2e-7) /\
    (1e-4 <= q -> tol_rms <= 2e-7).
Proof.
  intros Hk Hm Hpos q gain tol_peak tol_rms.
  assert (Hne : y <> []) by (destruct y; [discriminate | congruence]).
  assert (Hne' : scale k y <> []) by (destruct y; [congruence | discriminate]).
  assert (Hq : 0 < q) by (eapply rms_linear_pos; eauto).
  destruct (guarded_level_shift m k Hpos Hk) as [Hp1 Hp2].
  destruct (guarded_level_shift q k Hq Hk) as [Hr1 Hr2].
  destruct (guard_tolerance m Hpos) as [Htp0 Htp].
  destruct (guard_tolerance q Hq) as [Htr0 Htr].
  exists (20 * log10 (m + eps)), (20 * log10 (k * m + eps)),
         (20 * log10 (q + eps)), (20 * log10 (k * q + eps)).
  eexists. eexists.
  rewrite (peak_dbfs_eq y m Hm).
  rewrite (peak_dbfs_eq (scale k y) (k * m)) by (apply np_max_abs_scale; auto; lra).
  rewrite (rms_dbfs_eq y Hne), (rms_dbfs_eq (scale k y) Hne').
  rewrite rms_linear_scale by lra. fold q.
  simpl crest_db.
  repeat split; auto; unfold gain, tol_peak, tol_rms; lra.
Qed.

Lemma scaling_shifts_levels_witness :
  let q := sqrt (np_mean (square [0.5; -1])) in
  let gain := 20 * log10 2 in
  let tol_peak := 20 * log10 (1 + eps / 1) in
  let tol_rms := 20 * log10 (1 + eps / q) in
  exists p p' r r' c c',
    peak_dbfs [0.5; -1] = Ok (Finite p) /\
    peak_dbfs (scale 2 [0.5; -1]) = Ok (Finite p') /\
    rms_dbfs [0.5; -1] = Finite r /\
    rms_dbfs (scale 2 [0.5; -1]) = Finite r' /\
    crest_db (Finite p) (Finite r) = Finite c /\
    crest_db (Finite p') (Finite r') = Finite c' /\
    0 < q /\
    p + gain - tol_peak <= p' <= p + gain /\
    r + gain - tol_rms <= r' <= r + gain /\
    - tol_peak <= c' - c <= tol_rms /\
    0 <= tol_peak /\ 0 <= tol_rms /\
    (1e-4 <= 1 -> tol_peak <= 2e-7) /\
    (1e-4 <= q -> tol_rms <= 2e-7).
Proof.
  apply (scaling_shifts_levels [0.5; -1] 2 1).
  - lra.
  - simpl. f_equal. reval.
  - lra.
Defined.

(** C7, counterexample: scaling the one-sample silent buffer by 10 (a gain
    of 20 dB) leaves [peak_dbfs] and [rms_dbfs] where they were. *)
Lemma scaling_silence_gains_nothing :
  exists p,
    peak_dbfs [0] = Ok (Finite p) /\
    peak_dbfs (scale 10 [0]) = Ok (Finite p) /\
    rms_dbfs [0] = Finite p /\
    rms_dbfs (scale 10 [0]) = Finite p /\
    20 * log10 10 = 20.
Proof.
  exists floor_dbfs.
  assert (Hz : Forall (fun v : R => v = 0) [0]) by repeat constructor.
  assert (Hz' : Forall (fun v : R => v = 0) (scale 10 [0])).
  { repeat constructor. lra. }
  rewrite log10_10. repeat split.
  - apply peak_dbfs_zero; [discriminate | assumption].
  - apply peak_dbfs_zero; [discriminate | assumption].
  - apply rms_dbfs_zero; [discriminate | assumption].
  - apply rms_dbfs_zero; [discriminate | assumption].
  - lra.
Qed.

(** ** Loudness: which failures are caught *)

Section LoudnessFacts.

Variable pyln_Meter : Z -> Meter.

Lemma peak_dbfs_total (y : list R) :
  y <> [] -> exists pk, peak_dbfs y = Ok (Finite pk).
Proof.
  intros Hne. unfold peak_dbfs.
  destruct (np_max_nonempty (map Rabs y)) as [m ->]; eauto.
  destruct y; [congruence | discriminate].
Qed.

Lemma snr_db_total (y : list R) (sr : Z) :
  y <> [] -> exists s, snr_db y sr = Ok s.
Proof.
  intros Hne. unfold snr_db.
  destruct (Z.of_nat (length y) <? half_second sr)%Z; eauto.
  destruct (snr_percentile (active_frames y sr)); eauto.
  unfold snr_spectral, nfft_of.
  destruct y as [| v t]; [congruence |]. simpl length. simpl Nat.eqb.
  cbv beta iota. unfold bind.
  match goal with |- context [if ?b then _ else _] => destruct b end; eauto.
Qed.

Lemma r128_raise (y : list R) (sr : Z) (e : exn) :
  integrated_loudness (pyln_Meter sr) y = Raise e ->
  r128_loudness_and_lra pyln_Meter y sr = Raise e.
Proof. intros H. unfold r128_loudness_and_lra. now rewrite H. Qed.

Lemma r128_ok (y : list R) (sr : Z) (L_i : float) :
  integrated_loudness (pyln_Meter sr) y = Ok L_i ->
  r128_loudness_and_lra pyln_Meter y sr =
    Ok (L_i,
        try_except (s <- loudness_shortterm (pyln_Meter sr) y ;; Ok (p95 s)) None,
        try_except (s <- loudness_momentary (pyln_Meter sr) y ;; Ok (p95 s)) None,
        try_except (v <- loudness_range (pyln_Meter sr) y ;; Ok (finite_or_none v))
                   None).
Proof. intros H. unfold r128_loudness_and_lra. now rewrite H. Qed.

Lemma analyze_file_raise (y : list R) (sr : Z) (multi : result array2)
      (e : exn) :
  y <> [] ->
  integrated_loudness (pyln_Meter sr) y = Raise e ->
  analyze_file pyln_Meter y sr multi = Raise e.
Proof.
  intros Hne H. unfold analyze_file.
  destruct (peak_dbfs_total y Hne) as [pk ->]. simpl.
  now rewrite (r128_raise y sr e H).
Qed.

Lemma analyze_file_lufs (y : list R) (sr : Z) (multi : result array2)
      (L_i : float) :
  y <> [] ->
  integrated_loudness (pyln_Meter sr) y = Ok L_i ->
  exists row, analyze_file pyln_Meter y sr multi = Ok row /\ row_lufs row = L_i.
Proof.
  intros Hne H. unfold analyze_file.
  destruct (peak_dbfs_total y Hne) as [pk ->]. simpl.
  rewrite (r128_ok y sr L_i H). simpl.
  destruct (snr_db_total y sr Hne) as [s ->]. simpl.
  match goal with
  | |- context [try_except ?m ?h] => destruct (try_except m h) as [rows extra]
  end.
  eexists. split; reflexivity.
Qed.

(** C4: on a non-empty buffer, an exception of the integrated-loudness
    call leaves [r128_loudness_and_lra] and [analyze_file] as that same
    exception; when the integrated loudness is computed, the function
    returns, and each of the short-term, momentary and range results is
    NA whenever its own computation raised. *)
Theorem loudness_failure_policy (y : list R) (sr : Z) :
  y <> [] ->
  match integrated_loudness (pyln_Meter sr) y with
  | Raise e =>
      r128_loudness_and_lra pyln_Meter y sr = Raise e /\
      forall multi, analyze_file pyln_Meter y sr multi = Raise e
  | Ok L_i =>
      exists L_s L_m LRA,
        r128_loudness_and_lra pyln_Meter y sr = Ok (L_i, L_s, L_m, LRA) /\
        (forall e, loudness_shortterm (pyln_Meter sr) y = Raise e -> L_s = None) /\
        (forall e, loudness_momentary (pyln_Meter sr) y = Raise e -> L_m = None) /\
        (forall e, loudness_range (pyln_Meter sr) y = Raise e -> LRA = None)
  end.
Proof.
  intros Hne.
  destruct (integrated_loudness (pyln_Meter sr) y) as [L_i | e] eqn:Hi.
  - do 3 eexists. split; [apply (r128_ok y sr L_i Hi) |].
    repeat split; intros e ->; reflexivity.
  - split; [now apply r128_raise |].
    intros multi. now apply analyze_file_raise.
Qed.

(** C5, the behaviour of the code: whatever the meter returns as
    integrated loudness, finite or not, is handed on unchanged by
    [r128_loudness_and_lra] and stored by [analyze_file] in the [lufs]
    field; no finiteness test is applied to it. *)
Theorem integrated_loudness_unchecked (y : list R) (sr : Z) (v : float) :
  y <> [] ->
  integrated_loudness (pyln_Meter sr) y = Ok v ->
  isfinite v = false ->
  (exists L_s L_m LRA,
      r128_loudness_and_lra pyln_Meter y sr = Ok (v, L_s, L_m, LRA)) /\
  (forall multi, exists row,
      analyze_file pyln_Meter y sr multi = Ok row /\
      isfinite (row_lufs row) = false).
Proof.
  intros Hne Hi Hv. split.
  - do 3 eexists. apply (r128_ok y sr v Hi).
  - intros multi.
    destruct (analyze_file_lufs y sr multi v Hne Hi) as (row & Hrow & Hl).
    exists row. split; [assumption | now rewrite Hl].
Qed.

End LoudnessFacts.

Lemma loudness_failure_policy_witness :
  r128_loudness_and_lra failing_meter [0.5; -0.5] 48000 = Raise (LibraryError 1) /\
  forall multi,
    analyze_file failing_meter [0.5; -0.5] 48000 multi = Raise (LibraryError 1).
Proof.
  apply (loudness_failure_policy failing_meter [0.5; -0.5] 48000).
  discriminate.
Defined.

Lemma integrated_loudness_unchecked_witness :
  (exists L_s L_m LRA,
      r128_loudness_and_lra power_meter [0; 0; 0] 48000 = Ok (NInf, L_s, L_m, LRA)) /\
  (forall multi, exists row,
      analyze_file power_meter [0; 0; 0] 48000 multi = Ok row /\
      isfinite (row_lufs row) = false).
Proof.
  apply (integrated_loudness_unchecked power_meter [0; 0; 0] 48000 NInf).
  - discriminate.
  - simpl. unfold np_mean. simpl.
    assert (E : Rleb ((0 * 0 + (0 * 0 + (0 * 0 + 0))) / (1 + 1 + 1)) 0 = true).
    { apply Rleb_true. lra. }
    now rewrite E.
  - reflexivity.
Defined.

(** The stand-in meter on silence: the integrated loudness is passed on as
    it is, the non-finite entries of the momentary series are dropped
    before the percentile, the NaN range and the failed short-term call
    become NA. *)
Lemma r128_power_meter_silence :
  r128_loudness_and_lra power_meter [0; 0; 0] 48000 =
    Ok (NInf, None, Some (-23), None).
Proof.
  unfold r128_loudness_and_lra. simpl.
  unfold np_mean. simpl.
  assert (E : Rleb ((0 * 0 + (0 * 0 + (0 * 0 + 0))) / (1 + 1 + 1)) 0 = true)
    by (apply Rleb_true; lra).
  rewrite E. simpl. unfold p95. simpl. unfold np_percentile. simpl.
  do 4 f_equal. lra.
Qed.

(** ** Per-channel analysis: dead-channel detection *)

Section ChannelFacts.

Variable pyln_Meter : Z -> Meter.

Lemma channel_metrics_inv (a : array2) (sr : Z) (c : nat) (r : channel_row) :
  channel_metrics pyln_Meter a sr c = Ok r ->
  peak_dbfs (column a c) = Ok (ch_peak_dbfs r) /\
  ch_rms_dbfs r = rms_dbfs (column a c).
Proof.
  unfold channel_metrics.
  destruct (peak_dbfs (column a c)) as [pk | e]; simpl; [| discriminate].
  match goal with
  | |- context [try_except ?m ?h] =>
      destruct (try_except m h) as [[[Li Ls] Lm] LRA]
  end.
  intros [= <-]. simpl. auto.
Qed.

Lemma channel_metrics_total (a : array2) (sr : Z) (c : nat) :
  frames_of a <> [] -> exists r, channel_metrics pyln_Meter a sr c = Ok r.
Proof.
  intros Hne. unfold channel_metrics.
  assert (Hc : column a c <> []).
  { unfold column. destruct (frames_of a); [congruence | discriminate]. }
  destruct (peak_dbfs_total (column a c) Hc) as [pk ->]. simpl.
  match goal with
  | |- context [try_except ?m ?h] =>
      destruct (try_except m h) as [[[Li Ls] Lm] LRA]
  end.
  eauto.
Qed.

(** the rows are the channels in order, each with its own levels *)
Lemma channel_rows_inv (a : array2) (sr : Z) (cs : list nat)
      (rows : list channel_row) :
  channel_rows pyln_Meter a sr cs = Ok rows ->
  Forall2 (fun c r =>
             peak_dbfs (column a c) = Ok (ch_peak_dbfs r) /\
             ch_rms_dbfs r = rms_dbfs (column a c)) cs rows.
Proof.
  revert rows. induction cs as [| c rest IH]; intros rows; simpl.
  - intros [= <-]. constructor.
  - destruct (channel_metrics pyln_Meter a sr c) as [r | e] eqn:Hr; simpl;
      [| discriminate].
    destruct (channel_rows pyln_Meter a sr rest) as [rs | e] eqn:Hrs; simpl;
      [| discriminate].
    intros [= <-]. constructor; [exact (channel_metrics_inv a sr c r Hr) | now apply IH].
Qed.

Lemma channel_rows_total (a : array2) (sr : Z) (cs : list nat) :
  frames_of a <> [] -> exists rows, channel_rows pyln_Meter a sr cs = Ok rows.
Proof.
  intros Hne. induction cs as [| c rest [rows IH]]; simpl; [eauto |].
  destruct (channel_metrics_total a sr c Hne) as [r ->].
  rewrite IH. simpl. eauto.
Qed.

Lemma Forall2_nth_error_left {A B : Type} (P : A -> B -> Prop)
      (l : list A) (l' : list B) :
  Forall2 P l l' ->
  forall i x, nth_error l i = Some x ->
              exists y, nth_error l' i = Some y /\ P x y.
Proof.
  induction 1 as [| x0 y0 l l' Hxy _ IH]; intros i x Hi.
  - destruct i; discriminate.
  - destruct i as [| i]; simpl in *.
    + injection Hi as <-. eauto.
    + eauto.
Qed.

Lemma nth_error_seq0 (n i : nat) :
  (i < n)%nat -> nth_error (seq 0 n) i = Some i.
Proof.
  intros Hi.
  rewrite nth_error_nth' with (d := 0%nat) by now rewrite length_seq.
  now rewrite seq_nth.
Qed.

Lemma silent_scan_In (rows : list channel_row) (i j : nat) :
  In j (silent_scan i rows) <->
  exists k r, j = (i + k)%nat /\ nth_error rows k = Some r /\ is_silent r = true.
Proof.
  revert i. induction rows as [| r rest IH]; intros i; simpl.
  - split; [contradiction |]. intros (k & r & _ & H & _).
    destruct k; discriminate.
  - destruct (is_silent r) eqn:Hs; simpl; rewrite IH; split.
    + intros [<- | (k & r' & -> & Hk & Hr')].
      * exists 0%nat, r. repeat split; auto; lia.
      * exists (S k), r'. repeat split; auto; lia.
    + intros (k & r' & -> & Hk & Hr'). destruct k as [| k]; simpl in Hk.
      * left; lia.
      * right. exists k, r'. repeat split; auto; lia.
    + intros (k & r' & -> & Hk & Hr').
      exists (S k), r'. repeat split; auto; lia.
    + intros (k & r' & -> & Hk & Hr'). destruct k as [| k]; simpl in Hk.
      * injection Hk as <-. congruence.
      * exists k, r'. repeat split; auto; lia.
Qed.

Lemma silent_scan_sorted (rows : list channel_row) (i : nat) :
  StronglySorted lt (silent_scan i rows).
Proof.
  revert i. induction rows as [| r rest IH]; intros i; simpl.
  - constructor.
  - destruct (is_silent r); [| apply IH].
    constructor; [apply IH |].
    apply Forall_forall. intros j Hj.
    apply silent_scan_In in Hj as (k & _ & -> & _). lia.
Qed.

Lemma StronglySorted_lt_NoDup (l : list nat) : StronglySorted lt l -> NoDup l.
Proof.
  induction 1 as [| x l Hs IH Hall]; constructor; auto.
  intros Hin. rewrite Forall_forall in Hall.
  specialize (Hall x Hin). lia.
Qed.

Lemma per_channel_metrics_silent (a : array2) (sr : Z)
      (rows : list channel_row) (extra : channel_extra) :
  per_channel_metrics pyln_Meter a sr = Ok (rows, extra) ->
  channel_rows pyln_Meter a sr (seq 0 (shape_C a)) = Ok rows /\
  silent_channels extra = silent_scan 0 rows.
Proof.
  unfold per_channel_metrics.
  destruct (channel_rows pyln_Meter a sr (seq 0 (shape_C a))) as [rs | e];
    simpl; [| discriminate].
  match goal with
  | |- context [if ?b then ?x else ?y] => destruct (if b then x else y) as [corr imb]
  end.
  intros [= <- <-]. auto.
Qed.

Lemma per_channel_metrics_total (a : array2) (sr : Z) :
  frames_of a <> [] ->
  exists rows extra, per_channel_metrics pyln_Meter a sr = Ok (rows, extra).
Proof.
  intros Hne. unfold per_channel_metrics.
  destruct (channel_rows_total a sr (seq 0 (shape_C a)) Hne) as [rows ->].
  simpl.
  match goal with
  | |- context [if ?b then ?x else ?y] => destruct (if b then x else y) as [corr imb]
  end.
  eauto.
Qed.

(** C9: a multi-channel buffer with at least one frame is analysed without
    an error, and in every result of the analysis channel [i] is among the
    silent channels exactly when it is a channel of the buffer whose RMS is
    below -80 dBFS or whose peak is below -60 dBFS; the list of silent
    channels is strictly ascending, hence free of duplicates. *)
Theorem silent_channels_spec (a : array2) (sr : Z) :
  (frames_of a <> [] ->
   exists rows extra, per_channel_metrics pyln_Meter a sr = Ok (rows, extra)) /\
  (forall rows extra,
      per_channel_metrics pyln_Meter a sr = Ok (rows, extra) ->
      (forall i,
          In i (silent_channels extra) <->
          (i < shape_C a)%nat /\
          exists pk,
            peak_dbfs (column a i) = Ok pk /\
            (flt (rms_dbfs (column a i)) (-80) = true \/ flt pk (-60) = true)) /\
      StronglySorted lt (silent_channels extra) /\
      NoDup (silent_channels extra)).
Proof.
  split; [apply per_channel_metrics_total |].
  intros rows extra Hres.
  apply per_channel_metrics_silent in Hres as [Hrows ->].
  apply channel_rows_inv in Hrows as Hall.
  split; [| split].
  - intros i. rewrite silent_scan_In. split.
    + intros (k & r & -> & Hk & Hs). simpl.
      assert (Hlen : (k < shape_C a)%nat).
      { rewrite <- (length_seq (shape_C a) 0), (Forall2_length Hall).
        apply nth_error_Some. congruence. }
      split; [assumption |].
      pose proof (nth_error_seq0 _ _ Hlen) as Hc.
      destruct (Forall2_nth_error_left _ _ _ Hall _ _ Hc) as (r' & Hr' & Hp & Hr).
      assert (r' = r) by congruence. subst r'.
      exists (ch_peak_dbfs r). split; [assumption |].
      rewrite <- Hr. unfold is_silent in Hs.
      now apply orb_true_iff in Hs.
    + intros (Hi & pk & Hpk & Hs).
      pose proof (nth_error_seq0 _ _ Hi) as Hc.
      destruct (Forall2_nth_error_left _ _ _ Hall _ _ Hc) as (r & Hr' & Hp & Hr).
      exists i, r. repeat split; auto.
      unfold is_silent. apply orb_true_iff.
      rewrite Hr. rewrite Hpk in Hp. injection Hp as ->. assumption.
  - apply silent_scan_sorted.
  - apply StronglySorted_lt_NoDup, silent_scan_sorted.
Qed.

End ChannelFacts.

Lemma silent_channels_spec_witness :
  exists rows extra,
    per_channel_metrics failing_meter one_dead_channel 48000 = Ok (rows, extra) /\
    (forall i,
        In i (silent_channels extra) <->
        (i < shape_C one_dead_channel)%nat /\
        exists pk,
          peak_dbfs (column one_dead_channel i) = Ok pk /\
          (flt (rms_dbfs (column one_dead_channel i)) (-80) = true \/
           flt pk (-60) = true)) /\
    StronglySorted lt (silent_channels extra) /\
    NoDup (silent_channels extra).
Proof.
  destruct (silent_channels_spec failing_meter one_dead_channel 48000)
    as [Htotal Hspec].
  destruct Htotal as (rows & extra & Hres); [discriminate |].
  exists rows, extra. split; [exact Hres | exact (Hspec rows extra Hres)].
Defined.

(** Scenario of the specification: a stereo buffer whose second channel is
    all zero has the silence flag on channel 1 only. *)
Lemma one_dead_channel_flagged (pyln_Meter : Z -> Meter) :
  exists rows extra,
    per_channel_metrics pyln_Meter one_dead_channel 48000 = Ok (rows, extra) /\
    silent_channels extra = [1%nat].
Proof.
  destruct (per_channel_metrics_total pyln_Meter one_dead_channel 48000)
    as (rows & extra & H); [discriminate |].
  exists rows, extra. split; [exact H |].
  destruct (per_channel_metrics_silent _ _ _ _ _ H) as [Hrows ->].
  apply channel_rows_inv in Hrows.
  change (seq 0 (shape_C one_dead_channel)) with [0%nat; 1%nat] in Hrows.
  inversion Hrows as [| c0 r0 cs0 rs0 [Hp0 Hr0] Hrest]; subst.
  inversion Hrest as [| c1 r1 cs1 rs1 [Hp1 Hr1] Hnil]; subst.
  inversion Hnil; subst.
  change (column one_dead_channel 0) with [0.5; -0.5] in *.
  change (column one_dead_channel 1) with [0; 0] in *.
  assert (Hz : Forall (fun v : R => v = 0) [0; 0]) by repeat constructor.
  rewrite peak_dbfs_zero in Hp1 by (auto; discriminate).
  rewrite rms_dbfs_zero in Hr1 by (auto; discriminate).
  injection Hp1 as Hp1.
  assert (Hm : np_max (map Rabs [0.5; -0.5]) = Some 0.5).
  { simpl. f_equal. reval. }
  rewrite (peak_dbfs_eq _ _ Hm) in Hp0. injection Hp0 as Hp0.
  assert (Hq : sqrt (np_mean (square [0.5; -0.5])) = 0.5).
  { replace (np_mean (square [0.5; -0.5])) with (0.5 * 0.5)
      by (unfold np_mean, np_sum; simpl; lra).
    apply sqrt_square. lra. }
  unfold rms_dbfs in Hr0. rewrite Hq in Hr0.
  assert (Hlevel : -3 <= log10 (0.5 + eps)).
  { replace (-3) with (- INR 3) by (simpl; lra).
    apply log10_ge_neg. unfold eps. simpl. lra. }
  simpl silent_scan. unfold is_silent.
  rewrite Hr0, Hr1, <- Hp0, <- Hp1, floor_dbfs_value. simpl flt.
  assert (E1 : Rltb (20 * log10 (0.5 + eps)) (-80) = false)
    by (apply Rltb_false; lra).
  assert (E2 : Rltb (20 * log10 (0.5 + eps)) (-60) = false)
    by (apply Rltb_false; lra).
  assert (E3 : Rltb (-240) (-80) = true) by (apply Rltb_true; lra).
  rewrite E1, E2, E3. reflexivity.
Qed.

(** ** Sorting and order statistics *)

Lemma insert_perm (x : R) (l : list R) : Permutation (insert x l) (x :: l).
Proof.
  induction l as [| h t IH]; simpl; [reflexivity |].
  destruct (Rle_dec x h); [reflexivity |].
  rewrite IH. apply perm_swap.
Qed.

Lemma sort_perm (l : list R) : Permutation (sort l) l.
Proof.
  induction l as [| h t IH]; simpl; [reflexivity |].
  rewrite insert_perm. now constructor.
Qed.

Lemma length_sort (l : list R) : length (sort l) = length l.
Proof. apply Permutation_length, sort_perm. Qed.

Lemma insert_sorted (x : R) (l : list R) :
  StronglySorted Rle l -> StronglySorted Rle (insert x l).
Proof.
  induction 1 as [| h t Hs IH Hall]; simpl.
  - repeat constructor.
  - destruct (Rle_dec x h) as [Hle | Hgt].
    + constructor; [now constructor |].
      constructor; [assumption |].
      eapply Forall_impl; [| exact Hall]. intros a Ha; simpl in Ha. lra.
    + constructor; [assumption |].
      apply Forall_forall. intros a Ha.
      apply (Permutation_in _ (insert_perm x t)) in Ha.
      rewrite Forall_forall in Hall.
      destruct Ha as [<- | Ha]; [lra | auto].
Qed.

Lemma sort_sorted (l : list R) : StronglySorted Rle (sort l).
Proof.
  induction l as [| h t IH]; simpl; [constructor |].
  now apply insert_sorted.
Qed.

Lemma sort_id (l : list R) : StronglySorted Rle l -> sort l = l.
Proof.
  induction 1 as [| h t Hs IH Hall]; simpl; [reflexivity |].
  rewrite IH. destruct t as [| h' t']; simpl; [reflexivity |].
  apply Forall_inv in Hall.
  destruct (Rle_dec h h'); [reflexivity | contradiction].
Qed.

Lemma sorted_nth_le (s : list R) (i j : nat) (d d' : R) :
  StronglySorted Rle s -> (i <= j)%nat -> (j < length s)%nat ->
  nth i s d <= nth j s d'.
Proof.
  intros Hs. revert i j.
  induction Hs as [| h t Hs IH Hall]; intros i j Hij Hj; simpl in Hj; [lia |].
  destruct i as [| i], j as [| j]; simpl; try lia.
  - lra.
  - rewrite Forall_forall in Hall. apply Hall, nth_In. lia.
  - apply IH; lia.
Qed.

(** A percentile lies between the two order statistics around its
    virtual index. *)
Lemma np_percentile_between (a : list R) (q : nat) :
  let s := sort a in
  let lo := (q * (length a - 1) / 100)%nat in
  (S lo < length a)%nat ->
  nth lo s 0 <= np_percentile a q <= nth (S lo) s 0.
Proof.
  intros s lo Hlo. unfold np_percentile. fold s. fold lo.
  set (g := INR ((q * (length a - 1)) mod 100) / 100).
  assert (Hg : 0 <= g <= 1).
  { unfold g.
    assert (Hm : ((q * (length a - 1)) mod 100 < 100)%nat)
      by (apply Nat.mod_upper_bound; lia).
    apply lt_INR in Hm. pose proof (pos_INR ((q * (length a - 1)) mod 100)).
    assert (E : INR 100 = 100) by (rewrite INR_IZR_INZ; reflexivity).
    rewrite E in Hm. lra. }
  assert (Hlen : (S lo < length s)%nat) by (unfold s; now rewrite length_sort).
  assert (Hle : nth lo s 0 <= nth (S lo) s 0).
  { apply sorted_nth_le; [apply sort_sorted | lia | assumption]. }
  rewrite (nth_indep s (nth lo s 0) 0 Hlen).
  nra.
Qed.

(** ** Means of bounded lists *)

Lemma np_sum_ge (l : list R) (c : R) :
  (forall v, In v l -> c <= v) -> INR (length l) * c <= np_sum l.
Proof.
  induction l as [| h t IH]; intros H.
  - simpl. lra.
  - rewrite np_sum_cons. change (length (h :: t)) with (S (length t)).
    rewrite S_INR.
    assert (c <= h) by (apply H; now left).
    assert (INR (length t) * c <= np_sum t) by (apply IH; intros; apply H; now right).
    lra.
Qed.

Lemma np_sum_le (l : list R) (c : R) :
  (forall v, In v l -> v <= c) -> np_sum l <= INR (length l) * c.
Proof.
  induction l as [| h t IH]; intros H.
  - simpl. lra.
  - rewrite np_sum_cons. change (length (h :: t)) with (S (length t)).
    rewrite S_INR.
    assert (h <= c) by (apply H; now left).
    assert (np_sum t <= INR (length t) * c) by (apply IH; intros; apply H; now right).
    lra.
Qed.

Lemma np_mean_ge (l : list R) (c : R) :
  (0 < length l)%nat -> (forall v, In v l -> c <= v) -> c <= np_mean l.
Proof.
  intros Hlen H. unfold np_mean.
  apply (lt_INR 0) in Hlen. simpl in Hlen.
  apply (Rmult_le_reg_r (INR (length l))); [assumption |].
  unfold Rdiv. rewrite Rmult_assoc, Rinv_l by lra.
  pose proof (np_sum_ge l c H). lra.
Qed.

Lemma np_mean_le (l : list R) (c : R) :
  (0 < length l)%nat -> (forall v, In v l -> v <= c) -> np_mean l <= c.
Proof.
  intros Hlen H. unfold np_mean.
  apply (lt_INR 0) in Hlen. simpl in Hlen.
  apply (Rmult_le_reg_r (INR (length l))); [assumption |].
  unfold Rdiv. rewrite Rmult_assoc, Rinv_l by lra.
  pose proof (np_sum_le l c H). lra.
Qed.

(** ** SNR: the time-domain percentile method *)

Lemma p20_le_p80 (frames : list R) :
  (10 <= length frames)%nat ->
  np_percentile frames 20 <= np_percentile frames 80.
Proof.
  intros Hn. set (n := length frames) in *.
  pose proof (Nat.div_mod_eq (20 * (n - 1)) 100) as E20.
  pose proof (Nat.div_mod_eq (80 * (n - 1)) 100) as E80.
  pose proof (Nat.mod_upper_bound (20 * (n - 1)) 100) as M20.
  pose proof (Nat.mod_upper_bound (80 * (n - 1)) 100) as M80.
  destruct (np_percentile_between frames 20) as [_ H20]; [fold n; lia |].
  destruct (np_percentile_between frames 80) as [H80 _]; [fold n; lia |].
  fold n in H20, H80.
  eapply Rle_trans; [exact H20 |]. eapply Rle_trans; [| exact H80].
  apply sorted_nth_le; [apply sort_sorted | lia |].
  rewrite length_sort. fold n. lia.
Qed.

Lemma active_frames_pos (y : list R) (sr : Z) (e : R) :
  In e (active_frames y sr) -> 0 < e.
Proof.
  unfold active_frames. intros H.
  apply filter_In in H as [_ H]. now apply Rltb_true.
Qed.

Lemma low_frames_spec (frames : list R) (e : R) :
  In e (low_frames frames) <-> In e frames /\ e <= np_percentile frames 20.
Proof. unfold low_frames. rewrite filter_In, Rleb_true. tauto. Qed.

Lemma high_frames_spec (frames : list R) (e : R) :
  In e (high_frames frames) <-> In e frames /\ np_percentile frames 80 <= e.
Proof. unfold high_frames. rewrite filter_In, Rleb_true. tauto. Qed.

(** the decision of lines 47 and 55, as a proposition *)
Lemma snr_percentile_Some (frames : list R) (v : R) :
  snr_percentile frames = Some v <->
  (10 <= length frames)%nat /\
  6 <= dyn_db frames /\
  (5 <= length (low_frames frames))%nat /\
  (5 <= length (high_frames frames))%nat /\
  v = 10 * log10 ((np_mean (high_frames frames) + eps)
                  / (np_mean (low_frames frames) + eps)).
Proof.
  unfold snr_percentile. cbv zeta.
  set (b := (Rleb 6 (dyn_db frames) && (5 <=? length (low_frames frames))%nat
             && (5 <=? length (high_frames frames))%nat)%bool).
  assert (Hb : b = true <->
               6 <= dyn_db frames /\
               (5 <= length (low_frames frames))%nat /\
               (5 <= length (high_frames frames))%nat).
  { unfold b. rewrite !andb_true_iff, Rleb_true, !Nat.leb_le. tauto. }
  destruct (10 <=? length frames)%nat eqn:E10;
    [apply Nat.leb_le in E10 | apply Nat.leb_gt in E10].
  - destruct b.
    + split.
      * intros [= <-]. split; [assumption |].
        destruct Hb as [Hb _]. specialize (Hb eq_refl). tauto.
      * intros (_ & _ & _ & _ & ->). reflexivity.
    + split; [discriminate |].
      intros (_ & H1 & H2 & H3 & _).
      destruct Hb as [_ Hb]. discriminate Hb. tauto.
  - split; [discriminate |]. intros (H & _). lia.
Qed.

Lemma snr_percentile_None (frames : list R) :
  snr_percentile frames = None <->
  ~ ((10 <= length frames)%nat /\
     6 <= dyn_db frames /\
     (5 <= length (low_frames frames))%nat /\
     (5 <= length (high_frames frames))%nat).
Proof.
  destruct (snr_percentile frames) as [v |] eqn:E.
  - apply snr_percentile_Some in E. split; [discriminate |]. tauto.
  - split; [| reflexivity]. intros _ H.
    assert (snr_percentile frames =
            Some (10 * log10 ((np_mean (high_frames frames) + eps)
                              / (np_mean (low_frames frames) + eps)))).
    { apply snr_percentile_Some. tauto. }
    congruence.
Qed.

(** The percentile estimate is the logarithm of a ratio that is at least 1. *)
Lemma snr_percentile_nonneg (frames : list R) (v : R) :
  (forall e, In e frames -> 0 < e) ->
  snr_percentile frames = Some v -> 0 <= v.
Proof.
  intros Hpos H.
  apply snr_percentile_Some in H as (Hn & _ & Hl & Hh & ->).
  pose proof (p20_le_p80 frames Hn) as Hp.
  assert (Hhigh : np_percentile frames 80 <= np_mean (high_frames frames)).
  { apply np_mean_ge; [lia |]. intros e He. now apply high_frames_spec in He. }
  assert (Hlow : np_mean (low_frames frames) <= np_percentile frames 20).
  { apply np_mean_le; [lia |]. intros e He. now apply low_frames_spec in He. }
  assert (Hlow0 : 0 <= np_mean (low_frames frames)).
  { apply np_mean_ge; [lia |]. intros e He.
    apply low_frames_spec in He as [He _]. left. now apply Hpos. }
  pose proof eps_pos as He.
  assert (1 <= (np_mean (high_frames frames) + eps)
               / (np_mean (low_frames frames) + eps)).
  { apply (Rmult_le_reg_r (np_mean (low_frames frames) + eps)); [lra |].
    unfold Rdiv. rewrite Rmult_assoc, Rinv_l by lra. lra. }
  pose proof (log10_nonneg _ H). lra.
Qed.

Lemma snr_db_percentile_value (y : list R) (sr : Z) (v : R) :
  (half_second sr <= Z.of_nat (length y))%Z ->
  snr_percentile (active_frames y sr) = Some v ->
  snr_db y sr = Ok (Some v).
Proof.
  intros Hlen H. unfold snr_db.
  assert (E : (Z.of_nat (length y) <? half_second sr)%Z = false)
    by (apply Z.ltb_ge; lia).
  now rewrite E, H.
Qed.

(** *** Two-level buffers, evaluated *)

Ltac list_eq := repeat (f_equal; try lra).

Lemma frame_energies_two_level (a b : R) :
  frame_energies (two_level a b) 1 = two_level (a * a) (b * b).
Proof.
  unfold frame_energies, two_level.
  cbn -[INR Rmult Rplus Rdiv].
  unfold np_mean, np_sum. cbn. list_eq.
Qed.

Lemma active_frames_two_level (a b : R) :
  0 < a -> 0 < b ->
  active_frames (two_level a b) 20 = two_level (a * a) (b * b).
Proof.
  intros Ha Hb. unfold active_frames.
  change (frame_size 20) with 1%nat.
  rewrite frame_energies_two_level.
  assert (Ea : Rltb 0 (a * a) = true) by (apply Rltb_true; nra).
  assert (Eb : Rltb 0 (b * b) = true) by (apply Rltb_true; nra).
  unfold two_level. simpl. now rewrite Ea, Eb.
Qed.

Lemma np_percentile_sorted (a : list R) (q : nat) :
  StronglySorted Rle a ->
  np_percentile a q =
    nth (q * (length a - 1) / 100) a 0
    + IZR (Z.of_nat ((q * (length a - 1)) mod 100)) / 100
      * (nth (S (q * (length a - 1) / 100)) a (nth (q * (length a - 1) / 100) a 0)
         - nth (q * (length a - 1) / 100) a 0).
Proof.
  intros Hs. unfold np_percentile. rewrite (sort_id a Hs).
  now rewrite INR_IZR_INZ.
Qed.

Section TwoLevelFrames.

Variables lo hi : R.
Hypothesis lo_lt_hi : lo < hi.

Lemma two_level_sorted : StronglySorted Rle (two_level lo hi).
Proof.
  unfold two_level.
  repeat (constructor; [| repeat (constructor; try lra)]). constructor.
Qed.

Lemma two_level_percentiles :
  np_percentile (two_level lo hi) 10 = lo /\
  np_percentile (two_level lo hi) 20 = lo /\
  np_percentile (two_level lo hi) 80 = hi /\
  np_percentile (two_level lo hi) 90 = hi.
Proof.
  rewrite !(np_percentile_sorted _ _ two_level_sorted).
  unfold two_level. cbn -[Rmult Rplus Rdiv Rminus IZR].
  repeat split; lra.
Qed.

Lemma two_level_low : low_frames (two_level lo hi) = [lo; lo; lo; lo; lo].
Proof.
  unfold low_frames.
  destruct two_level_percentiles as (_ & -> & _).
  unfold two_level. simpl. reval. reflexivity.
Qed.

Lemma two_level_high : high_frames (two_level lo hi) = [hi; hi; hi; hi; hi].
Proof.
  unfold high_frames.
  destruct two_level_percentiles as (_ & _ & -> & _).
  unfold two_level. simpl. reval. reflexivity.
Qed.

Lemma two_level_means :
  np_mean (low_frames (two_level lo hi)) = lo /\
  np_mean (high_frames (two_level lo hi)) = hi.
Proof.
  rewrite two_level_low, two_level_high.
  unfold np_mean, np_sum. cbn. split; lra.
Qed.

Lemma two_level_dyn_db :
  dyn_db (two_level lo hi) = 10 * log10 ((hi + eps) / (lo + eps)).
Proof.
  unfold dyn_db. now destruct two_level_percentiles as (-> & _ & _ & ->).
Qed.

Lemma snr_percentile_two_level_accepted :
  6 <= 10 * log10 ((hi + eps) / (lo + eps)) ->
  snr_percentile (two_level lo hi) =
    Some (10 * log10 ((hi + eps) / (lo + eps))).
Proof.
  intros Hd. apply snr_percentile_Some.
  destruct two_level_means as [-> ->].
  rewrite two_level_dyn_db, two_level_low, two_level_high.
  repeat split; simpl; try lia; assumption.
Qed.

Lemma snr_percentile_two_level_rejected :
  10 * log10 ((hi + eps) / (lo + eps)) < 6 ->
  snr_percentile (two_level lo hi) = None.
Proof.
  intros Hd. apply snr_percentile_None.
  rewrite two_level_dyn_db. intros (_ & H & _). lra.
Qed.

End TwoLevelFrames.

Lemma log10_ge_1 (x : R) : 10 <= x -> 1 <= log10 x.
Proof. intros H. rewrite <- log10_10. apply log10_le; lra. Qed.

Lemma log10_lt_half (x : R) : 0 < x -> x * x < 10 -> log10 x < 1 / 2.
Proof.
  intros Hx Hsq.
  assert (H : log10 (x * x) < log10 10) by (apply log10_lt; nra).
  rewrite log10_mult, log10_10 in H by assumption. lra.
Qed.

Lemma ratio_ge (a b c : R) : 0 < b -> c * b <= a -> c <= a / b.
Proof.
  intros Hb H. apply (Rmult_le_reg_r b); [assumption |].
  unfold Rdiv. rewrite Rmult_assoc, Rinv_l by lra. lra.
Qed.

Lemma ratio_lt (a b c : R) : 0 < b -> a < c * b -> a / b < c.
Proof.
  intros Hb H. apply (Rmult_lt_reg_r b); [assumption |].
  unfold Rdiv. rewrite Rmult_assoc, Rinv_l by lra. lra.
Qed.

Lemma snr_percentile_two_level_buffer :
  snr_percentile (active_frames two_level_buffer 20) =
    Some (10 * log10 ((1 * 1 + eps) / (0.1 * 0.1 + eps))).
Proof.
  unfold two_level_buffer. rewrite active_frames_two_level by lra.
  apply snr_percentile_two_level_accepted; [lra |].
  assert (1 <= log10 ((1 * 1 + eps) / (0.1 * 0.1 + eps))); [| lra].
  apply log10_ge_1, ratio_ge; unfold eps; lra.
Qed.

Lemma snr_percentile_quiet_buffer :
  snr_percentile (active_frames quiet_buffer 20) = None.
Proof.
  unfold quiet_buffer. rewrite active_frames_two_level by lra.
  apply snr_percentile_two_level_rejected; [lra |].
  assert (log10 ((1e-6 * 1e-6 + eps) / (1e-7 * 1e-7 + eps)) < 1 / 2); [| lra].
  assert (Hr : 0 < (1e-6 * 1e-6 + eps) / (1e-7 * 1e-7 + eps) < 2).
  { unfold eps. split; [apply Rdiv_lt_0_compat; lra | apply ratio_lt; lra]. }
  apply log10_lt_half; nra.
Qed.

(** C10: when [snr_db] answers through the time-domain percentile method,
    the value it returns is non-negative. *)
Theorem snr_db_percentile_nonneg (y : list R) (sr : Z) (v : R) :
  (half_second sr <= Z.of_nat (length y))%Z ->
  snr_percentile (active_frames y sr) = Some v ->
  snr_db y sr = Ok (Some v) /\ 0 <= v.
Proof.
  intros Hlen H. split.
  - now apply snr_db_percentile_value.
  - eapply snr_percentile_nonneg; [| exact H].
    intros e. apply active_frames_pos.
Qed.

Lemma snr_db_percentile_nonneg_witness :
  snr_db two_level_buffer 20 =
    Ok (Some (10 * log10 ((1 * 1 + eps) / (0.1 * 0.1 + eps))))
  /\ 0 <= 10 * log10 ((1 * 1 + eps) / (0.1 * 0.1 + eps)).
Proof.
  apply (snr_db_percentile_nonneg two_level_buffer 20).
  - vm_compute. discriminate.
  - apply snr_percentile_two_level_buffer.
Defined.

(** C1, as amended: on a buffer of at least [int(0.5*sr)] samples with at
    least 10 frames of non-zero energy, if the guarded dynamic range
    [10*log10((p90 + eps)/(p10 + eps))] is at least 6 dB and at least 5
    frames lie at or below p20 and at least 5 at or above p80, [snr_db]
    returns [10*log10((mean(frames >= p80) + eps)/(mean(frames <= p20) + eps))];
    otherwise its result is that of the spectral method. *)
Theorem snr_db_percentile_method (y : list R) (sr : Z) :
  let frames := active_frames y sr in
  let p10 := np_percentile frames 10 in
  let p20 := np_percentile frames 20 in
  let p80 := np_percentile frames 80 in
  let p90 := np_percentile frames 90 in
  let low := filter (fun e => Rleb e p20) frames in
  let high := filter (fun e => Rleb p80 e) frames in
  let accepted :=
    6 <= 10 * log10 ((p90 + eps) / (p10 + eps)) /\
    (5 <= length low)%nat /\ (5 <= length high)%nat in
  (half_second sr <= Z.of_nat (length y))%Z ->
  (10 <= length frames)%nat ->
  (accepted ->
   snr_db y sr = Ok (Some (10 * log10 ((np_mean high + eps) / (np_mean low + eps)))))
  /\ (~ accepted -> snr_db y sr = snr_spectral y).
Proof.
  intros frames p10 p20 p80 p90 low high accepted Hlen Hn.
  assert (E : (Z.of_nat (length y) <? half_second sr)%Z = false)
    by (apply Z.ltb_ge; lia).
  unfold snr_db. rewrite E. fold frames. split.
  - intros (Hd & Hl & Hh).
    assert (H : snr_percentile frames =
                Some (10 * log10 ((np_mean high + eps) / (np_mean low + eps)))).
    { apply snr_percentile_Some. repeat split; auto. }
    now rewrite H.
  - intros Hno.
    assert (H : snr_percentile frames = None).
    { apply snr_percentile_None. intros (_ & Hd & Hl & Hh). apply Hno.
      repeat split; auto. }
    now rewrite H.
Qed.

Lemma snr_db_percentile_method_witness :
  let frames := active_frames two_level_buffer 20 in
  let p10 := np_percentile frames 10 in
  let p20 := np_percentile frames 20 in
  let p80 := np_percentile frames 80 in
  let p90 := np_percentile frames 90 in
  let low := filter (fun e => Rleb e p20) frames in
  let high := filter (fun e => Rleb p80 e) frames in
  let accepted :=
    6 <= 10 * log10 ((p90 + eps) / (p10 + eps)) /\
    (5 <= length low)%nat /\ (5 <= length high)%nat in
  (accepted ->
   snr_db two_level_buffer 20 =
     Ok (Some (10 * log10 ((np_mean high + eps) / (np_mean low + eps)))))
  /\ (~ accepted -> snr_db two_level_buffer 20 = snr_spectral two_level_buffer).
Proof.
  apply (snr_db_percentile_method two_level_buffer 20).
  - vm_compute. discriminate.
  - unfold two_level_buffer. rewrite active_frames_two_level by lra.
    simpl. lia.
Defined.

Lemma spec_conditions_two_level (a b : R) :
  0 < a -> 10 * a <= b ->
  spec_percentile_conditions (two_level a b) 20 /\
  spec_percentile_value (two_level a b) 20 = 10 * log10 (b * b / (a * a)).
Proof.
  intros Ha Hb.
  assert (Hlt : a * a < b * b) by nra.
  unfold spec_percentile_conditions, spec_percentile_value. cbv zeta.
  rewrite active_frames_two_level by lra.
  destruct (two_level_means _ _ Hlt) as [-> ->].
  destruct (two_level_percentiles _ _ Hlt) as (-> & _ & _ & ->).
  rewrite two_level_low, two_level_high by assumption.
  split; [| reflexivity].
  split; [vm_compute; discriminate |].
  split; [simpl; lia |].
  split; [| simpl; lia].
  assert (1 <= log10 (b * b / (a * a))); [| lra].
  apply log10_ge_1, ratio_ge; nra.
Qed.

(** C1, counterexample.  Both buffers meet every condition of the claim
    (their dynamic range is 20 dB, five frames lie at or below p20 and five
    at or above p80).  On the quiet one the guard [eps] brings the dynamic
    range the code computes below 6 dB, and the result is NA instead of
    20 dB; on the other the value returned is not
    [10*log10(mean(frames >= p80)/mean(frames <= p20))], because [eps] is
    added to both means. *)
Lemma snr_db_percentile_path_unguarded :
  (spec_percentile_conditions quiet_buffer 20 /\
   snr_db quiet_buffer 20 = Ok None) /\
  (spec_percentile_conditions two_level_buffer 20 /\
   exists v, snr_db two_level_buffer 20 = Ok (Some v) /\
             v <> spec_percentile_value two_level_buffer 20).
Proof.
  split.
  - split.
    + apply spec_conditions_two_level; lra.
    + unfold snr_db.
      change (Z.of_nat (length quiet_buffer) <? half_second 20)%Z with false.
      rewrite snr_percentile_quiet_buffer. reflexivity.
  - split.
    + apply spec_conditions_two_level; lra.
    + eexists. split.
      * apply snr_db_percentile_value; [vm_compute; discriminate |].
        apply snr_percentile_two_level_buffer.
      * destruct (spec_conditions_two_level 0.1 1) as [_ Hv]; [lra | lra |].
        unfold two_level_buffer. rewrite Hv. intros H.
        pose proof eps_pos as He. unfold eps in *.
        assert (E : (1 * 1 + 1e-12) / (0.1 * 0.1 + 1e-12) = 1 * 1 / (0.1 * 0.1)).
        { apply log10_inj; [apply Rdiv_lt_0_compat; lra | lra | lra]. }
        apply (f_equal (fun t => t * (0.1 * 0.1 + 1e-12))) in E.
        unfold Rdiv in E. rewrite Rmult_assoc, Rinv_l in E by lra. lra.
Qed.

(** ** SNR: the spectral method *)

(** The analysis length is the largest power of two that does not exceed
    [min(n, 262144)]. *)
Lemma nfft_of_spec (n : nat) :
  n <> 0%nat ->
  let k := Z.log2 (Z.min (Z.of_nat n) 262144) in
  nfft_of n = Ok (Z.to_nat (2 ^ k)) /\
  (0 <= k)%Z /\
  (2 ^ k <= Z.min (Z.of_nat n) 262144 < 2 ^ (k + 1))%Z.
Proof.
  intros Hn k. unfold nfft_of.
  destruct (n =? 0)%nat eqn:E; [apply Nat.eqb_eq in E; contradiction |].
  rewrite Z.shiftl_1_l. fold k. split; [reflexivity |].
  split; [apply Z.log2_nonneg |].
  apply Z.log2_spec. lia.
Qed.

Lemma rfft_cons (x : list R) :
  rfft x = dft_bin x 0 :: map (dft_bin x) (seq 1 (length x / 2)).
Proof. unfold rfft. now rewrite Nat.add_1_r. Qed.

Lemma power_spectrum_eq (y : list R) (nfft : nat) :
  let xw := map (fun p => fst p * snd p) (combine (firstn nfft y) (hanning nfft)) in
  power_spectrum y nfft =
    0 :: map (fun k => bin_power (np_sum (square (hanning nfft)) + eps)
                                 (dft_bin xw k))
             (seq 1 (length xw / 2)).
Proof.
  intros xw. unfold power_spectrum. fold xw.
  rewrite rfft_cons, map_cons, map_map. reflexivity.
Qed.

(** The DC bin of the power spectrum is cleared. *)
Lemma power_spectrum_dc (y : list R) (nfft : nat) :
  power_spectrum y nfft = 0 :: tl (power_spectrum y nfft).
Proof. now rewrite power_spectrum_eq. Qed.

Lemma argmax_from_spec (t full : list R) (i best : nat) (bv : R) :
  nth best full 0 = bv ->
  (forall k, nth (i + k) full 0 = nth k t 0) ->
  length full = (i + length t)%nat ->
  (best < i)%nat ->
  let r := argmax_from t i best bv in
  (r < length full)%nat /\
  bv <= nth r full 0 /\
  forall k, (k < length t)%nat -> nth k t 0 <= nth r full 0.
Proof.
  revert i best bv.
  induction t as [| x t IH]; intros i best bv Hb Hsuf Hlen Hlt; simpl.
  - simpl in Hlen. split; [lia |]. split; [lra |]. intros k Hk; lia.
  - assert (Hx : nth i full 0 = x).
    { specialize (Hsuf 0%nat). now rewrite Nat.add_0_r in Hsuf. }
    assert (Hsuf' : forall k, nth (S i + k) full 0 = nth k t 0).
    { intros k. specialize (Hsuf (S k)).
      now replace (i + S k)%nat with (S i + k)%nat in Hsuf by lia. }
    simpl in Hlen.
    destruct (Rlt_dec bv x) as [Hlt' | Hge].
    + destruct (IH (S i) i x Hx Hsuf') as (H1 & H2 & H3); [lia | lia |].
      repeat split; auto; [lra |].
      intros [| k] Hk; simpl; [assumption | apply H3; lia].
    + destruct (IH (S i) best bv Hb Hsuf') as (H1 & H2 & H3); [lia | lia |].
      repeat split; auto.
      intros [| k] Hk; simpl; [lra | apply H3; lia].
Qed.

(** [np_argmax] points at a largest element. *)
Lemma np_argmax_spec (l : list R) :
  l <> [] ->
  (np_argmax l < length l)%nat /\
  forall j, (j < length l)%nat -> nth j l 0 <= nth (np_argmax l) l 0.
Proof.
  destruct l as [| x t]; [congruence | intros _].
  unfold np_argmax.
  destruct (argmax_from_spec t (x :: t) 1 0 x) as (H1 & H2 & H3);
    auto; try (simpl; lia).
  split; [assumption |].
  intros [| j] Hj; simpl in *; [assumption | apply H3; lia].
Qed.

Lemma skipn_cons_nth (l : list R) (i : nat) (a : R) (rest : list R) :
  skipn i l = a :: rest -> nth i l 0 = a /\ skipn (S i) l = rest.
Proof.
  revert l. induction i as [| i IH]; intros l H.
  - simpl in H. subst l. auto.
  - destruct l as [| h t]; [discriminate |]. simpl in H.
    destruct (IH t H) as [H1 H2]. auto.
Qed.

Lemma np_sum_firstn_skipn (l : list R) (i m : nat) :
  np_sum (firstn (S m) (skipn i l)) =
  nth i l 0 + np_sum (firstn m (skipn (S i) l)).
Proof.
  destruct (skipn i l) as [| a rest] eqn:E.
  - apply skipn_all_iff in E.
    rewrite nth_overflow by assumption.
    rewrite (skipn_all2 l) by lia.
    rewrite !firstn_nil. simpl. lra.
  - apply skipn_cons_nth in E as [-> ->]. reflexivity.
Qed.

(** The slice of line 76 holds the peak bin and its two neighbours; the
    cleared DC bin adds nothing when it is one of them. *)
Lemma signal_slice_sum (psd : list R) (pk : nat) :
  nth 0 psd 0 = 0 ->
  np_sum (slice psd (Nat.max 1 (pk - 1)) (pk + 2)) =
  nth (pk - 1) psd 0 + nth pk psd 0 + nth (pk + 1) psd 0.
Proof.
  intros H0. unfold slice.
  destruct pk as [| [| pk]].
  - simpl Nat.max. simpl Nat.sub. simpl Nat.add.
    rewrite np_sum_firstn_skipn. simpl firstn. rewrite H0. simpl. lra.
  - simpl Nat.max. simpl Nat.sub. simpl Nat.add.
    rewrite !np_sum_firstn_skipn. simpl firstn. rewrite H0. simpl. lra.
  - replace (Nat.max 1 (S (S pk) - 1)) with (S pk) by lia.
    replace (S (S pk) + 2 - S pk)%nat with 3%nat by lia.
    rewrite !np_sum_firstn_skipn. simpl firstn.
    replace (S (S pk) - 1)%nat with (S pk) by lia.
    replace (S (S pk) + 1)%nat with (S (S (S pk))) by lia.
    simpl. lra.
Qed.

Lemma snr_tone_None (psd : list R) :
  np_median (tl psd) <= 0 \/
  nth (np_argmax psd) psd 0 < 20 * np_median (tl psd) ->
  snr_tone psd = None.
Proof.
  intros H. unfold snr_tone.
  assert (E : (Rleb (np_median (tl psd)) 0
               || Rltb (nth (np_argmax psd) psd 0) (20 * np_median (tl psd)))%bool
              = true).
  { apply orb_true_iff. rewrite Rleb_true, Rltb_true. exact H. }
  now rewrite E.
Qed.

Lemma snr_tone_Some (psd : list R) :
  0 < np_median (tl psd) ->
  20 * np_median (tl psd) <= nth (np_argmax psd) psd 0 ->
  snr_tone psd =
    Some (10 * log10
            (np_sum (slice psd (Nat.max 1 (np_argmax psd - 1)) (np_argmax psd + 2))
             / (np_sum psd
                - np_sum (slice psd (Nat.max 1 (np_argmax psd - 1))
                                (np_argmax psd + 2))
                + eps))).
Proof.
  intros Hm Hp. unfold snr_tone.
  assert (E : (Rleb (np_median (tl psd)) 0
               || Rltb (nth (np_argmax psd) psd 0) (20 * np_median (tl psd)))%bool
              = false).
  { apply orb_false_iff. rewrite Rleb_false, Rltb_false. split; lra. }
  now rewrite E.
Qed.

Lemma snr_spectral_eq (y : list R) (nfft : nat) :
  nfft_of (length y) = Ok nfft ->
  snr_spectral y =
    if (nfft <? 4096)%nat then Ok None
    else Ok (snr_tone (power_spectrum y nfft)).
Proof. intros H. unfold snr_spectral. now rewrite H. Qed.

(** C3, as amended: in the spectral method the analysis length is the
    largest power of two not above [min(n, 262144)]; below 4096 the result
    is NA; otherwise, on the Hann-windowed power spectrum with its DC bin
    cleared, the result is NA when the median of the non-DC bins is not
    positive or the peak bin is below 20 times that median, and else is
    [10*log10(signal/noise)], signal being the power of the peak bin and
    its two neighbours and noise the remaining power plus [eps]. *)
Theorem snr_spectral_method (y : list R) :
  y <> [] ->
  exists (k : Z) (nfft : nat),
    (0 <= k)%Z /\ Z.of_nat nfft = (2 ^ k)%Z /\
    (2 ^ k <= Z.min (Z.of_nat (length y)) 262144 < 2 ^ (k + 1))%Z /\
    ((nfft < 4096)%nat -> snr_spectral y = Ok None) /\
    ((4096 <= nfft)%nat ->
     let psd := power_spectrum y nfft in
     let pk := np_argmax psd in
     let med := np_median (tl psd) in
     let signal := nth (pk - 1) psd 0 + nth pk psd 0 + nth (pk + 1) psd 0 in
     let noise := np_sum psd - signal + eps in
     nth 0 psd 0 = 0 /\
     (forall j, nth j psd 0 <= nth pk psd 0) /\
     (med <= 0 \/ nth pk psd 0 < 20 * med -> snr_spectral y = Ok None) /\
     (0 < med /\ 20 * med <= nth pk psd 0 ->
      snr_spectral y = Ok (Some (10 * log10 (signal / noise))))).
Proof.
  intros Hne.
  assert (Hn : length y <> 0%nat) by (destruct y; [congruence | discriminate]).
  destruct (nfft_of_spec (length y) Hn) as (Hnfft & Hk & Hb).
  set (k := Z.log2 (Z.min (Z.of_nat (length y)) 262144)) in *.
  exists k, (Z.to_nat (2 ^ k)).
  pose proof (snr_spectral_eq y _ Hnfft) as Hs.
  split; [assumption |]. split; [rewrite Z2Nat.id; lia |].
  split; [assumption |]. split.
  - intros Hlt. apply Nat.ltb_lt in Hlt. now rewrite Hlt in Hs.
  - intros Hge. apply Nat.ltb_ge in Hge. rewrite Hge in Hs.
    intros psd pk med signal noise.
    pose proof (power_spectrum_dc y (Z.to_nat (2 ^ k))) as Hdc. fold psd in Hdc.
    assert (H0 : nth 0 psd 0 = 0) by now rewrite Hdc.
    assert (Hpsd : psd <> []) by (rewrite Hdc; discriminate).
    destruct (np_argmax_spec psd Hpsd) as [Hpk Hmax]. fold pk in Hpk, Hmax.
    split; [assumption |]. split; [| split].
    + intros j. destruct (Nat.lt_ge_cases j (length psd)) as [Hj | Hj].
      * now apply Hmax.
      * rewrite (nth_overflow psd 0 Hj).
        assert (H00 : nth 0 psd 0 <= nth pk psd 0).
        { apply Hmax. destruct psd; [congruence | simpl; lia]. }
        lra.
    + intros H. rewrite Hs. f_equal. now apply snr_tone_None.
    + intros [H1 H2]. rewrite Hs. f_equal.
      fold psd. rewrite (snr_tone_Some psd H1 H2). fold pk.
      unfold noise, signal. now rewrite (signal_slice_sum psd pk H0).
Qed.

Lemma snr_spectral_method_witness :
  exists (k : Z) (nfft : nat),
    (0 <= k)%Z /\ Z.of_nat nfft = (2 ^ k)%Z /\
    (2 ^ k <= Z.min (Z.of_nat (length two_level_buffer)) 262144 < 2 ^ (k + 1))%Z /\
    ((nfft < 4096)%nat -> snr_spectral two_level_buffer = Ok None) /\
    ((4096 <= nfft)%nat ->
     let psd := power_spectrum two_level_buffer nfft in
     let pk := np_argmax psd in
     let med := np_median (tl psd) in
     let signal := nth (pk - 1) psd 0 + nth pk psd 0 + nth (pk + 1) psd 0 in
     let noise := np_sum psd - signal + eps in
     nth 0 psd 0 = 0 /\
     (forall j, nth j psd 0 <= nth pk psd 0) /\
     (med <= 0 \/ nth pk psd 0 < 20 * med ->
      snr_spectral two_level_buffer = Ok None) /\
     (0 < med /\ 20 * med <= nth pk psd 0 ->
      snr_spectral two_level_buffer = Ok (Some (10 * log10 (signal / noise))))).
Proof.
  apply (snr_spectral_method two_level_buffer).
  discriminate.
Defined.

(** ** A tone through the spectral method *)

(** *** Alternating geometric sums *)

Lemma np_sum_app (a b : list R) : np_sum (a ++ b) = np_sum a + np_sum b.
Proof.
  induction a as [| h t IH].
  - change (np_sum []) with 0. simpl. lra.
  - change ((h :: t) ++ b) with (h :: (t ++ b)).
    rewrite !np_sum_cons, IH. lra.
Qed.

Lemma np_sum_map_seq_S (h : nat -> R) (s len : nat) :
  np_sum (map h (seq s (S len))) = np_sum (map h (seq s len)) + h (s + len)%nat.
Proof.
  rewrite seq_S, map_app, np_sum_app.
  change (map h [(s + len)%nat]) with [h (s + len)%nat].
  rewrite np_sum_cons. change (np_sum []) with 0. lra.
Qed.

Lemma alternating_S (n : nat) : alternating (S n) = - alternating n.
Proof.
  unfold alternating. rewrite Nat.even_succ. unfold Nat.odd.
  destruct (Nat.even n); simpl; lra.
Qed.

Lemma alternating_sq (n : nat) : alternating n * alternating n = 1.
Proof. unfold alternating. destruct (Nat.even n); lra. Qed.

Lemma alternating_sums (theta : R) (M : nat) :
  let A := np_sum (map (fun n => alternating n * cos (INR n * theta)) (seq 0 M)) in
  let B := np_sum (map (fun n => alternating n * sin (INR n * theta)) (seq 0 M)) in
  (1 + cos theta) * A - sin theta * B = 1 - alternating M * cos (INR M * theta) /\
  sin theta * A + (1 + cos theta) * B = - alternating M * sin (INR M * theta).
Proof.
  induction M as [| M IH]; cbv zeta in *.
  - change (np_sum (map _ (seq 0 0))) with 0.
    change (INR 0) with 0. rewrite Rmult_0_l, cos_0, sin_0.
    unfold alternating. simpl. split; lra.
  - rewrite !np_sum_map_seq_S. rewrite !Nat.add_0_l.
    destruct IH as [IH1 IH2].
    set (A := np_sum (map (fun n => alternating n * cos (INR n * theta)) (seq 0 M))) in *.
    set (B := np_sum (map (fun n => alternating n * sin (INR n * theta)) (seq 0 M))) in *.
    rewrite alternating_S, S_INR.
    replace ((INR M + 1) * theta) with (INR M * theta + theta) by ring.
    rewrite cos_plus, sin_plus.
    set (a := alternating M) in *.
    set (C := cos (INR M * theta)) in *. set (S_ := sin (INR M * theta)) in *.
    set (c := cos theta) in *. set (s := sin theta) in *.
    split; nra.
Qed.

(** *** Sums over index ranges and the discrete Fourier transform *)

Lemma np_sum_map_ext (f g : nat -> R) (l : list nat) :
  (forall n, In n l -> f n = g n) -> np_sum (map f l) = np_sum (map g l).
Proof. intros H. f_equal. now apply map_ext_in. Qed.

Lemma np_sum_map_scal (c : R) (f : nat -> R) (l : list nat) :
  np_sum (map (fun n => c * f n) l) = c * np_sum (map f l).
Proof.
  induction l as [| h t IH].
  - change (np_sum (map _ [])) with 0. lra.
  - change (map ?g (h :: t)) with (g h :: map g t).
    simpl map. rewrite !np_sum_cons, IH. lra.
Qed.

Lemma np_sum_map_const (c : R) (l : list nat) :
  np_sum (map (fun _ => c) l) = INR (length l) * c.
Proof.
  induction l as [| h t IH].
  - simpl. change (np_sum []) with 0. lra.
  - simpl map. rewrite np_sum_cons, IH.
    change (length (h :: t)) with (S (length t)). rewrite S_INR. lra.
Qed.

Lemma nth_map_seq (h : nat -> R) (N n : nat) :
  (n < N)%nat -> nth n (map h (seq 0 N)) 0 = h n.
Proof.
  intros Hn.
  rewrite (nth_indep _ 0 (h 0%nat)) by now rewrite length_map, length_seq.
  rewrite map_nth, seq_nth by assumption. reflexivity.
Qed.

Lemma dft_bin_map_seq (h : nat -> R) (N k : nat) :
  dft_bin (map h (seq 0 N)) k =
  (np_sum (map (fun n => h n * cos (2 * PI * INR k * INR n / INR N)) (seq 0 N)),
   - np_sum (map (fun n => h n * sin (2 * PI * INR k * INR n / INR N)) (seq 0 N))).
Proof.
  unfold dft_bin. rewrite length_map, length_seq.
  f_equal; [| f_equal]; apply np_sum_map_ext; intros n Hn;
    apply in_seq in Hn; rewrite nth_map_seq by lia; reflexivity.
Qed.

Lemma alternating_even (N : nat) : Nat.even N = true -> alternating N = 1.
Proof. unfold alternating. now intros ->. Qed.

Lemma alternating_pred_even (N : nat) :
  (1 <= N)%nat -> Nat.even N = true -> alternating (N - 1) = -1.
Proof.
  intros H1 He. destruct N as [| m]; [lia |].
  replace (S m - 1)%nat with m by lia.
  pose proof (alternating_S m) as E. rewrite (alternating_even _ He) in E. lra.
Qed.

(** the windowed tone has no end points *)
Lemma gated_sum (c : R) (f : nat -> R) (N : nat) :
  (2 <= N)%nat -> Nat.even N = true ->
  np_sum (map (fun n => c * end_gated N n * f n) (seq 0 N)) =
  c * (np_sum (map (fun n => alternating n * f n) (seq 0 N))
       - f 0%nat + f (N - 1)%nat).
Proof.
  intros HN He.
  destruct N as [| [| m]]; try lia.
  assert (Hlast : alternating (S m) = -1).
  { pose proof (alternating_pred_even (S (S m)) ltac:(lia) He) as E.
    now replace (S (S m) - 1)%nat with (S m) in E by lia. }
  replace (S (S m) - 1)%nat with (S m) by lia.
  rewrite !(np_sum_map_seq_S _ 0 (S m)), !Nat.add_0_l.
  rewrite <- !cons_seq. simpl map. rewrite !np_sum_cons.
  rewrite Hlast.
  assert (Hmid : np_sum (map (fun n => c * end_gated (S (S m)) n * f n) (seq 1 m))
                 = c * np_sum (map (fun n => alternating n * f n) (seq 1 m))).
  { rewrite <- np_sum_map_scal. apply np_sum_map_ext.
    intros n Hn. apply in_seq in Hn. unfold end_gated.
    replace (S (S m) - 1)%nat with (S m) by lia.
    destruct (Nat.eqb_spec n 0); [lia |].
    destruct (Nat.eqb_spec n (S m)); [lia |]. simpl. ring. }
  rewrite Hmid.
  assert (E0 : end_gated (S (S m)) 0 = 0) by reflexivity.
  assert (E1 : end_gated (S (S m)) (S m) = 0).
  { unfold end_gated. replace (S (S m) - 1)%nat with (S m) by lia.
    now rewrite Nat.eqb_refl, orb_true_r. }
  assert (Ea : alternating 0 = 1) by reflexivity.
  rewrite E0, E1, Ea. ring.
Qed.

(** *** The bins of the alternating tone *)

Lemma even_double (H : nat) : Nat.even (2 * H) = true.
Proof. rewrite Nat.even_mul. reflexivity. Qed.

Lemma INR_double (H : nat) : INR (2 * H) = 2 * INR H.
Proof. rewrite mult_INR. simpl. lra. Qed.

Lemma INR_double_pred (H : nat) : (1 <= H)%nat -> INR (2 * H - 1) = 2 * INR H - 1.
Proof. intros HH. rewrite minus_INR by lia. rewrite INR_double. simpl. lra. Qed.

Lemma cos_wrap (x : R) (k : nat) : cos (2 * INR k * PI - x) = cos x.
Proof.
  replace (2 * INR k * PI - x) with (- x + 2 * INR k * PI) by ring.
  now rewrite cos_period, cos_neg.
Qed.

Lemma sin_wrap (x : R) (k : nat) : sin (2 * INR k * PI - x) = - sin x.
Proof.
  replace (2 * INR k * PI - x) with (- x + 2 * INR k * PI) by ring.
  now rewrite sin_period, sin_neg.
Qed.

Lemma cos_turns (k : nat) : cos (2 * INR k * PI) = 1.
Proof.
  replace (2 * INR k * PI) with (0 + 2 * INR k * PI) by ring.
  now rewrite cos_period, cos_0.
Qed.

Lemma sin_turns (k : nat) : sin (2 * INR k * PI) = 0.
Proof.
  replace (2 * INR k * PI) with (0 + 2 * INR k * PI) by ring.
  now rewrite sin_period, sin_0.
Qed.

(** real and imaginary part of a bin of the windowed tone, below Nyquist *)
Lemma tone_bin (H k : nat) (c : R) :
  (2 <= H)%nat -> (1 <= k < H)%nat ->
  let theta := PI * INR k / INR H in
  dft_bin (map (fun n => c * end_gated (2 * H) n) (seq 0 (2 * H))) k =
    (c * (cos theta - 1), c * sin theta)
  /\ 0 < sin theta.
Proof.
  intros HH Hk theta.
  assert (HposH : 0 < INR H) by (apply (lt_INR 0); lia).
  assert (Hs : 0 < sin theta).
  { apply sin_gt_0.
    - unfold theta. apply Rdiv_lt_0_compat; [| assumption].
      apply Rmult_lt_0_compat; [apply PI_RGT_0 | apply (lt_INR 0); lia].
    - unfold theta.
      assert (INR k < INR H) by (apply lt_INR; lia).
      pose proof PI_RGT_0.
      apply (Rmult_lt_reg_r (INR H)); [assumption |].
      unfold Rdiv. rewrite Rmult_assoc, Rinv_l by lra. nra. }
  split; [| exact Hs].
  rewrite dft_bin_map_seq.
  assert (Hang : forall n, 2 * PI * INR k * INR n / INR (2 * H) = INR n * theta).
  { intros n. rewrite INR_double. unfold theta. field. lra. }
  rewrite (np_sum_map_ext _ (fun n => c * end_gated (2 * H) n * cos (INR n * theta)))
    by (intros n _; now rewrite Hang).
  rewrite (np_sum_map_ext
             (fun n => c * end_gated (2 * H) n
                       * sin (2 * PI * INR k * INR n / INR (2 * H)))
             (fun n => c * end_gated (2 * H) n * sin (INR n * theta)))
    by (intros n _; now rewrite Hang).
  rewrite !gated_sum by (try lia; apply even_double).
  destruct (alternating_sums theta (2 * H)) as [E1 E2].
  rewrite (alternating_even _ (even_double H)) in E1, E2.
  assert (Hfull : INR (2 * H) * theta = 2 * INR k * PI).
  { rewrite INR_double. unfold theta. field. lra. }
  assert (Hlast : INR (2 * H - 1) * theta = 2 * INR k * PI - theta).
  { rewrite INR_double_pred by lia. rewrite INR_double in Hfull. lra. }
  rewrite Hfull, cos_turns in E1. rewrite Hfull, sin_turns in E2.
  rewrite Hlast, cos_wrap, sin_wrap.
  change (INR 0) with 0. rewrite Rmult_0_l, cos_0, sin_0.
  set (A := np_sum (map (fun n => alternating n * cos (INR n * theta)) (seq 0 (2 * H)))) in *.
  set (B := np_sum (map (fun n => alternating n * sin (INR n * theta)) (seq 0 (2 * H)))) in *.
  set (ct := cos theta) in *. set (st := sin theta) in *.
  clearbody A B ct st.
  assert (Hd : 0 < (1 + ct) * (1 + ct) + st * st).
  { pose proof (Rle_0_sqr (1 + ct)) as Hq. unfold Rsqr in Hq.
    assert (0 < st * st) by (apply Rmult_lt_0_compat; assumption). lra. }
  assert (HA : A * ((1 + ct) * (1 + ct) + st * st) = 0) by nra.
  assert (HB : B * ((1 + ct) * (1 + ct) + st * st) = 0) by nra.
  apply Rmult_integral in HA as [HA | HA]; [| lra].
  apply Rmult_integral in HB as [HB | HB]; [| lra].
  rewrite HA, HB. f_equal; ring.
Qed.

Lemma cos_sin_nPI (n : nat) :
  cos (INR n * PI) = alternating n /\ sin (INR n * PI) = 0.
Proof.
  induction n as [| n [IHc IHs]].
  - change (INR 0) with 0. rewrite Rmult_0_l, cos_0, sin_0. split; reflexivity.
  - rewrite S_INR, alternating_S.
    replace ((INR n + 1) * PI) with (INR n * PI + PI) by ring.
    rewrite neg_cos, neg_sin, IHc, IHs. split; lra.
Qed.

(** the Nyquist bin of the windowed tone *)
Lemma tone_bin_nyquist (H : nat) (c : R) :
  (2 <= H)%nat ->
  dft_bin (map (fun n => c * end_gated (2 * H) n) (seq 0 (2 * H))) H =
    (c * (INR (2 * H) - 2), 0).
Proof.
  intros HH.
  assert (HposH : 0 < INR H) by (apply (lt_INR 0); lia).
  rewrite dft_bin_map_seq.
  assert (Hang : forall n, 2 * PI * INR H * INR n / INR (2 * H) = INR n * PI).
  { intros n. rewrite INR_double. field. lra. }
  rewrite (np_sum_map_ext _ (fun n => c * end_gated (2 * H) n * alternating n))
    by (intros n _; rewrite Hang; now destruct (cos_sin_nPI n) as [-> _]).
  rewrite (np_sum_map_ext
             (fun n => c * end_gated (2 * H) n
                       * sin (2 * PI * INR H * INR n / INR (2 * H)))
             (fun n => c * end_gated (2 * H) n * 0))
    by (intros n _; rewrite Hang; now destruct (cos_sin_nPI n) as [_ ->]).
  rewrite (gated_sum c alternating) by (try lia; apply even_double).
  rewrite (gated_sum c (fun _ => 0)) by (try lia; apply even_double).
  rewrite (np_sum_map_ext (fun n => alternating n * alternating n) (fun _ => 1))
    by (intros n _; apply alternating_sq).
  rewrite (np_sum_map_ext (fun n => alternating n * 0) (fun _ => 0))
    by (intros n _; ring).
  rewrite !np_sum_map_const, length_seq.
  rewrite (alternating_pred_even (2 * H)) by (try lia; apply even_double).
  change (alternating 0) with 1.
  f_equal; ring.
Qed.

(** *** The Hann window on the compensated tone *)

Lemma hanning_eq (M : nat) :
  (2 <= M)%nat -> hanning M = map (hann_weight M) (seq 0 M).
Proof. intros HM. destruct M as [| [| m]]; try lia. reflexivity. Qed.

Lemma combine_map_same {A B C : Type} (f : A -> B) (g : A -> C) (l : list A) :
  combine (map f l) (map g l) = map (fun a => (f a, g a)) l.
Proof. induction l as [| h t IH]; simpl; [reflexivity | now rewrite IH]. Qed.

(** inside the window the Hann weight is positive *)
Lemma hann_weight_pos (M n : nat) :
  (0 < n)%nat -> (n < M - 1)%nat -> 0 < hann_weight M n.
Proof.
  intros Hn HM. unfold hann_weight.
  assert (Hd : 0 < INR (M - 1)) by (apply (lt_INR 0); lia).
  set (x := PI * INR n / INR (M - 1)).
  replace (2 * PI * INR n / INR (M - 1)) with (2 * x) by (unfold x; field; lra).
  rewrite cos_2a_sin.
  assert (Hs : 0 < sin x).
  { apply sin_gt_0.
    - unfold x. apply Rdiv_lt_0_compat; [| assumption].
      apply Rmult_lt_0_compat; [apply PI_RGT_0 | apply (lt_INR 0); lia].
    - unfold x. assert (INR n < INR (M - 1)) by (apply lt_INR; lia).
      pose proof PI_RGT_0.
      apply (Rmult_lt_reg_r (INR (M - 1))); [assumption |].
      unfold Rdiv. rewrite Rmult_assoc, Rinv_l by lra. nra. }
  assert (0 < sin x * sin x) by (apply Rmult_lt_0_compat; assumption).
  lra.
Qed.

(** after the window the compensated tone is the plain alternation *)
Lemma windowed_tone (N : nat) (c : R) :
  (2 <= N)%nat ->
  map (fun p => fst p * snd p) (combine (compensated_tone N c) (hanning N)) =
  map (fun n => c * end_gated N n) (seq 0 N).
Proof.
  intros HN. rewrite hanning_eq by assumption.
  unfold compensated_tone. rewrite combine_map_same, map_map.
  apply map_ext_in. intros n Hn. apply in_seq in Hn. cbn [fst snd].
  unfold compensated_sample, end_gated.
  destruct ((n =? 0) || (n =? N - 1))%nat eqn:E.
  - ring.
  - apply orb_false_iff in E as [E0 E1].
    apply Nat.eqb_neq in E0, E1.
    assert (0 < hann_weight N n) by (apply hann_weight_pos; lia).
    field. lra.
Qed.

Lemma firstn_app_exact {A : Type} (l1 l2 : list A) :
  firstn (length l1) (l1 ++ l2) = l1.
Proof.
  rewrite firstn_app, Nat.sub_diag, firstn_all. simpl. apply app_nil_r.
Qed.

Lemma length_compensated_tone (N : nat) (c : R) :
  length (compensated_tone N c) = N.
Proof. unfold compensated_tone. now rewrite length_map, length_seq. Qed.

(** the power spectrum of the padded tone: a cleared DC bin, then bins
    between 0 and [4 c^2 / norm], then the Nyquist bin *)
Lemma tone_power_spectrum (H pad : nat) (c : R) :
  (3 <= H)%nat -> 0 < c ->
  let norm := np_sum (square (hanning (2 * H))) + eps in
  exists inner z,
    power_spectrum (compensated_tone (2 * H) c ++ repeat 0 pad) (2 * H) =
      0 :: inner ++ [z; c * c * ((INR (2 * H) - 2) * (INR (2 * H) - 2)) / norm] /\
    length inner = (H - 2)%nat /\
    Forall (fun v => 0 < v <= 4 * (c * c) / norm) (inner ++ [z]) /\
    0 < norm.
Proof.
  intros HH Hc norm.
  assert (Hnorm : 0 < norm).
  { unfold norm. pose proof (np_sum_square_nonneg (hanning (2 * H))).
    pose proof eps_pos. lra. }
  set (xw := map (fun n => c * end_gated (2 * H) n) (seq 0 (2 * H))).
  set (P := fun k => bin_power norm (dft_bin xw k)).
  exists (map P (seq 1 (H - 2))), (P (H - 1)%nat).
  split; [| split; [| split]].
  - rewrite power_spectrum_eq. cbv zeta.
    replace (firstn (2 * H) (compensated_tone (2 * H) c ++ repeat 0 pad))
      with (compensated_tone (2 * H) c).
    2:{ rewrite <- (length_compensated_tone (2 * H) c) at 2.
        now rewrite firstn_app_exact. }
    rewrite windowed_tone by lia. fold xw. fold norm. fold P.
    replace (length xw / 2)%nat with H.
    2:{ unfold xw. rewrite length_map, length_seq.
        now rewrite Nat.mul_comm, Nat.div_mul. }
    f_equal.
    replace H with (S (S (H - 2))) at 1 by lia.
    rewrite !seq_S, !map_app, <- app_assoc.
    replace (1 + (H - 2))%nat with (H - 1)%nat by lia.
    replace (1 + S (H - 2))%nat with H by lia.
    f_equal. change (map P [(H - 1)%nat] ++ map P [H]) with [P (H - 1)%nat; P H].
    f_equal. f_equal.
    unfold P, bin_power, xw. rewrite tone_bin_nyquist by lia.
    cbn [fst snd]. unfold Rdiv. ring.
  - now rewrite length_map, length_seq.
  - assert (Hbin : forall k, (1 <= k < H)%nat ->
                             0 < P k <= 4 * (c * c) / norm).
    { intros k Hk. unfold P, bin_power, xw.
      destruct (tone_bin H k c ltac:(lia) Hk) as [-> Hs].
      cbn [fst snd].
      set (theta := PI * INR k / INR H) in *.
      pose proof (sin2_cos2 theta) as Hsc. unfold Rsqr in Hsc.
      pose proof (COS_bound theta) as [Hc1 Hc2].
      assert (Hcc : 0 < c * c) by nra.
      assert (Hnum : c * (cos theta - 1) * (c * (cos theta - 1))
                     + c * sin theta * (c * sin theta)
                     = c * c * (2 - 2 * cos theta)) by nra.
      rewrite Hnum.
      assert (Hlt : cos theta < 1) by nra.
      split.
      - apply Rdiv_lt_0_compat; [nra | assumption].
      - apply (Rmult_le_reg_r norm); [assumption |].
        unfold Rdiv. rewrite !Rmult_assoc, Rinv_l by lra. nra. }
    apply Forall_app. split.
    + apply Forall_forall. intros v Hv.
      apply in_map_iff in Hv as (k & <- & Hk). apply in_seq in Hk.
      apply Hbin. lia.
    + constructor; [apply Hbin; lia | constructor].
  - assumption.
Qed.

(** *** Order statistics with one outlier *)

Lemma insert_app_last (x big : R) (s : list R) :
  x <= big -> insert x (s ++ [big]) = insert x s ++ [big].
Proof.
  intros Hx. induction s as [| h t IH]; simpl.
  - destruct (Rle_dec x big); [reflexivity | contradiction].
  - destruct (Rle_dec x h); [reflexivity |]. now rewrite IH.
Qed.

Lemma sort_app_last (l : list R) (big : R) :
  Forall (fun v => v <= big) l -> sort (l ++ [big]) = sort l ++ [big].
Proof.
  induction 1 as [| h t Hh _ IH]; [reflexivity |].
  change (sort ((h :: t) ++ [big])) with (insert h (sort (t ++ [big]))).
  rewrite IH, insert_app_last by assumption. reflexivity.
Qed.

Lemma sorted_member_bounds (l : list R) (lo hi : R) (i : nat) :
  Forall (fun v => lo < v <= hi) l -> (i < length l)%nat ->
  lo < nth i (sort l) 0 <= hi.
Proof.
  intros Hall Hi. rewrite Forall_forall in Hall. apply Hall.
  apply (Permutation_in _ (sort_perm l)).
  apply nth_In. now rewrite length_sort.
Qed.

(** the median ignores a single large value *)
Lemma median_with_outlier (l : list R) (lo hi big : R) :
  Forall (fun v => lo < v <= hi) l -> hi <= big -> (2 <= length l)%nat ->
  lo < np_median (l ++ [big]) <= hi.
Proof.
  intros Hall Hbig Hlen. unfold np_median.
  rewrite sort_app_last.
  2:{ eapply Forall_impl; [| exact Hall]. intros v Hv; simpl in Hv. lra. }
  rewrite length_app. simpl length.
  set (n := (length l + 1)%nat).
  assert (Hhalf : (n / 2 < length l)%nat).
  { pose proof (Nat.div_mod_eq n 2). pose proof (Nat.mod_upper_bound n 2). lia. }
  assert (H1 : lo < nth (n / 2) (sort l ++ [big]) 0 <= hi).
  { rewrite app_nth1 by (rewrite length_sort; lia).
    now apply sorted_member_bounds. }
  assert (H2 : lo < nth (n / 2 - 1) (sort l ++ [big]) 0 <= hi).
  { rewrite app_nth1 by (rewrite length_sort; lia).
    apply sorted_member_bounds; [assumption | lia]. }
  destruct (Nat.even n); lra.
Qed.

Lemma argmax_from_last (t : list R) (i best : nat) (bv big : R) :
  bv < big -> Forall (fun v => v < big) t ->
  argmax_from (t ++ [big]) i best bv = (i + length t)%nat.
Proof.
  intros Hbv Hall. revert i best bv Hbv.
  induction Hall as [| x t Hx _ IH]; intros i best bv Hbv; simpl.
  - destruct (Rlt_dec bv big); [lia | contradiction].
  - destruct (Rlt_dec bv x); rewrite IH; auto; lia.
Qed.

Lemma np_argmax_last (x : R) (t : list R) (big : R) :
  x < big -> Forall (fun v => v < big) t ->
  np_argmax (x :: t ++ [big]) = S (length t).
Proof. intros Hx Hall. unfold np_argmax. now rewrite argmax_from_last. Qed.

(** *** Frames of a zero-padded buffer *)

Lemma slice_incl (a : list R) (i j : nat) (v : R) :
  In v (slice a i j) -> In v (skipn i a).
Proof.
  unfold slice. intros H.
  rewrite <- (firstn_skipn (j - i) (skipn i a)). apply in_or_app. now left.
Qed.

Lemma skipn_incl (a : list R) (i : nat) (v : R) : In v (skipn i a) -> In v a.
Proof.
  intros H. rewrite <- (firstn_skipn i a). apply in_or_app. now right.
Qed.

Lemma slice_in_padding (A : list R) (pad i j : nat) :
  (length A <= i)%nat ->
  Forall (fun v => v = 0) (slice (A ++ repeat 0 pad) i j).
Proof.
  intros Hi. apply Forall_forall. intros v Hv.
  apply slice_incl in Hv.
  rewrite skipn_app, (skipn_all2 A) in Hv by assumption. simpl in Hv.
  apply skipn_incl in Hv. now apply repeat_spec in Hv.
Qed.

Lemma frame_energy_in_padding (A : list R) (pad i j : nat) :
  (length A <= i)%nat ->
  np_mean (square (slice (A ++ repeat 0 pad) i j)) = 0.
Proof.
  intros Hi. unfold np_mean.
  rewrite np_sum_square_zero by now apply slice_in_padding.
  unfold Rdiv. ring.
Qed.

Lemma filter_length_le {A : Type} (p : A -> bool) (l : list A) :
  (length (filter p l) <= length l)%nat.
Proof.
  induction l as [| h t IH]; simpl; [lia |].
  destruct (p h); simpl; lia.
Qed.

Lemma filter_none {A : Type} (p : A -> bool) (l : list A) :
  Forall (fun a => p a = false) l -> filter p l = [].
Proof.
  induction 1 as [| h t Hh _ IH]; simpl; [reflexivity |].
  now rewrite Hh.
Qed.

(** a zero-padded buffer has active frames only where the signal is *)
Lemma active_frames_padded (A : list R) (pad : nat) (sr : Z) (k : nat) :
  (length A <= k * frame_size sr)%nat ->
  (length (active_frames (A ++ repeat 0%R pad) sr) <= k)%nat.
Proof.
  intros Hk. unfold active_frames, frame_energies, range_step.
  set (y := A ++ repeat 0 pad). set (step := frame_size sr) in *.
  set (m := ((length y + step - 1) / step)%nat).
  set (F := fun i => np_mean (square (slice y i (i + step)))).
  rewrite map_map.
  destruct (Nat.le_gt_cases m k) as [Hm | Hm].
  - eapply Nat.le_trans; [apply filter_length_le |].
    now rewrite length_map, length_seq.
  - replace m with (k + (m - k))%nat by lia.
    rewrite seq_app, map_app, filter_app, length_app.
    rewrite (filter_none _ (map _ (seq (0 + k) (m - k)))).
    + simpl length. rewrite Nat.add_0_r.
      eapply Nat.le_trans; [apply filter_length_le |].
      now rewrite length_map, length_seq.
    + apply Forall_forall. intros e He.
      apply in_map_iff in He as (j & <- & Hj). apply in_seq in Hj.
      unfold F, y. rewrite frame_energy_in_padding by nia.
      apply Rltb_false. lra.
Qed.

Lemma snr_percentile_few (frames : list R) :
  (length frames < 10)%nat -> snr_percentile frames = None.
Proof.
  intros H. unfold snr_percentile.
  apply Nat.leb_gt in H. now rewrite H.
Qed.

(** *** The tone test on a spectrum with a single line *)

Lemma np_sum_pos (l : list R) :
  l <> [] -> Forall (fun v => 0 < v) l -> 0 < np_sum l.
Proof.
  intros Hne Hall. destruct Hall as [| h t Hh Ht]; [congruence |].
  rewrite np_sum_cons.
  assert (0 <= np_sum t).
  { clear Hne Hh. induction Ht as [| a t Ha _ IH].
    - change (np_sum []) with 0. lra.
    - rewrite np_sum_cons. lra. }
  lra.
Qed.

(** A spectrum whose last bin towers above all others: the tone test
    passes, the peak is that last bin, the signal is the last two bins and
    what remains is the power of the inner bins. *)
Lemma snr_tone_single_line (inner : list R) (z big hi : R) :
  inner <> [] ->
  Forall (fun v => 0 < v <= hi) (inner ++ [z]) ->
  20 * hi < big ->
  let psd := 0 :: inner ++ [z; big] in
  let pk := np_argmax psd in
  let med := np_median (tl psd) in
  let signal := nth (pk - 1) psd 0 + nth pk psd 0 + nth (pk + 1) psd 0 in
  0 < med /\ 20 * med < nth pk psd 0 /\
  signal = z + big /\ np_sum psd - signal = np_sum inner /\
  0 < signal /\ 0 < np_sum inner /\
  snr_tone psd = Some (10 * log10 (signal / (np_sum psd - signal + eps))).
Proof.
  intros Hne Hall Hbig psd pk med signal.
  assert (Hshape : psd = 0 :: (inner ++ [z]) ++ [big]).
  { unfold psd. now rewrite <- app_assoc. }
  assert (Hhi : 0 < hi).
  { rewrite Forall_forall in Hall.
    destruct (Hall z) as [H1 H2]; [apply in_or_app; right; now left | lra]. }
  assert (Hlen : (2 <= length (inner ++ [z]))%nat).
  { rewrite length_app. simpl. destruct inner; [congruence | simpl; lia]. }
  assert (Hmed : 0 < med <= hi).
  { unfold med. rewrite Hshape. simpl tl.
    apply median_with_outlier; [assumption | lra | assumption]. }
  assert (Hpk : pk = S (length (inner ++ [z]))).
  { unfold pk. rewrite Hshape. apply np_argmax_last; [lra |].
    eapply Forall_impl; [| exact Hall]. intros v Hv; simpl in Hv. lra. }
  assert (Hpeak : nth pk psd 0 = big).
  { rewrite Hpk, Hshape. simpl nth. apply nth_middle. }
  assert (Hprev : nth (pk - 1) psd 0 = z).
  { rewrite Hpk. unfold psd. rewrite length_app. simpl length.
    replace (S (length inner + 1) - 1)%nat with (S (length inner)) by lia.
    simpl nth. apply nth_middle. }
  assert (Hnext : nth (pk + 1) psd 0 = 0).
  { apply nth_overflow. rewrite Hpk. unfold psd.
    simpl length. rewrite !length_app. simpl length. lia. }
  assert (Hsig : signal = z + big).
  { unfold signal. rewrite Hprev, Hpeak, Hnext. lra. }
  assert (Hz : 0 < z).
  { rewrite Forall_forall in Hall.
    destruct (Hall z) as [H1 H2]; [apply in_or_app; right; now left | lra]. }
  assert (Hrest : np_sum psd - signal = np_sum inner).
  { rewrite Hsig. unfold psd. rewrite np_sum_cons, np_sum_app, !np_sum_cons.
    change (np_sum []) with 0. lra. }
  assert (Hinner : 0 < np_sum inner).
  { apply np_sum_pos; [assumption |].
    apply Forall_app in Hall as [Hall _].
    eapply Forall_impl; [| exact Hall]. intros v Hv; simpl in Hv. lra. }
  split; [lra |]. split; [rewrite Hpeak; lra |].
  split; [assumption |]. split; [assumption |].
  split; [lra |]. split; [assumption |].
  assert (H0 : nth 0 psd 0 = 0) by reflexivity.
  rewrite (snr_tone_Some psd); fold pk; fold med.
  - rewrite (signal_slice_sum psd pk H0). reflexivity.
  - lra.
  - rewrite Hpeak. lra.
Qed.

(** *** The quiet tone, evaluated *)

Lemma length_tone_buffer : length tone_buffer = (4096 + 4095)%nat.
Proof.
  unfold tone_buffer.
  now rewrite length_app, length_compensated_tone, repeat_length.
Qed.

Lemma tone_buffer_reaches_fallback :
  (half_second 16000 <= Z.of_nat (length tone_buffer))%Z /\
  snr_percentile (active_frames tone_buffer 16000) = None /\
  nfft_of (length tone_buffer) = Ok 4096%nat.
Proof.
  rewrite length_tone_buffer. split; [| split].
  - vm_compute. discriminate.
  - apply snr_percentile_few.
    apply Nat.le_lt_trans with 6%nat; [| lia].
    apply active_frames_padded.
    rewrite length_compensated_tone.
    change (frame_size 16000) with 800%nat. lia.
  - vm_compute. reflexivity.
Qed.

(** in the middle third of the window the Hann weight is at least 3/4 *)
Lemma hann_weight_center (M n : nat) :
  (2 <= M)%nat -> (M - 1 <= 3 * n)%nat -> (2 * n <= M - 1)%nat ->
  0.75 <= hann_weight M n.
Proof.
  intros HM H3 H2. unfold hann_weight.
  assert (Hd : 0 < INR (M - 1)) by (apply (lt_INR 0); lia).
  apply le_INR in H3, H2. rewrite mult_INR in H3, H2.
  rewrite !INR_IZR_INZ in H3, H2. simpl Z.of_nat in H3, H2.
  rewrite <- !INR_IZR_INZ in H3, H2.
  pose proof PI_RGT_0 as Hpi.
  set (x := 2 * PI * INR n / INR (M - 1)).
  assert (Hx : 2 * (PI / 3) <= x <= PI).
  { unfold x. split.
    - apply (Rmult_le_reg_r (INR (M - 1))); [assumption |].
      unfold Rdiv. rewrite !Rmult_assoc, Rinv_l by lra. nra.
    - apply (Rmult_le_reg_r (INR (M - 1))); [assumption |].
      unfold Rdiv. rewrite !Rmult_assoc, Rinv_l by lra. nra. }
  assert (Hc : cos x <= cos (2 * (PI / 3))) by (apply cos_decr_1; lra).
  rewrite cos_2PI3 in Hc. lra.
Qed.

Lemma np_sum_square_app (a b : list R) :
  np_sum (square (a ++ b)) = np_sum (square a) + np_sum (square b).
Proof. unfold square. now rewrite map_app, np_sum_app. Qed.

(** a lower bound for the energy of the Hann window *)
Lemma hanning_energy (M a len : nat) :
  (2 <= M)%nat -> (a + len <= M)%nat ->
  (M - 1 <= 3 * a)%nat -> (2 * (a + len - 1) <= M - 1)%nat ->
  INR len * (0.75 * 0.75) <= np_sum (square (hanning M)).
Proof.
  intros HM Hfit H3 H2. rewrite hanning_eq by assumption.
  replace M with (a + (len + (M - a - len)))%nat at 2 by lia.
  rewrite !seq_app, !map_app, !np_sum_square_app.
  pose proof (np_sum_square_nonneg (map (hann_weight M) (seq 0 a))).
  pose proof (np_sum_square_nonneg
                (map (hann_weight M) (seq (0 + a + len) (M - a - len)))).
  assert (Hmid : INR len * (0.75 * 0.75)
                 <= np_sum (square (map (hann_weight M) (seq (0 + a) len)))).
  { replace len with (length (square (map (hann_weight M) (seq (0 + a) len)))) at 1
      by (unfold square; now rewrite !length_map, length_seq).
    apply np_sum_ge. intros v Hv.
    unfold square in Hv. rewrite map_map in Hv.
    apply in_map_iff in Hv as (n & <- & Hn). apply in_seq in Hn.
    assert (0.75 <= hann_weight M n) by (apply hann_weight_center; lia).
    nra. }
  lra.
Qed.

Lemma log10_pow (x : R) (n : nat) : 0 < x -> log10 (x ^ n) = INR n * log10 x.
Proof.
  intros Hx. unfold log10. rewrite ln_pow by assumption.
  field. pose proof ln10_pos; lra.
Qed.

Lemma log10_2_lower : 3 / 10 <= log10 2.
Proof.
  assert (H : log10 (10 ^ 3) <= log10 (2 ^ 10)).
  { apply log10_le; [apply pow_lt; lra | simpl; lra]. }
  rewrite log10_pow10, log10_pow in H by lra.
  rewrite !INR_IZR_INZ in H. simpl Z.of_nat in H. lra.
Qed.

(** when the remaining power is below the guard, the guard costs more
    than 3 dB *)
Lemma guarded_ratio_gap (s r : R) :
  0 < s -> 0 < r -> r < eps ->
  10 * log10 (s / (r + eps)) + 3 < 10 * log10 (s / r).
Proof.
  intros Hs Hr He.
  rewrite !log10_div by lra.
  assert (H : log10 (2 * r) < log10 (r + eps)) by (apply log10_lt; lra).
  rewrite log10_mult in H by lra.
  pose proof log10_2_lower. lra.
Qed.

Lemma tone_buffer_spectrum :
  exists inner z big hi,
    power_spectrum tone_buffer 4096 = 0 :: inner ++ [z; big] /\
    inner <> [] /\
    Forall (fun v => 0 < v <= hi) (inner ++ [z]) /\
    20 * hi < big /\
    INR (length inner) * hi < eps.
Proof.
  destruct (tone_power_spectrum 2048 4095 1e-7) as (inner & z & Hpsd & Hlen & Hall & Hnorm);
    [lia | lra |].
  change (2 * 2048)%nat with 4096%nat in *.
  fold tone_buffer in Hpsd.
  pose proof (hanning_energy 4096 1365 683) as Hwin.
  set (norm := np_sum (square (hanning 4096)) + eps) in *.
  assert (Hbound : 384 < norm).
  { unfold norm. pose proof eps_pos.
    assert (E : INR 683 = 683) by (rewrite INR_IZR_INZ; reflexivity).
    rewrite E in Hwin. specialize (Hwin ltac:(lia) ltac:(lia) ltac:(lia) ltac:(lia)).
    lra. }
  exists inner, z, (1e-7 * 1e-7 * ((INR 4096 - 2) * (INR 4096 - 2)) / norm),
         (4 * (1e-7 * 1e-7) / norm).
  split; [exact Hpsd |]. split; [| split; [exact Hall | split]].
  - intros ->. simpl in Hlen. lia.
  - assert (E : INR 4096 = 4096) by (rewrite INR_IZR_INZ; reflexivity).
    rewrite E.
    apply (Rmult_lt_reg_r norm); [assumption |].
    unfold Rdiv. rewrite !Rmult_assoc, Rinv_l by lra. lra.
  - rewrite Hlen.
    assert (E : INR (2048 - 2) = 2046) by (rewrite INR_IZR_INZ; reflexivity).
    rewrite E. unfold eps.
    apply (Rmult_lt_reg_r norm); [assumption |].
    unfold Rdiv. rewrite !Rmult_assoc, Rinv_l by lra. lra.
Qed.

(** C3, counterexample: a quiet tone at the Nyquist rate (4096 samples,
    then silence; 16 kHz) reaches the spectral method, its peak bin exceeds
    20 times the median, and the value returned is more than 3 dB below
    [10*log10(signal/remaining power)]: the guard [eps] is added to the
    remaining power before the ratio is taken, and here it is the larger
    of the two. *)
Lemma snr_db_quiet_tone_not_plain_ratio :
  let psd := power_spectrum tone_buffer 4096 in
  let pk := np_argmax psd in
  let med := np_median (tl psd) in
  let signal := nth (pk - 1) psd 0 + nth pk psd 0 + nth (pk + 1) psd 0 in
  let remaining := np_sum psd - signal in
  (half_second 16000 <= Z.of_nat (length tone_buffer))%Z /\
  snr_percentile (active_frames tone_buffer 16000) = None /\
  nfft_of (length tone_buffer) = Ok 4096%nat /\
  20 * med < nth pk psd 0 /\
  0 < signal /\ 0 < remaining /\
  exists v,
    snr_db tone_buffer 16000 = Ok (Some v) /\
    v + 3 < 10 * log10 (signal / remaining).
Proof.
  destruct tone_buffer_reaches_fallback as (Hhalf & Htime & Hnfft).
  destruct tone_buffer_spectrum
    as (inner & z & big & hi & Hpsd & Hne & Hall & Hbig & Hsmall).
  destruct (snr_tone_single_line inner z big hi Hne Hall Hbig)
    as (Hmed & Hpeak & Hsig & Hrest & Hspos & Hipos & Htone).
  assert (Hrem : np_sum inner < eps).
  { eapply Rle_lt_trans; [| exact Hsmall].
    apply np_sum_le. intros v Hv.
    rewrite Forall_forall in Hall.
    destruct (Hall v) as [_ H]; [apply in_or_app; now left | exact H]. }
  cbv zeta in *. rewrite <- Hpsd in *.
  split; [assumption |]. split; [assumption |]. split; [assumption |].
  split; [assumption |]. split; [assumption |].
  split; [rewrite Hrest; assumption |].
  eexists. split.
  - unfold snr_db.
    assert (E : (Z.of_nat (length tone_buffer) <? half_second 16000)%Z = false)
      by (apply Z.ltb_ge; lia).
    rewrite E, Htime.
    rewrite (snr_spectral_eq tone_buffer 4096 Hnfft).
    change (4096 <? 4096)%nat with false. cbv iota.
    rewrite Htone. reflexivity.
  - apply guarded_ratio_gap; rewrite ?Hrest; assumption.
Qed.

(* ================================================================== *)
(** ** Further properties of the level metrics *)

Lemma length_square (y : list R) : length (square y) = length y.
Proof. apply length_map. Qed.

Lemma np_mean_square_nonneg (y : list R) : 0 <= np_mean (square y).
Proof.
  unfold np_mean. pose proof (np_sum_square_nonneg y) as Hs.
  pose proof (pos_INR (length (square y))) as Hn.
  destruct Hn as [Hn | <-].
  - apply Rmult_le_pos; [assumption | left; now apply Rinv_0_lt_compat].
  - unfold Rdiv. rewrite Rinv_0. lra.
Qed.

(** the linear RMS never exceeds the linear peak *)
Lemma rms_linear_le_peak (y : list R) (m : R) :
  np_max (map Rabs y) = Some m -> sqrt (np_mean (square y)) <= m.
Proof.
  intros Hm.
  assert (Hm0 : 0 <= m) by (eapply np_max_abs_nonneg; eauto).
  assert (Hne : (0 < length (square y))%nat).
  { rewrite length_square. destruct y; [discriminate | simpl; lia]. }
  rewrite <- (sqrt_square m Hm0). apply sqrt_le_1_alt.
  apply np_mean_le; [assumption |].
  intros v Hv. unfold square in Hv. apply in_map_iff in Hv as (x & <- & Hx).
  apply np_max_spec in Hm as [_ Hub].
  assert (Rabs x <= m) by (apply Hub; now apply in_map).
  apply Rabs_le_between in H. nra.
Qed.

Lemma level_bounds (y : list R) (m : R) :
  np_max (map Rabs y) = Some m ->
  floor_dbfs <= 20 * log10 (sqrt (np_mean (square y)) + eps) /\
  20 * log10 (sqrt (np_mean (square y)) + eps) <= 20 * log10 (m + eps).
Proof.
  intros Hm.
  pose proof (rms_linear_le_peak y m Hm) as Hle.
  pose proof (sqrt_pos (np_mean (square y))) as Hq.
  pose proof eps_pos as He.
  split.
  - unfold floor_dbfs.
    assert (log10 1e-12 <= log10 (sqrt (np_mean (square y)) + eps)).
    { apply log10_le; unfold eps in *; lra. }
    lra.
  - assert (log10 (sqrt (np_mean (square y)) + eps) <= log10 (m + eps)).
    { apply log10_le; lra. }
    lra.
Qed.

(** X1: for every non-empty buffer the peak and RMS levels are finite, the RMS
    level is at least the floor 20*log10(1e-12) and at most the peak level,
    and the crest factor computed from them is their difference, hence not
    negative. *)
Theorem levels_ordered (y : list R) :
  y <> [] ->
  exists p r,
    peak_dbfs y = Ok (Finite p) /\
    rms_dbfs y = Finite r /\
    crest_db (Finite p) (Finite r) = Finite (p - r) /\
    floor_dbfs <= r /\ r <= p.
Proof.
  intros Hne.
  destruct (np_max_nonempty (map Rabs y)) as [m Hm];
    [destruct y; [congruence | discriminate] |].
  exists (20 * log10 (m + eps)), (20 * log10 (sqrt (np_mean (square y)) + eps)).
  rewrite (peak_dbfs_eq y m Hm), (rms_dbfs_eq y Hne).
  pose proof (level_bounds y m Hm) as [Hlo Hhi].
  repeat split; assumption.
Qed.

Lemma levels_ordered_witness :
  exists p r,
    peak_dbfs [0.5; -1] = Ok (Finite p) /\
    rms_dbfs [0.5; -1] = Finite r /\
    crest_db (Finite p) (Finite r) = Finite (p - r) /\
    floor_dbfs <= r /\ r <= p.
Proof. apply (levels_ordered [0.5; -1]). discriminate. Defined.

(** ** Further properties of the true peak *)

(** X2: the true peak depends neither on the sample rate nor on the
    oversampling factor: points interpolated linearly between the samples
    never exceed the largest sample, so the maximum taken over the
    oversampled signal changes nothing (in exact arithmetic). *)
Theorem true_peak_ignores_oversampling (y : list R) (sr sr' : Z)
        (os_factor os_factor' : nat) :
  true_peak_dbfs y sr os_factor = true_peak_dbfs y sr' os_factor'.
Proof.
  unfold true_peak_dbfs. destruct y as [| v t]; [reflexivity |].
  now rewrite !true_peak_linear_eq.
Qed.

Lemma abs_max_zero (y : list R) :
  np_max (map Rabs y) = Some 0 -> Forall (fun v => v = 0) y.
Proof.
  intros H. apply np_max_spec in H as [_ Hub].
  apply Forall_forall. intros v Hv.
  assert (Rabs v <= 0) by (apply Hub; now apply in_map).
  pose proof (Rabs_pos v).
  destruct (Req_dec v 0) as [E | E]; [assumption |].
  apply Rabs_pos_lt in E. lra.
Qed.

(** on finite samples the true peak is NA exactly when the buffer is empty
    or holds only zeros *)
Lemma true_peak_na_iff_silent (y : list R) (sr : Z) (os_factor : nat) :
  true_peak_dbfs y sr os_factor = None <-> Forall (fun v => v = 0) y.
Proof.
  split; [| apply true_peak_dbfs_zero].
  intros H. destruct y as [| v t]; [constructor |].
  destruct (np_max_nonempty (map Rabs (v :: t))) as [m Hm]; [discriminate |].
  pose proof (np_max_abs_nonneg _ _ Hm) as [Hpos | <-].
  - rewrite (true_peak_dbfs_eq _ sr os_factor m Hm Hpos) in H. discriminate.
  - now apply abs_max_zero.
Qed.

(** *** Buffers with non-finite samples *)

Lemma isfinite_fabs (f : float) : isfinite (fabs f) = isfinite f.
Proof. destruct f; reflexivity. Qed.

Lemma fmax_fabs (a b : float) :
  a <> NInf ->
  fmax a (fabs b) <> NInf /\
  isfinite (fmax a (fabs b)) = (isfinite a && isfinite b)%bool.
Proof. destruct a, b; cbn; intros H; split; congruence. Qed.

Lemma isfinite_fold_fmax (t : list float) (x : float) :
  x <> NInf ->
  isfinite (fold_left fmax (map fabs t) x) = (isfinite x && forallb isfinite t)%bool.
Proof.
  revert x. induction t as [| f t IH]; intros x Hx; cbn [map fold_left forallb].
  - now rewrite andb_true_r.
  - destruct (fmax_fabs x f Hx) as [Hn Hf].
    rewrite (IH _ Hn), Hf. now rewrite andb_assoc.
Qed.

(** the peak of line 127 is finite exactly when every sample is *)
Lemma np_max_float_finite (y : list float) :
  match np_max_float (map fabs y) with
  | None => y = []
  | Some p => y <> [] /\ isfinite p = forallb isfinite y
  end.
Proof.
  destruct y as [| f t]; cbn [map np_max_float forallb]; [reflexivity |].
  split; [discriminate |].
  rewrite isfinite_fold_fmax by (destruct f; discriminate).
  now rewrite isfinite_fabs.
Qed.

Lemma finite_values_zero (y : list float) :
  forallb isfinite y = true ->
  (Forall (fun v => v = 0) (finite_values y) <-> Forall (fun f => f = Finite 0) y).
Proof.
  induction y as [| f y IH]; cbn; intros H.
  - split; constructor.
  - apply andb_true_iff in H as [Hf Hy]. destruct f as [r | | |]; try discriminate.
    specialize (IH Hy). split; intros HF; inversion HF; subst; constructor;
      try (now apply IH); congruence.
Qed.

Lemma not_all_finite (y : list float) :
  forallb isfinite y = false <-> exists f, In f y /\ isfinite f = false.
Proof.
  rewrite <- not_true_iff_false, forallb_forall. split.
  - intros H. induction y as [| f y IH].
    + exfalso. apply H. intros x [].
    + destruct (isfinite f) eqn:E.
      * destruct IH as (g & Hin & Hg).
        { intros Hall. apply H. intros x [<- | Hx]; auto. }
        exists g. split; [now right | assumption].
      * exists f. split; [now left | assumption].
  - intros (f & Hin & Hf) Hall. rewrite (Hall f Hin) in Hf. discriminate.
Qed.

(** X3: on a buffer that may hold infinities and NaN, the true peak is NA
    exactly when some sample is not finite or every sample is zero (the
    empty buffer included); a buffer of finite samples with one non-zero
    sample always has a true peak. *)
Theorem true_peak_na_iff (y : list float) (sr : Z) (os_factor : nat) :
  true_peak_dbfs_any y sr os_factor = None <->
  (exists f, In f y /\ isfinite f = false) \/ Forall (fun f => f = Finite 0) y.
Proof.
  unfold true_peak_dbfs_any.
  pose proof (np_max_float_finite y) as Hp.
  destruct (np_max_float (map fabs y)) as [p |].
  - destruct Hp as [Hne Hfin].
    destruct (forallb isfinite y) eqn:Hall.
    + destruct p as [m | | |]; try discriminate.
      rewrite true_peak_na_iff_silent, (finite_values_zero y Hall).
      split; [now right |].
      intros [(f & Hin & Hf) | H]; [| assumption].
      rewrite forallb_forall in Hall. rewrite (Hall f Hin) in Hf. discriminate.
    + assert (Hex : exists f, In f y /\ isfinite f = false)
        by now apply not_all_finite.
      destruct p; try discriminate; split; auto.
  - subst y. split; [right; constructor | reflexivity].
Qed.

Lemma true_peak_na_iff_witness :
  true_peak_dbfs_any [Finite 0.5; PInf] 48000 4 = None /\
  true_peak_dbfs_any [Finite 0; Finite 0] 48000 4 = None.
Proof.
  split.
  - apply (proj2 (true_peak_na_iff [Finite 0.5; PInf] 48000 4)).
    left. exists PInf. split; [right; left; reflexivity | reflexivity].
  - apply (proj2 (true_peak_na_iff [Finite 0; Finite 0] 48000 4)).
    right. repeat constructor.
Defined.

(* ================================================================== *)
(** ** Polarity inversion *)

Lemma map_Rabs_Ropp (y : list R) : map Rabs (map Ropp y) = map Rabs y.
Proof. rewrite map_map. apply map_ext. intros v. apply Rabs_Ropp. Qed.

Lemma square_Ropp (y : list R) : square (map Ropp y) = square y.
Proof. unfold square. rewrite map_map. apply map_ext. intros v. ring. Qed.

Lemma slice_Ropp (y : list R) (i j : nat) :
  slice (map Ropp y) i j = map Ropp (slice y i j).
Proof. unfold slice. now rewrite skipn_map, firstn_map. Qed.

Lemma nth_Ropp (y : list R) (n : nat) : nth n (map Ropp y) 0 = - nth n y 0.
Proof. rewrite <- (map_nth Ropp). now rewrite Ropp_0. Qed.

Lemma windowed_Ropp (x w : list R) :
  map (fun p => fst p * snd p) (combine (map Ropp x) w) =
  map Ropp (map (fun p => fst p * snd p) (combine x w)).
Proof.
  revert w. induction x as [| a x IH]; intros [| b w]; simpl; try reflexivity.
  rewrite IH. f_equal. ring.
Qed.

Lemma np_sum_map_opp (f : nat -> R) (l : list nat) :
  np_sum (map (fun n => - f n) l) = - np_sum (map f l).
Proof.
  induction l as [| a l IH]; simpl; [ring |].
  change (- f a + np_sum (map (fun n => - f n) l) = - (f a + np_sum (map f l))).
  rewrite IH. ring.
Qed.

Lemma bin_power_Ropp (norm : R) (x : list R) (k : nat) :
  bin_power norm (dft_bin (map Ropp x) k) = bin_power norm (dft_bin x k).
Proof.
  unfold bin_power, dft_bin. cbn [fst snd]. rewrite length_map.
  set (N := length x).
  assert (E : forall f : R -> R,
             np_sum (map (fun n => nth n (map Ropp x) 0
                                   * f (2 * PI * INR k * INR n / INR N)) (seq 0 N))
             = - np_sum (map (fun n => nth n x 0
                                       * f (2 * PI * INR k * INR n / INR N)) (seq 0 N))).
  { intros f. rewrite <- np_sum_map_opp. apply np_sum_map_ext.
    intros n _. rewrite nth_Ropp. ring. }
  rewrite !E. f_equal. ring.
Qed.

Lemma power_spectrum_Ropp (y : list R) (nfft : nat) :
  power_spectrum (map Ropp y) nfft = power_spectrum y nfft.
Proof.
  unfold power_spectrum, rfft.
  rewrite firstn_map, windowed_Ropp.
  set (xw := map (fun p => fst p * snd p) (combine (firstn nfft y) (hanning nfft))).
  rewrite length_map, !map_map.
  erewrite map_ext; [reflexivity |].
  intros k. apply bin_power_Ropp.
Qed.

Lemma frame_energies_Ropp (y : list R) (frame : nat) :
  frame_energies (map Ropp y) frame = frame_energies y frame.
Proof.
  unfold frame_energies. rewrite length_map. apply map_ext.
  intros i. now rewrite slice_Ropp, square_Ropp.
Qed.

(** X4: inverting the polarity of a buffer changes none of the peak level, the
    RMS level, the true peak and the SNR estimate. *)
Theorem polarity_inversion_invisible (y : list R) (sr : Z) (os_factor : nat) :
  peak_dbfs (map Ropp y) = peak_dbfs y /\
  rms_dbfs (map Ropp y) = rms_dbfs y /\
  true_peak_dbfs (map Ropp y) sr os_factor = true_peak_dbfs y sr os_factor /\
  snr_db (map Ropp y) sr = snr_db y sr.
Proof.
  repeat split.
  - unfold peak_dbfs. now rewrite map_Rabs_Ropp.
  - destruct y as [| v t]; [reflexivity |].
    unfold rms_dbfs. cbn [map]. change (- v :: map Ropp t) with (map Ropp (v :: t)).
    now rewrite square_Ropp.
  - destruct y as [| v t]; [reflexivity |].
    unfold true_peak_dbfs. cbn [map].
    change (- v :: map Ropp t) with (map Ropp (v :: t)).
    rewrite !true_peak_linear_eq, map_Rabs_Ropp. reflexivity.
  - unfold snr_db, active_frames, snr_spectral.
    rewrite frame_energies_Ropp, length_map.
    destruct (Z.of_nat (length y) <? half_second sr)%Z; [reflexivity |].
    destruct (snr_percentile _); [reflexivity |].
    destruct (nfft_of (length y)) as [nfft |]; [| reflexivity].
    simpl. now rewrite power_spectrum_Ropp.
Qed.

(* ================================================================== *)
(** ** SNR: failures and silence *)

Lemma frame_size_pos (sr : Z) : (1 <= frame_size sr)%nat.
Proof. unfold frame_size. lia. Qed.

Lemma range_step_empty (step : nat) : (1 <= step)%nat -> range_step 0 step = [].
Proof.
  intros H. unfold range_step.
  replace ((0 + step - 1) / step)%nat with 0%nat; [reflexivity |].
  symmetry. apply Nat.div_small. lia.
Qed.

Lemma half_second_nonpos (sr : Z) : (half_second sr <= 0)%Z <-> (sr <= 1)%Z.
Proof.
  unfold half_second. split; intros H.
  - destruct (Z_lt_le_dec sr 2) as [L | L]; [lia |].
    assert (1 <= Z.quot sr 2)%Z; [| lia].
    rewrite Z.quot_div_nonneg by lia.
    apply Z.div_le_lower_bound; lia.
  - destruct (Z_lt_le_dec sr 0) as [L | L].
    + apply Z.quot_le_upper_bound; lia.
    + rewrite Z.quot_div_nonneg by lia.
      assert (sr = 0 \/ sr = 1)%Z as [-> | ->] by lia; reflexivity.
Qed.

Lemma snr_db_empty (sr : Z) :
  snr_db [] sr = if (0 <? half_second sr)%Z then Ok None else Raise OverflowError.
Proof.
  unfold snr_db. cbn [length Z.of_nat].
  destruct (0 <? half_second sr)%Z; [reflexivity |].
  unfold active_frames, frame_energies. cbn [length].
  rewrite range_step_empty by apply frame_size_pos.
  reflexivity.
Qed.

(** X5: the only exception of the SNR estimator is the [OverflowError] of
    line 61, and it is raised exactly for the empty buffer at a sample
    rate of at most 1 (any larger rate takes the short-buffer exit, any
    non-empty buffer has a logarithm to take). *)
Theorem snr_db_raises_iff (y : list R) (sr : Z) (e : exn) :
  snr_db y sr = Raise e <-> y = [] /\ (sr <= 1)%Z /\ e = OverflowError.
Proof.
  split.
  - intros H. destruct y as [| v t].
    + rewrite snr_db_empty in H.
      destruct (0 <? half_second sr)%Z eqn:E; [discriminate |].
      apply Z.ltb_ge in E. apply half_second_nonpos in E.
      injection H as <-. auto.
    + destruct (snr_db_total (v :: t) sr) as [s Hs]; [discriminate |].
      congruence.
  - intros (-> & Hsr & ->). rewrite snr_db_empty.
    apply half_second_nonpos in Hsr.
    destruct (0 <? half_second sr)%Z eqn:E; [| reflexivity].
    apply Z.ltb_lt in E. lia.
Qed.

Lemma nth_zero (l : list R) (i : nat) :
  Forall (fun v => v = 0) l -> nth i l 0 = 0.
Proof.
  intros H. destruct (nth_in_or_default i l 0) as [Hin | ->]; [| reflexivity].
  rewrite Forall_forall in H. now apply H.
Qed.

Lemma np_median_zero (l : list R) :
  Forall (fun v => v = 0) l -> np_median l = 0.
Proof.
  intros H.
  assert (Hs : Forall (fun v => v = 0) (sort l)).
  { eapply Permutation_Forall; [| exact H].
    apply Permutation_sym, sort_perm. }
  unfold np_median. destruct (Nat.even (length l));
    rewrite ?(nth_zero _ _ Hs); lra.
Qed.

Lemma windowed_zero (x w : list R) :
  Forall (fun v => v = 0) x ->
  Forall (fun v => v = 0) (map (fun p => fst p * snd p) (combine x w)).
Proof.
  intros H. revert w. induction H as [| a x Ha _ IH]; intros [| b w];
    simpl; constructor.
  - subst. ring.
  - apply IH.
Qed.

Lemma bin_power_zero (norm : R) (x : list R) (k : nat) :
  Forall (fun v => v = 0) x -> bin_power norm (dft_bin x k) = 0.
Proof.
  intros H. unfold bin_power, dft_bin. cbn [fst snd].
  assert (E : forall f : nat -> R,
             np_sum (map (fun n => nth n x 0 * f n) (seq 0 (length x))) = 0).
  { intros f. rewrite (np_sum_map_ext _ (fun _ => 0)).
    - rewrite np_sum_map_const. ring.
    - intros n _. rewrite (nth_zero _ _ H). ring. }
  rewrite (E (fun n => cos (2 * PI * INR k * INR n / INR (length x)))).
  rewrite (E (fun n => sin (2 * PI * INR k * INR n / INR (length x)))).
  unfold Rdiv. ring.
Qed.

Lemma firstn_Forall {A : Type} (P : A -> Prop) (n : nat) (l : list A) :
  Forall P l -> Forall P (firstn n l).
Proof.
  intros H. apply Forall_forall. intros v Hv.
  rewrite Forall_forall in H. apply H.
  rewrite <- (firstn_skipn n l). apply in_or_app. now left.
Qed.

Lemma snr_tone_silence (y : list R) (nfft : nat) :
  Forall (fun v => v = 0) y -> snr_tone (power_spectrum y nfft) = None.
Proof.
  intros H. apply snr_tone_None. left.
  rewrite power_spectrum_eq. cbn [tl].
  rewrite np_median_zero; [lra |].
  apply Forall_forall. intros v Hv.
  apply in_map_iff in Hv as (k & <- & _).
  apply bin_power_zero, windowed_zero, firstn_Forall, H.
Qed.

Lemma np_mean_square_zero (y : list R) :
  Forall (fun v => v = 0) y -> np_mean (square y) = 0.
Proof.
  intros H. unfold np_mean. rewrite (np_sum_square_zero y H).
  unfold Rdiv. ring.
Qed.

Lemma active_frames_silence (y : list R) (sr : Z) :
  Forall (fun v => v = 0) y -> active_frames y sr = [].
Proof.
  intros H. unfold active_frames, frame_energies.
  apply filter_none. apply Forall_forall. intros e He.
  apply in_map_iff in He as (i & <- & _).
  rewrite np_mean_square_zero.
  - apply Rltb_false. lra.
  - apply Forall_forall. intros v Hv.
    rewrite Forall_forall in H. apply H.
    now apply (skipn_incl y i), (slice_incl y i (i + frame_size sr)).
Qed.

Lemma snr_db_zero (y : list R) (sr : Z) :
  y <> [] -> Forall (fun v => v = 0) y -> snr_db y sr = Ok None.
Proof.
  intros Hne H. unfold snr_db.
  destruct (Z.of_nat (length y) <? half_second sr)%Z; [reflexivity |].
  rewrite (active_frames_silence y sr H). cbn.
  unfold snr_spectral, nfft_of.
  destruct (Nat.eqb_spec (length y) 0) as [E | E].
  - destruct y; [congruence | discriminate].
  - cbn [bind]. destruct (_ <? 4096)%nat; [reflexivity |].
    now rewrite (snr_tone_silence y _ H).
Qed.

(** ** SNR: the frames may come in any order *)

Lemma sorted_perm_eq (a b : list R) :
  StronglySorted Rle a -> StronglySorted Rle b -> Permutation a b -> a = b.
Proof.
  revert b. induction a as [| x a IH]; intros b Ha Hb P.
  - now apply Permutation_nil in P.
  - destruct b as [| y b].
    { apply Permutation_sym, Permutation_nil in P. discriminate. }
    apply StronglySorted_inv in Ha as [Ha Hxa].
    apply StronglySorted_inv in Hb as [Hb Hyb].
    rewrite Forall_forall in Hxa, Hyb.
    assert (E : x = y).
    { assert (In y (x :: a)) as [-> | Hy]
        by (eapply Permutation_in; [apply Permutation_sym, P | now left]);
        [reflexivity |].
      assert (In x (y :: b)) as [-> | Hx]
        by (eapply Permutation_in; [apply P | now left]);
        [reflexivity |].
      apply Rle_antisym; auto. }
    subst y. f_equal. apply IH; auto.
    now apply Permutation_cons_inv in P.
Qed.

Lemma sort_Permutation (a b : list R) : Permutation a b -> sort a = sort b.
Proof.
  intros P. apply sorted_perm_eq; try apply sort_sorted.
  rewrite (sort_perm a), P. apply Permutation_sym, sort_perm.
Qed.

Lemma np_percentile_Permutation (a b : list R) (q : nat) :
  Permutation a b -> np_percentile a q = np_percentile b q.
Proof.
  intros P. unfold np_percentile.
  now rewrite (sort_Permutation a b P), (Permutation_length P).
Qed.

Lemma np_sum_Permutation (a b : list R) : Permutation a b -> np_sum a = np_sum b.
Proof.
  induction 1; rewrite ?np_sum_cons; lra.
Qed.

Lemma np_mean_Permutation (a b : list R) : Permutation a b -> np_mean a = np_mean b.
Proof.
  intros P. unfold np_mean.
  now rewrite (np_sum_Permutation a b P), (Permutation_length P).
Qed.

Lemma filter_Permutation (p : R -> bool) (a b : list R) :
  Permutation a b -> Permutation (filter p a) (filter p b).
Proof.
  induction 1; simpl.
  - constructor.
  - destruct (p x); auto.
  - destruct (p x), (p y); auto. constructor.
  - etransitivity; eauto.
Qed.

(** X6: the time-domain percentile method sees the frame energies as a
    multiset: reordering the frames changes neither the decision nor the
    value. *)
Theorem snr_percentile_order_free (frames frames' : list R) :
  Permutation frames frames' ->
  snr_percentile frames = snr_percentile frames'.
Proof.
  intros P.
  assert (Plow : Permutation (low_frames frames) (low_frames frames')).
  { unfold low_frames. rewrite (np_percentile_Permutation _ _ 20 P).
    now apply filter_Permutation. }
  assert (Phigh : Permutation (high_frames frames) (high_frames frames')).
  { unfold high_frames. rewrite (np_percentile_Permutation _ _ 80 P).
    now apply filter_Permutation. }
  unfold snr_percentile, dyn_db.
  rewrite (Permutation_length P), (Permutation_length Plow),
    (Permutation_length Phigh), (np_mean_Permutation _ _ Plow),
    (np_mean_Permutation _ _ Phigh),
    (np_percentile_Permutation _ _ 90 P), (np_percentile_Permutation _ _ 10 P).
  reflexivity.
Qed.

Lemma snr_percentile_order_free_witness :
  snr_percentile (rev (two_level 0.1 1)) = snr_percentile (two_level 0.1 1).
Proof.
  apply (snr_percentile_order_free (rev (two_level 0.1 1)) (two_level 0.1 1)).
  apply Permutation_sym, Permutation_rev.
Defined.

(* ================================================================== *)
(** ** SNR: sums and spectra without negative entries *)

Lemma np_sum_nonneg (l : list R) : (forall v, In v l -> 0 <= v) -> 0 <= np_sum l.
Proof.
  intros H. pose proof (np_sum_ge l 0 H). lra.
Qed.

Lemma np_mean_nonneg (l : list R) : (forall v, In v l -> 0 <= v) -> 0 <= np_mean l.
Proof.
  intros H. unfold np_mean. pose proof (np_sum_nonneg l H).
  destruct (pos_INR (length l)) as [Hn | <-].
  - apply Rmult_le_pos; [assumption | left; now apply Rinv_0_lt_compat].
  - unfold Rdiv. rewrite Rinv_0. lra.
Qed.

Lemma np_sum_slice_le (l : list R) (i j : nat) :
  (forall v, In v l -> 0 <= v) -> np_sum (slice l i j) <= np_sum l.
Proof.
  intros H. unfold slice.
  rewrite <- (firstn_skipn i l) at 2. rewrite np_sum_app.
  rewrite <- (firstn_skipn (j - i) (skipn i l)) at 2. rewrite np_sum_app.
  assert (0 <= np_sum (firstn i l)).
  { apply np_sum_nonneg. intros v Hv. apply H.
    rewrite <- (firstn_skipn i l). apply in_or_app. now left. }
  assert (0 <= np_sum (skipn (j - i) (skipn i l))).
  { apply np_sum_nonneg. intros v Hv. apply H.
    now apply (skipn_incl l i), (skipn_incl _ (j - i)). }
  lra.
Qed.

Lemma nth_nonneg (l : list R) (i : nat) :
  (forall v, In v l -> 0 <= v) -> 0 <= nth i l 0.
Proof.
  intros H. destruct (nth_in_or_default i l 0) as [Hin | ->]; [now apply H | lra].
Qed.

Lemma power_spectrum_nonneg (y : list R) (nfft : nat) (v : R) :
  In v (power_spectrum y nfft) -> 0 <= v.
Proof.
  rewrite power_spectrum_eq. intros [<- | Hin]; [lra |].
  apply in_map_iff in Hin as (k & <- & _).
  unfold bin_power.
  pose proof (np_sum_square_nonneg (hanning nfft)). pose proof eps_pos.
  apply Rmult_le_pos; [nra | left; apply Rinv_0_lt_compat; lra].
Qed.

Lemma snr_tone_inv (psd : list R) (v : R) :
  snr_tone psd = Some v ->
  0 < np_median (tl psd) /\
  20 * np_median (tl psd) <= nth (np_argmax psd) psd 0 /\
  v = 10 * log10
        (np_sum (slice psd (Nat.max 1 (np_argmax psd - 1)) (np_argmax psd + 2))
         / (np_sum psd
            - np_sum (slice psd (Nat.max 1 (np_argmax psd - 1)) (np_argmax psd + 2))
            + eps)).
Proof.
  unfold snr_tone.
  destruct (Rleb (np_median (tl psd)) 0) eqn:E1; [discriminate |].
  destruct (Rltb (nth (np_argmax psd) psd 0) (20 * np_median (tl psd))) eqn:E2;
    [discriminate |].
  cbn [orb]. intros [= <-].
  apply Rleb_false in E1. apply Rltb_false in E2. auto.
Qed.

(* ================================================================== *)
(** ** Loudness: what the summary values are made of *)

Lemma finite_values_In (s : list float) (r : R) :
  In r (finite_values s) <-> In (Finite r) s.
Proof.
  induction s as [| f s IH]; simpl; [tauto |].
  destruct f as [x | | |]; simpl; rewrite IH.
  - split; intros [H | H];
      [left; congruence | right; assumption | left; congruence | right; assumption].
  - split; [now right | intros [H | H]; [discriminate | assumption]].
  - split; [now right | intros [H | H]; [discriminate | assumption]].
  - split; [now right | intros [H | H]; [discriminate | assumption]].
Qed.

Lemma sort_nth_In (a : list R) (i : nat) :
  (i < length a)%nat -> In (nth i (sort a) 0) a.
Proof.
  intros H. apply (Permutation_in _ (sort_perm a)).
  apply nth_In. now rewrite length_sort.
Qed.

Lemma np_percentile_within (a : list R) (q : nat) :
  a <> [] -> (q <= 100)%nat ->
  exists lo hi, In lo a /\ In hi a /\ lo <= np_percentile a q <= hi.
Proof.
  intros Hne Hq.
  assert (Hn : (0 < length a)%nat) by (destruct a; [congruence | simpl; lia]).
  set (k := (q * (length a - 1) / 100)%nat).
  assert (Hk : (k < length a)%nat).
  { unfold k.
    assert (q * (length a - 1) / 100 <= length a - 1)%nat; [| lia].
    apply Nat.Div0.div_le_upper_bound. nia. }
  destruct (Nat.lt_ge_cases (S k) (length a)) as [Hlt | Hge].
  - exists (nth k (sort a) 0), (nth (S k) (sort a) 0).
    repeat split; try (apply sort_nth_In; lia);
      apply (np_percentile_between a q Hlt).
  - exists (nth k (sort a) 0), (nth k (sort a) 0).
    assert (E : np_percentile a q = nth k (sort a) 0).
    { unfold np_percentile. fold k.
      rewrite (nth_overflow (sort a) (n := S k)) by (rewrite length_sort; lia).
      ring. }
    rewrite E. repeat split; try (apply sort_nth_In; lia); lra.
Qed.

Lemma p95_within (series : option (list float)) (v : R) :
  p95 series = Some v ->
  exists s a b, series = Some s /\ In (Finite a) s /\ In (Finite b) s /\ a <= v <= b.
Proof.
  unfold p95. destruct series as [s |]; [| discriminate].
  destruct (finite_values s) as [| x t] eqn:E; [discriminate |].
  intros [= <-].
  destruct (np_percentile_within (x :: t) 95) as (lo & hi & Hlo & Hhi & Hb);
    [discriminate | lia |].
  exists s, lo, hi. rewrite <- E in Hlo, Hhi.
  apply finite_values_In in Hlo, Hhi. auto.
Qed.

Section LoudnessSummary.

Variable pyln_Meter : Z -> Meter.

(** X8: what the loudness summary reports comes from the meter: the integrated
    value is the meter's; a short-term or momentary value exists only when
    the meter returned a series, and then lies between two finite entries
    of that series; a loudness range exists only when the meter's range is
    that finite number. *)
Theorem r128_values_from_meter (y : list R) (sr : Z)
        (L_i : float) (L_s L_m LRA : option R) :
  r128_loudness_and_lra pyln_Meter y sr = Ok (L_i, L_s, L_m, LRA) ->
  integrated_loudness (pyln_Meter sr) y = Ok L_i /\
  (forall v, L_s = Some v ->
     exists s a b, loudness_shortterm (pyln_Meter sr) y = Ok (Some s) /\
                   In (Finite a) s /\ In (Finite b) s /\ a <= v <= b) /\
  (forall v, L_m = Some v ->
     exists s a b, loudness_momentary (pyln_Meter sr) y = Ok (Some s) /\
                   In (Finite a) s /\ In (Finite b) s /\ a <= v <= b) /\
  (forall v, LRA = Some v ->
     loudness_range (pyln_Meter sr) y = Ok (Finite v)).
Proof.
  unfold r128_loudness_and_lra.
  destruct (integrated_loudness (pyln_Meter sr) y) as [Li |]; [| discriminate].
  cbn [bind]. intros [= <- <- <- <-]. split; [reflexivity |].
  repeat split.
  - destruct (loudness_shortterm (pyln_Meter sr) y) as [s |]; cbn; [| discriminate].
    intros v Hv. destruct (p95_within s v Hv) as (l & a & b & -> & H).
    exists l, a, b. auto.
  - destruct (loudness_momentary (pyln_Meter sr) y) as [s |]; cbn; [| discriminate].
    intros v Hv. destruct (p95_within s v Hv) as (l & a & b & -> & H).
    exists l, a, b. auto.
  - destruct (loudness_range (pyln_Meter sr) y) as [f |]; cbn; [| discriminate].
    destruct f; cbn; intros v [=]. now subst.
Qed.

End LoudnessSummary.

Lemma r128_values_from_meter_witness :
  integrated_loudness (power_meter 48000) [0; 0; 0] = Ok NInf /\
  (forall v, None = Some v ->
     exists s a b, loudness_shortterm (power_meter 48000) [0; 0; 0] = Ok (Some s) /\
                   In (Finite a) s /\ In (Finite b) s /\ a <= v <= b) /\
  (forall v, Some (-23) = Some v ->
     exists s a b, loudness_momentary (power_meter 48000) [0; 0; 0] = Ok (Some s) /\
                   In (Finite a) s /\ In (Finite b) s /\ a <= v <= b) /\
  (forall v, None = Some v ->
     loudness_range (power_meter 48000) [0; 0; 0] = Ok (Finite v)).
Proof.
  apply (r128_values_from_meter power_meter [0; 0; 0] 48000 NInf None (Some (-23)) None).
  apply r128_power_meter_silence.
Defined.

(* ================================================================== *)
(** ** SNR: the arguments of the logarithms *)

Lemma np_percentile_pos (frames : list R) (q : nat) :
  frames <> [] -> (q <= 100)%nat ->
  (forall e, In e frames -> 0 < e) -> 0 < np_percentile frames q.
Proof.
  intros Hne Hq Hpos.
  destruct (np_percentile_within frames q Hne Hq) as (lo & hi & Hlo & _ & Hb & _).
  pose proof (Hpos lo Hlo). lra.
Qed.

Lemma snr_percentile_arguments (frames : list R) (v : R) :
  (forall e, In e frames -> 0 < e) ->
  snr_percentile frames = Some v ->
  0 < np_percentile frames 10 + eps /\
  0 < np_percentile frames 90 + eps /\
  eps <= np_mean (low_frames frames) + eps /\
  eps <= np_mean (high_frames frames) + eps /\
  v = 10 * log10 ((np_mean (high_frames frames) + eps)
                  / (np_mean (low_frames frames) + eps)).
Proof.
  intros Hpos H. apply snr_percentile_Some in H as (Hlen & _ & _ & _ & ->).
  assert (Hne : frames <> []) by (destruct frames; [simpl in Hlen; lia | discriminate]).
  pose proof eps_pos.
  pose proof (np_percentile_pos frames 10 Hne ltac:(lia) Hpos).
  pose proof (np_percentile_pos frames 90 Hne ltac:(lia) Hpos).
  assert (0 <= np_mean (high_frames frames)).
  { apply np_mean_nonneg. intros e He. apply high_frames_spec in He as [He _].
    left. now apply Hpos. }
  assert (0 <= np_mean (low_frames frames)).
  { apply np_mean_nonneg. intros e He. apply low_frames_spec in He as [He _].
    left. now apply Hpos. }
  repeat split; lra.
Qed.

Lemma snr_tone_arguments (psd : list R) (v : R) :
  (forall x, In x psd -> 0 <= x) -> nth 0 psd 0 = 0 ->
  snr_tone psd = Some v ->
  let pk := np_argmax psd in
  let sig := np_sum (slice psd (Nat.max 1 (pk - 1)) (pk + 2)) in
  let noise := np_sum psd - sig + eps in
  0 < nth pk psd 0 <= sig /\ eps <= noise /\ v = 10 * log10 (sig / noise).
Proof.
  intros Hpos H0 H pk sig noise.
  apply snr_tone_inv in H as (Hmed & Hpk & ->). fold pk in Hpk |- *.
  fold sig. fold noise.
  assert (Hsig : sig = nth (pk - 1) psd 0 + nth pk psd 0 + nth (pk + 1) psd 0)
    by apply (signal_slice_sum psd _ H0).
  pose proof (nth_nonneg psd (pk - 1) Hpos).
  pose proof (nth_nonneg psd (pk + 1) Hpos).
  pose proof (np_sum_slice_le psd (Nat.max 1 (pk - 1)) (pk + 2) Hpos) as Hle.
  fold sig in Hle.
  repeat split; unfold noise; lra.
Qed.

(** X7: whenever the SNR estimator returns a value, every logarithm and
    every division on the way had a positive argument.  On the time-domain
    path both guarded percentiles of the dynamic-range test are positive
    and both guarded means are at least the guard, and the value is ten
    times the decimal logarithm of their ratio.  On the spectral path the
    window energy plus guard is positive, no bin of the spectrum is
    negative, the peak bin is positive and part of the signal sum, the
    noise is at least the guard, and the value is ten times the decimal
    logarithm of signal over noise. *)
Theorem snr_db_logarithms_defined (y : list R) (sr : Z) (v : R) :
  snr_db y sr = Ok (Some v) ->
  let frames := active_frames y sr in
  (snr_percentile frames = Some v /\
   0 < np_percentile frames 10 + eps /\
   0 < np_percentile frames 90 + eps /\
   eps <= np_mean (low_frames frames) + eps /\
   eps <= np_mean (high_frames frames) + eps /\
   v = 10 * log10 ((np_mean (high_frames frames) + eps)
                   / (np_mean (low_frames frames) + eps)))
  \/
  (snr_percentile frames = None /\
   exists nfft,
     nfft_of (length y) = Ok nfft /\ (4096 <= nfft)%nat /\
     let psd := power_spectrum y nfft in
     let pk := np_argmax psd in
     let sig := np_sum (slice psd (Nat.max 1 (pk - 1)) (pk + 2)) in
     let noise := np_sum psd - sig + eps in
     0 < np_sum (square (hanning nfft)) + eps /\
     (forall x, In x psd -> 0 <= x) /\
     0 < nth pk psd 0 <= sig /\
     eps <= noise /\
     v = 10 * log10 (sig / noise)).
Proof.
  intros H frames. unfold snr_db in H.
  destruct (Z.of_nat (length y) <? half_second sr)%Z; [discriminate |].
  fold frames in H.
  destruct (snr_percentile frames) as [w |] eqn:Hp.
  - injection H as ->. left. split; [reflexivity |].
    apply snr_percentile_arguments; [| assumption].
    intros e He. now apply (active_frames_pos y sr).
  - right. split; [reflexivity |].
    unfold snr_spectral in H.
    destruct (nfft_of (length y)) as [nfft |]; cbn [bind] in H; [| discriminate].
    exists nfft. split; [reflexivity |].
    destruct (Nat.ltb_spec nfft 4096) as [Hlt | Hge]; [discriminate |].
    split; [assumption |].
    injection H as H.
    assert (Hnn : forall x, In x (power_spectrum y nfft) -> 0 <= x)
      by (intros x; apply power_spectrum_nonneg).
    assert (H0 : nth 0 (power_spectrum y nfft) 0 = 0)
      by now rewrite power_spectrum_dc.
    destruct (snr_tone_arguments _ v Hnn H0 H) as (Hpk & Hnoise & Hv).
    cbv zeta. pose proof (np_sum_square_nonneg (hanning nfft)). pose proof eps_pos.
    repeat split; try assumption; try lra; apply Hpk.
Qed.

Lemma snr_db_logarithms_defined_witness :
  let v := 10 * log10 ((1 * 1 + eps) / (0.1 * 0.1 + eps)) in
  let frames := active_frames two_level_buffer 20 in
  (snr_percentile frames = Some v /\
   0 < np_percentile frames 10 + eps /\
   0 < np_percentile frames 90 + eps /\
   eps <= np_mean (low_frames frames) + eps /\
   eps <= np_mean (high_frames frames) + eps /\
   v = 10 * log10 ((np_mean (high_frames frames) + eps)
                   / (np_mean (low_frames frames) + eps)))
  \/
  (snr_percentile frames = None /\
   exists nfft,
     nfft_of (length two_level_buffer) = Ok nfft /\ (4096 <= nfft)%nat /\
     let psd := power_spectrum two_level_buffer nfft in
     let pk := np_argmax psd in
     let sig := np_sum (slice psd (Nat.max 1 (pk - 1)) (pk + 2)) in
     let noise := np_sum psd - sig + eps in
     0 < np_sum (square (hanning nfft)) + eps /\
     (forall x, In x psd -> 0 <= x) /\
     0 < nth pk psd 0 <= sig /\
     eps <= noise /\
     v = 10 * log10 (sig / noise)).
Proof.
  apply (snr_db_logarithms_defined two_level_buffer 20).
  apply snr_db_percentile_value.
  - cbn. lia.
  - exact snr_percentile_two_level_buffer.
Defined.

(* ================================================================== *)
(** ** Per-channel analysis: the rows *)

Section ChannelRows.

Variable pyln_Meter : Z -> Meter.

Lemma channel_metrics_fields (a : array2) (sr : Z) (c : nat) (r : channel_row) :
  channel_metrics pyln_Meter a sr c = Ok r ->
  ch r = c /\
  peak_dbfs (column a c) = Ok (ch_peak_dbfs r) /\
  ch_rms_dbfs r = rms_dbfs (column a c) /\
  ch_crest_db r = crest_db (ch_peak_dbfs r) (ch_rms_dbfs r) /\
  (forall e, integrated_loudness (pyln_Meter sr) (column a c) = Raise e ->
     ch_lufs r = None /\ ch_lufs_s r = None /\ ch_lufs_m r = None /\ ch_lra r = None) /\
  (forall L, integrated_loudness (pyln_Meter sr) (column a c) = Ok L ->
     ch_lufs r = Some L).
Proof.
  unfold channel_metrics.
  destruct (peak_dbfs (column a c)) as [pk | e]; cbn [bind]; [| discriminate].
  unfold r128_loudness_and_lra.
  destruct (integrated_loudness (pyln_Meter sr) (column a c)) as [L | e0];
    cbn [bind try_except]; intros [= <-]; cbn;
    repeat split; try discriminate; congruence.
Qed.

Lemma channel_rows_fields (a : array2) (sr : Z) (cs : list nat)
      (rows : list channel_row) :
  channel_rows pyln_Meter a sr cs = Ok rows ->
  Forall2 (fun c r =>
  ch r = c /\
  peak_dbfs (column a c) = Ok (ch_peak_dbfs r) /\
  ch_rms_dbfs r = rms_dbfs (column a c) /\
  ch_crest_db r = crest_db (ch_peak_dbfs r) (ch_rms_dbfs r) /\
  (forall e, integrated_loudness (pyln_Meter sr) (column a c) = Raise e ->
     ch_lufs r = None /\ ch_lufs_s r = None /\ ch_lufs_m r = None /\ ch_lra r = None) /\
  (forall L, integrated_loudness (pyln_Meter sr) (column a c) = Ok L ->
     ch_lufs r = Some L)) cs rows.
Proof.
  revert rows. induction cs as [| c rest IH]; intros rows; simpl.
  - intros [= <-]. constructor.
  - destruct (channel_metrics pyln_Meter a sr c) as [r | e] eqn:Hr; simpl;
      [| discriminate].
    destruct (channel_rows pyln_Meter a sr rest) as [rs | e] eqn:Hrs; simpl;
      [| discriminate].
    intros [= <-]. constructor; [exact (channel_metrics_fields a sr c r Hr) | now apply IH].
Qed.

Lemma Forall2_nth_error_right {A B : Type} (P : A -> B -> Prop)
      (l : list A) (l' : list B) :
  Forall2 P l l' ->
  forall i y, nth_error l' i = Some y ->
              exists x, nth_error l i = Some x /\ P x y.
Proof.
  induction 1 as [| x0 y0 l l' Hxy _ IH]; intros i y Hi.
  - destruct i; discriminate.
  - destruct i as [| i]; simpl in *.
    + injection Hi as <-. eauto.
    + eauto.
Qed.

(** X9: the per-channel table has one row per channel, in channel order; row
    [i] carries the index [i], the peak and RMS levels of channel [i] and
    their difference as crest factor; when the meter fails on a channel
    all four loudness fields of its row are NA and the table is still
    produced, and when it succeeds the integrated loudness is the
    meter's. *)
Theorem per_channel_rows (a : array2) (sr : Z)
        (rows : list channel_row) (extra : channel_extra) :
  per_channel_metrics pyln_Meter a sr = Ok (rows, extra) ->
  length rows = shape_C a /\
  forall i r, nth_error rows i = Some r ->
    ch r = i /\
    peak_dbfs (column a i) = Ok (ch_peak_dbfs r) /\
    ch_rms_dbfs r = rms_dbfs (column a i) /\
    ch_crest_db r = crest_db (ch_peak_dbfs r) (ch_rms_dbfs r) /\
    (forall e, integrated_loudness (pyln_Meter sr) (column a i) = Raise e ->
       ch_lufs r = None /\ ch_lufs_s r = None /\ ch_lufs_m r = None /\
       ch_lra r = None) /\
    (forall L, integrated_loudness (pyln_Meter sr) (column a i) = Ok L ->
       ch_lufs r = Some L).
Proof.
  intros H. apply per_channel_metrics_silent in H as [Hrows _].
  apply channel_rows_fields in Hrows.
  split.
  - rewrite <- (Forall2_length Hrows). apply length_seq.
  - intros i r Hi.
    destruct (Forall2_nth_error_right _ _ _ Hrows i r Hi) as (c & Hc & Hrow).
    assert (c = i).
    { assert (Hlt : (i < length (seq 0 (shape_C a)))%nat)
        by (apply nth_error_Some; congruence).
      rewrite length_seq in Hlt. rewrite nth_error_seq0 in Hc by assumption.
      congruence. }
    subst c. exact Hrow.
Qed.

End ChannelRows.

Lemma per_channel_rows_witness :
  exists rows extra,
    per_channel_metrics failing_meter one_dead_channel 48000 = Ok (rows, extra) /\
    length rows = shape_C one_dead_channel /\
    forall i r, nth_error rows i = Some r ->
      ch r = i /\
      peak_dbfs (column one_dead_channel i) = Ok (ch_peak_dbfs r) /\
      ch_rms_dbfs r = rms_dbfs (column one_dead_channel i) /\
      ch_crest_db r = crest_db (ch_peak_dbfs r) (ch_rms_dbfs r) /\
      (forall e, integrated_loudness (failing_meter 48000)
                   (column one_dead_channel i) = Raise e ->
         ch_lufs r = None /\ ch_lufs_s r = None /\ ch_lufs_m r = None /\
         ch_lra r = None) /\
      (forall L, integrated_loudness (failing_meter 48000)
                   (column one_dead_channel i) = Ok L ->
         ch_lufs r = Some L).
Proof.
  destruct (per_channel_metrics_total failing_meter one_dead_channel 48000)
    as (rows & extra & H); [discriminate |].
  exists rows, extra. split; [exact H |].
  exact (per_channel_rows failing_meter one_dead_channel 48000 rows extra H).
Defined.

(* ================================================================== *)
(** ** Per-channel analysis: the stereo consistency checks *)

Lemma np_sum_scale (k : R) (l : list R) : np_sum (scale k l) = k * np_sum l.
Proof.
  induction l as [| a l IH]; simpl; [ring |].
  change (k * a + np_sum (scale k l) = k * (a + np_sum l)). rewrite IH. ring.
Qed.

Lemma np_mean_scale (k : R) (l : list R) : np_mean (scale k l) = k * np_mean l.
Proof.
  unfold np_mean. rewrite np_sum_scale, length_scale. unfold Rdiv. ring.
Qed.

Lemma deviations_scale (k : R) (l : list R) :
  map (fun v => v - np_mean (scale k l)) (scale k l) =
  scale k (map (fun v => v - np_mean l) l).
Proof.
  rewrite np_mean_scale. unfold scale. rewrite !map_map.
  apply map_ext. intros v. ring.
Qed.

Lemma covariance_scale (k : R) (d : list R) :
  np_sum (map (fun p => fst p * snd p) (combine d (scale k d))) =
  k * np_sum (square d).
Proof.
  induction d as [| a d IH]; simpl; [ring |].
  change (a * (k * a)
          + np_sum (map (fun p => fst p * snd p) (combine d (scale k d)))
          = k * (a * a + np_sum (square d))).
  rewrite IH. ring.
Qed.

Lemma np_corrcoef_scaled (l : list R) (k : R) :
  k <> 0 -> 0 < np_sum (square (map (fun v => v - np_mean l) l)) ->
  np_corrcoef l (scale k l) = if Rltb 0 k then 1 else -1.
Proof.
  intros Hk HS. unfold np_corrcoef.
  rewrite deviations_scale, covariance_scale, np_sum_square_scale.
  set (S := np_sum (square (map (fun v => v - np_mean l) l))) in *.
  clearbody S.
  replace (S * (k * k * S)) with (Rsqr (k * S)) by (unfold Rsqr; ring).
  rewrite sqrt_Rsqr_abs.
  unfold Rltb. destruct (Rlt_dec 0 k) as [Hpos | Hneg].
  - rewrite Rabs_right by nra.
    replace (k * S / (k * S)) with 1 by (field; lra).
    rewrite Rmin_left, Rmax_right by lra. reflexivity.
  - assert (k < 0) by lra.
    rewrite Rabs_left by nra.
    replace (k * S / - (k * S)) with (-1) by (field; lra).
    rewrite Rmin_right, Rmax_right by lra. reflexivity.
Qed.

Lemma np_std_pos_energy (l : list R) :
  0 < np_std l -> 0 < np_sum (square (map (fun v => v - np_mean l) l)).
Proof.
  unfold np_std. intros H.
  set (d := map (fun v => v - np_mean l) l) in *.
  destruct (np_sum_square_nonneg d) as [Hpos | Hz]; [assumption |].
  exfalso. unfold np_mean in H. rewrite <- Hz in H.
  unfold Rdiv in H. rewrite Rmult_0_l, sqrt_0 in H. lra.
Qed.

(** mean, deviations and their squares are all exactly zero *)
Lemma np_std_zero (l : list R) :
  Forall (fun v => v = 0) l -> np_std l = 0.
Proof.
  intros H. unfold np_std.
  rewrite np_mean_square_zero; [apply sqrt_0 |].
  apply Forall_forall. intros v Hv. apply in_map_iff in Hv as (x & <- & Hx).
  rewrite Forall_forall in H. rewrite (H x Hx).
  assert (Hn : (0 < length l)%nat) by (destruct l; [destruct Hx | simpl; lia]).
  assert (E : np_mean l = 0).
  { apply Rle_antisym.
    - apply np_mean_le; [assumption |]. intros w Hw. rewrite (H w Hw). lra.
    - apply np_mean_ge; [assumption |]. intros w Hw. rewrite (H w Hw). lra. }
  rewrite E. ring.
Qed.

Lemma rms_linear_scale_abs (k : R) (y : list R) :
  sqrt (np_mean (square (scale k y))) = Rabs k * sqrt (np_mean (square y)).
Proof.
  unfold np_mean. rewrite np_sum_square_scale, length_square, length_scale.
  rewrite <- (length_square y).
  replace (k * k * np_sum (square y) / INR (length (square y)))
    with (Rsqr k * (np_sum (square y) / INR (length (square y))))
    by (unfold Rsqr, Rdiv; ring).
  rewrite sqrt_mult_alt by apply Rle_0_sqr.
  now rewrite sqrt_Rsqr_abs.
Qed.

Lemma guarded_level_gap (q k : R) :
  0 <= q -> 0 < k ->
  Rabs (20 * log10 (q + eps) - 20 * log10 (k * q + eps))
    <= 20 * Rabs (log10 k).
Proof.
  intros Hq Hk. pose proof eps_pos as He.
  assert (Hm : log10 (k * (q + eps)) = log10 k + log10 (q + eps))
    by (apply log10_mult; lra).
  destruct (Rle_lt_dec 1 k) as [Hge | Hlt].
  - assert (log10 (q + eps) <= log10 (k * q + eps)) by (apply log10_le; nra).
    assert (log10 (k * q + eps) <= log10 (k * (q + eps)))
      by (apply log10_le; nra).
    pose proof (log10_nonneg k Hge).
    rewrite (Rabs_right (log10 k)) by lra.
    apply Rabs_le. lra.
  - assert (log10 (k * q + eps) <= log10 (q + eps)) by (apply log10_le; nra).
    assert (log10 (k * (q + eps)) <= log10 (k * q + eps))
      by (apply log10_le; nra).
    assert (log10 k < 0).
    { rewrite <- log10_1. apply log10_lt; lra. }
    rewrite (Rabs_left (log10 k)) by lra.
    apply Rabs_le. lra.
Qed.

Section StereoChecks.

Variable pyln_Meter : Z -> Meter.

Lemma per_channel_metrics_extra (a : array2) (sr : Z)
      (rows : list channel_row) (extra : channel_extra) :
  per_channel_metrics pyln_Meter a sr = Ok (rows, extra) ->
  if (2 <=? shape_C a)%nat then
    lr_corr extra =
      (if (Rltb 1e-12 (np_std (column a 0)) && Rltb 1e-12 (np_std (column a 1)))%bool
       then Some (np_corrcoef (column a 0) (column a 1)) else None) /\
    channel_imbalance_db extra =
      match rms_dbfs (column a 0), rms_dbfs (column a 1) with
      | Finite l, Finite r => Some (Rabs (l - r))
      | _, _ => None
      end
  else lr_corr extra = None /\ channel_imbalance_db extra = None.
Proof.
  unfold per_channel_metrics.
  destruct (channel_rows pyln_Meter a sr (seq 0 (shape_C a))) as [rs | e];
    cbn [bind]; [| discriminate].
  destruct (2 <=? shape_C a)%nat; cbv beta iota zeta; intros [= <- <-];
    cbn [lr_corr channel_imbalance_db]; auto.
Qed.

Lemma per_channel_first_column (a : array2) (sr : Z)
      (rows : list channel_row) (extra : channel_extra) :
  (1 <= shape_C a)%nat ->
  per_channel_metrics pyln_Meter a sr = Ok (rows, extra) ->
  column a 0 <> [].
Proof.
  intros HC H. apply per_channel_metrics_silent in H as [Hrows _].
  apply channel_rows_inv in Hrows.
  assert (H0 : nth_error (seq 0 (shape_C a)) 0 = Some 0%nat)
    by now apply nth_error_seq0.
  destruct (Forall2_nth_error_left _ _ _ Hrows 0%nat 0%nat H0) as (r & _ & Hp).
  destruct Hp as [Hpk _].
  intros E. rewrite E in Hpk. discriminate.
Qed.

(** X10: when the second channel is the first multiplied by a non-zero gain
    and both pass the variation guard, the reported correlation is exactly
    1 for a positive gain and exactly -1 for a negative one (a polarity
    flip). *)
Theorem lr_corr_scaled_copy (a : array2) (sr : Z) (k : R)
        (rows : list channel_row) (extra : channel_extra) :
  (2 <= shape_C a)%nat -> k <> 0 ->
  column a 1 = scale k (column a 0) ->
  1e-12 < np_std (column a 0) -> 1e-12 < np_std (column a 1) ->
  per_channel_metrics pyln_Meter a sr = Ok (rows, extra) ->
  lr_corr extra = Some (if Rltb 0 k then 1 else -1).
Proof.
  intros HC Hk Hcopy HL HR H.
  apply per_channel_metrics_extra in H.
  destruct (Nat.leb_spec 2 (shape_C a)) as [_ | Hlt]; [| lia].
  destruct H as [-> _].
  apply Rltb_true in HL, HR. rewrite HL, HR. cbn [andb].
  rewrite Hcopy. f_equal. apply np_corrcoef_scaled; [assumption |].
  apply np_std_pos_energy. apply Rltb_true in HL. lra.
Qed.

(** X11: when the second channel is the first multiplied by a non-zero gain
    [k], the channel imbalance is reported and lies between 0 and
    20*|log10 |k||: the guard inside the logarithm can only hide part of
    the gain, never add to it; a pure polarity flip has imbalance 0. *)
Theorem imbalance_scaled_copy (a : array2) (sr : Z) (k : R)
        (rows : list channel_row) (extra : channel_extra) :
  (2 <= shape_C a)%nat -> k <> 0 ->
  column a 1 = scale k (column a 0) ->
  per_channel_metrics pyln_Meter a sr = Ok (rows, extra) ->
  exists d, channel_imbalance_db extra = Some d /\
            0 <= d <= 20 * Rabs (log10 (Rabs k)).
Proof.
  intros HC Hk Hcopy H.
  assert (Hne : column a 0 <> [])
    by (apply (per_channel_first_column a sr rows extra); [lia | exact H]).
  apply per_channel_metrics_extra in H.
  destruct (Nat.leb_spec 2 (shape_C a)) as [_ | Hlt]; [| lia].
  destruct H as [_ ->].
  rewrite Hcopy.
  assert (Hne' : scale k (column a 0) <> []).
  { intros E. apply Hne. apply length_zero_iff_nil.
    rewrite <- (length_scale k), E. reflexivity. }
  rewrite (rms_dbfs_eq _ Hne), (rms_dbfs_eq _ Hne'), rms_linear_scale_abs.
  eexists. split; [reflexivity |]. split; [apply Rabs_pos |].
  apply guarded_level_gap; [apply sqrt_pos | now apply Rabs_pos_lt].
Qed.

(** X12: no correlation is reported for an array with fewer than two
    channels, nor when one of the first two channels is dead (all of its
    samples are zero): the standard deviation of such a channel is exactly
    zero and the guard [std > 1e-12] keeps [np.corrcoef] from running. *)
Theorem lr_corr_none_for_dead_channel (a : array2) (sr : Z)
        (rows : list channel_row) (extra : channel_extra) :
  (shape_C a < 2)%nat \/
  Forall (fun v => v = 0) (column a 0) \/ Forall (fun v => v = 0) (column a 1) ->
  per_channel_metrics pyln_Meter a sr = Ok (rows, extra) ->
  lr_corr extra = None.
Proof.
  intros Hcase H. apply per_channel_metrics_extra in H.
  destruct (Nat.leb_spec 2 (shape_C a)) as [HC | Hlt]; [| tauto].
  destruct H as [-> _].
  destruct Hcase as [Hlt | [Hc | Hc]]; [lia | |];
    rewrite (np_std_zero _ Hc).
  - replace (Rltb 1e-12 0) with false; [reflexivity |].
    symmetry. apply Rltb_false. lra.
  - replace (Rltb 1e-12 0) with false; [now rewrite andb_false_r |].
    symmetry. apply Rltb_false. lra.
Qed.

End StereoChecks.

Lemma sqrt_gt (c x : R) : 0 <= c -> c * c < x -> c < sqrt x.
Proof.
  intros Hc Hx. rewrite <- (sqrt_square c Hc). apply sqrt_lt_1_alt. nra.
Qed.

Lemma np_std_inverted_pair :
  1e-12 < np_std (column inverted_pair 0) /\
  1e-12 < np_std (column inverted_pair 1).
Proof.
  split; apply sqrt_gt; try lra;
    unfold np_mean, square; cbn; lra.
Qed.

Lemma inverted_pair_copy :
  column inverted_pair 1 = scale (-1) (column inverted_pair 0).
Proof. cbn. list_eq. Qed.

Lemma lr_corr_scaled_copy_witness :
  exists rows extra,
    per_channel_metrics failing_meter inverted_pair 48000 = Ok (rows, extra) /\
    lr_corr extra = Some (if Rltb 0 (-1) then 1 else -1).
Proof.
  destruct (per_channel_metrics_total failing_meter inverted_pair 48000)
    as (rows & extra & H); [discriminate |].
  exists rows, extra. split; [exact H |].
  apply (lr_corr_scaled_copy failing_meter inverted_pair 48000 (-1) rows extra).
  - cbn. lia.
  - lra.
  - exact inverted_pair_copy.
  - apply np_std_inverted_pair.
  - apply np_std_inverted_pair.
  - exact H.
Defined.

Lemma imbalance_scaled_copy_witness :
  exists rows extra d,
    per_channel_metrics failing_meter inverted_pair 48000 = Ok (rows, extra) /\
    channel_imbalance_db extra = Some d /\
    0 <= d <= 20 * Rabs (log10 (Rabs (-1))).
Proof.
  destruct (per_channel_metrics_total failing_meter inverted_pair 48000)
    as (rows & extra & H); [discriminate |].
  destruct (imbalance_scaled_copy failing_meter inverted_pair 48000 (-1) rows extra)
    as (d & Hd & Hb).
  - cbn. lia.
  - lra.
  - exact inverted_pair_copy.
  - exact H.
  - exists rows, extra, d. auto.
Defined.

Lemma lr_corr_none_for_dead_channel_witness :
  exists rows extra,
    per_channel_metrics failing_meter one_dead_channel 48000 = Ok (rows, extra) /\
    lr_corr extra = None.
Proof.
  destruct (per_channel_metrics_total failing_meter one_dead_channel 48000)
    as (rows & extra & H); [discriminate |].
  exists rows, extra. split; [exact H |].
  apply (lr_corr_none_for_dead_channel failing_meter one_dead_channel 48000
           rows extra); [| exact H].
  right. right. cbn. repeat constructor.
Defined.

(* ================================================================== *)
(** ** True peak against sample peak *)

Lemma guard_raises_level (m : R) : 0 < m -> 20 * log10 m < 20 * log10 (m + eps).
Proof.
  intros Hm. pose proof eps_pos.
  assert (log10 m < log10 (m + eps)) by (apply log10_lt; lra). lra.
Qed.

Lemma true_peak_dbfs_inv (y : list R) (sr : Z) (os_factor : nat) (tp : R) :
  true_peak_dbfs y sr os_factor = Some tp ->
  exists m, np_max (map Rabs y) = Some m /\ 0 < m /\ tp = 20 * log10 m.
Proof.
  intros H. destruct y as [| v t]; [discriminate |].
  destruct (np_max_nonempty (map Rabs (v :: t))) as [m Hm]; [discriminate |].
  exists m. split; [assumption |].
  pose proof (np_max_abs_nonneg _ _ Hm) as [Hpos | <-].
  - rewrite (true_peak_dbfs_eq _ sr os_factor m Hm Hpos) in H.
    injection H as <-. auto.
  - rewrite true_peak_dbfs_zero in H; [discriminate |].
    now apply abs_max_zero.
Qed.

(** X13: whenever a true peak is reported it does not exceed the sample
    peak of [peak_dbfs]: the linear interpolation adds nothing to the
    largest sample, and the guard inside the logarithm of [peak_dbfs] can
    only raise its side. *)
Theorem true_peak_never_exceeds_peak (y : list R) (sr : Z) (os_factor : nat)
        (tp : R) :
  true_peak_dbfs y sr os_factor = Some tp ->
  exists pk, peak_dbfs y = Ok (Finite pk) /\ tp <= pk.
Proof.
  intros H. apply true_peak_dbfs_inv in H as (m & Hm & Hpos & ->).
  exists (20 * log10 (m + eps)). split; [now apply peak_dbfs_eq |].
  left. now apply guard_raises_level.
Qed.

Lemma true_peak_never_exceeds_peak_witness :
  exists pk, peak_dbfs [0.5; -1] = Ok (Finite pk) /\ 20 * log10 1 <= pk.
Proof.
  apply (true_peak_never_exceeds_peak [0.5; -1] 48000 4).
  apply true_peak_dbfs_eq; [| lra].
  simpl. f_equal. reval.
Defined.

(** ** [analyze_file]: outcome and row *)

Section AnalyzeFacts.

Variable pyln_Meter : Z -> Meter.

Lemma analyze_file_inv (y : list R) (sr : Z) (multi : result array2)
      (row : file_row) :
  analyze_file pyln_Meter y sr multi = Ok row ->
  row_sr row = sr /\
  peak_dbfs y = Ok (row_peak_dbfs row) /\
  row_rms_dbfs row = rms_dbfs y /\
  row_crest_db row = crest_db (row_peak_dbfs row) (row_rms_dbfs row) /\
  r128_loudness_and_lra pyln_Meter y sr =
    Ok (row_lufs row, row_lufs_s row, row_lufs_m row, row_lra row) /\
  snr_db y sr = Ok (row_snr_db row) /\
  row_true_peak_dbfs row = true_peak_dbfs y sr 4.
Proof.
  unfold analyze_file.
  destruct (peak_dbfs y) as [pk | e]; cbn [bind]; [| discriminate].
  destruct (r128_loudness_and_lra pyln_Meter y sr) as [[[[Li Ls] Lm] LRA] | e];
    cbn [bind]; [| discriminate].
  destruct (snr_db y sr) as [snr | e]; cbn [bind]; [| discriminate].
  match goal with
  | |- context [try_except ?m ?h] => destruct (try_except m h) as [rows extra]
  end.
  intros [= <-]. cbn. repeat split; reflexivity.
Qed.

(** X14: the analysis of a file fails in exactly two ways: with [ValueError]
    on an empty buffer, and with the exception of the meter when the
    integrated loudness of a non-empty buffer cannot be measured. *)
Theorem analyze_file_raises_iff (y : list R) (sr : Z) (multi : result array2)
        (e : exn) :
  analyze_file pyln_Meter y sr multi = Raise e <->
  (y = [] /\ e = ValueError) \/
  (y <> [] /\ integrated_loudness (pyln_Meter sr) y = Raise e).
Proof.
  destruct y as [| v t].
  - cbn. split.
    + intros [= <-]. now left.
    + intros [[_ ->] | [H _]]; [reflexivity | congruence].
  - assert (Hne : v :: t <> []) by discriminate.
    destruct (integrated_loudness (pyln_Meter sr) (v :: t)) as [L | e0] eqn:HL.
    + destruct (analyze_file_lufs pyln_Meter (v :: t) sr multi L Hne HL)
        as (row & -> & _).
      split; [discriminate |].
      intros [[H _] | [_ H]]; discriminate.
    + rewrite (analyze_file_raise pyln_Meter (v :: t) sr multi e0 Hne HL).
      split.
      * intros [= <-]. right. auto.
      * intros [[H _] | [_ [= <-]]]; [discriminate | reflexivity].
Qed.

(** X15: the optional multi-channel stage cannot change the outcome of the
    analysis: whatever the multi-channel read returns or raises, the
    analysis fails with the same exception or succeeds with the same
    sample rate, levels, true peak, loudness values and SNR. *)
Theorem multichannel_stage_isolated (y : list R) (sr : Z)
        (multi multi' : result array2) :
  match analyze_file pyln_Meter y sr multi,
        analyze_file pyln_Meter y sr multi' with
  | Ok row, Ok row' =>
      row_sr row = row_sr row' /\
      row_peak_dbfs row = row_peak_dbfs row' /\
      row_true_peak_dbfs row = row_true_peak_dbfs row' /\
      row_rms_dbfs row = row_rms_dbfs row' /\
      row_crest_db row = row_crest_db row' /\
      row_lufs row = row_lufs row' /\
      row_lufs_s row = row_lufs_s row' /\
      row_lufs_m row = row_lufs_m row' /\
      row_lra row = row_lra row' /\
      row_snr_db row = row_snr_db row'
  | Raise e, Raise e' => e = e'
  | _, _ => False
  end.
Proof.
  unfold analyze_file.
  destruct (peak_dbfs y) as [pk | e]; cbn [bind]; [| reflexivity].
  destruct (r128_loudness_and_lra pyln_Meter y sr) as [[[[Li Ls] Lm] LRA] | e];
    cbn [bind]; [| reflexivity].
  destruct (snr_db y sr) as [snr | e]; cbn [bind]; [| reflexivity].
  repeat match goal with
  | |- context [try_except ?m ?h] => destruct (try_except m h) as [? ?]
  end.
  cbn. repeat split; reflexivity.
Qed.

(** X16: every row the analysis returns carries the sample rate it was given,
    finite peak and RMS levels with floor <= RMS <= peak, their difference
    as crest factor, and a true peak, when present, not above the peak
    level. *)
Theorem analyze_file_row_levels (y : list R) (sr : Z) (multi : result array2)
        (row : file_row) :
  analyze_file pyln_Meter y sr multi = Ok row ->
  row_sr row = sr /\
  exists p r,
    row_peak_dbfs row = Finite p /\
    row_rms_dbfs row = Finite r /\
    row_crest_db row = Finite (p - r) /\
    floor_dbfs <= r /\ r <= p /\
    forall tp, row_true_peak_dbfs row = Some tp -> tp <= p.
Proof.
  intros H. apply analyze_file_inv in H as (Hsr & Hpk & Hrms & Hcr & _ & _ & Htp).
  split; [assumption |].
  assert (Hne : y <> []) by (intros ->; discriminate).
  destruct (np_max_nonempty (map Rabs y)) as [m Hm];
    [destruct y; [congruence | discriminate] |].
  rewrite (peak_dbfs_eq y m Hm) in Hpk. injection Hpk as Hpk.
  rewrite (rms_dbfs_eq y Hne) in Hrms.
  exists (20 * log10 (m + eps)), (20 * log10 (sqrt (np_mean (square y)) + eps)).
  rewrite Hcr, <- Hpk, Hrms.
  pose proof (level_bounds y m Hm) as [Hlo Hhi].
  repeat split; try assumption.
  intros tp Ht. rewrite Htp in Ht.
  apply true_peak_dbfs_inv in Ht as (m' & Hm' & Hpos & ->).
  assert (m' = m) by congruence. subst m'.
  left. now apply guard_raises_level.
Qed.

End AnalyzeFacts.

Lemma power_meter_loud_loudness :
  integrated_loudness (power_meter 48000) [0.5; -1] = Ok (Finite (-0.691 + 10 * log10 ((0.5 * 0.5 + (-1 * -1 + 0)) / (1 + 1)))).
Proof.
  cbn. unfold np_mean. cbn.
  assert (E : Rleb ((0.5 * 0.5 + (-1 * -1 + 0)) / (1 + 1)) 0 = false)
    by (apply Rleb_false; lra).
  now rewrite E.
Qed.

Lemma analyze_file_row_levels_witness :
  exists row,
    analyze_file power_meter [0.5; -1] 48000 (Raise ValueError) = Ok row /\
    row_sr row = 48000%Z /\
    exists p r,
      row_peak_dbfs row = Finite p /\
      row_rms_dbfs row = Finite r /\
      row_crest_db row = Finite (p - r) /\
      floor_dbfs <= r /\ r <= p /\
      forall tp, row_true_peak_dbfs row = Some tp -> tp <= p.
Proof.
  destruct (analyze_file_lufs power_meter [0.5; -1] 48000 (Raise ValueError) _
              ltac:(discriminate) power_meter_loud_loudness) as (row & Hrow & _).
  exists row. split; [exact Hrow |].
  exact (analyze_file_row_levels power_meter [0.5; -1] 48000 (Raise ValueError)
           row Hrow).
Defined.

(* ================================================================== *)
(** ** Judgements *)

Lemma warn_or_fail_not_NA (bound : option R) (inside : R -> bool) :
  warn_or_fail bound inside <> NA /\ warn_or_fail bound inside <> PASS.
Proof.
  unfold warn_or_fail. destruct bound as [w |]; [destruct (inside w) |];
    split; discriminate.
Qed.

Lemma judge_number_not_NA (v : R) (r : rule) : judge_number v r <> NA.
Proof.
  unfold judge_number.
  repeat match goal with
         | |- context [if ?b then _ else _] => destruct b
         end; try discriminate; apply warn_or_fail_not_NA.
Qed.

(** X17: a judgement is NA exactly for a missing value and for a float that is
    not finite; integers and finite floats are always judged PASS, WARN or
    FAIL. *)
Theorem judge_na_iff (val : pyval) (r : rule) :
  judge val r = Done NA <->
  val = VNone \/ exists f, val = VFloat f /\ isfinite f = false.
Proof.
  destruct val as [| f | z |]; cbn.
  - split; auto.
  - destruct f as [v | | |]; cbn.
    + split.
      * intros [= H]. now apply judge_number_not_NA in H.
      * intros [H | (f & [= <-] & H)]; discriminate.
    + split; [right; eexists; split; reflexivity | reflexivity].
    + split; [right; eexists; split; reflexivity | reflexivity].
    + split; [right; eexists; split; reflexivity | reflexivity].
  - split.
    + intros [= H]. now apply judge_number_not_NA in H.
    + intros [H | (f & H & _)]; discriminate.
  - split.
    + destruct (has_min r || has_max r)%bool; discriminate.
    + intros [H | (f & H & _)]; discriminate.
Qed.

Ltac rules_cases :=
  unfold judge_number, with_min, with_max, has_min, has_max, warn_or_fail,
    Rleb, Rltb;
  cbn [rule_min rule_max rule_warn_min rule_warn_max];
  repeat match goal with
         | |- context [Rle_dec ?a ?b] => destruct (Rle_dec a b)
         | |- context [Rlt_dec ?a ?b] => destruct (Rlt_dec a b)
         end;
  cbn [andb orb negb].

(** X18: the judgement of a number against a rule.  PASS: the number violates
    neither the configured minimum nor the configured maximum.  WARN: it is
    below the minimum but not below the configured warn minimum, or (not
    being below the minimum) above the maximum but not above the configured
    warn maximum.  FAIL: a bound is violated and the warn bound on that
    side is absent or violated as well. *)
Theorem judge_number_spec (v : R) (r : rule) :
  let below := match rule_min r with Some lo => v < lo | None => False end in
  let above := match rule_max r with Some hi => hi < v | None => False end in
  let warn_low := match rule_warn_min r with Some w => w <= v | None => False end in
  let warn_high := match rule_warn_max r with Some w => v <= w | None => False end in
  (judge_number v r = PASS <-> ~ below /\ ~ above) /\
  (judge_number v r = WARN <->
     (below /\ warn_low) \/ (~ below /\ above /\ warn_high)) /\
  (judge_number v r = FAIL <->
     (below /\ ~ warn_low) \/ (~ below /\ above /\ ~ warn_high)).
Proof.
  destruct r as [[lo |] [hi |] [wl |] [wh |]]; rules_cases;
    cbv zeta; cbn [rule_min rule_max rule_warn_min rule_warn_max];
    repeat split; intros; try discriminate; try reflexivity;
    try tauto; try lra;
    try (exfalso; intuition lra);
    try (intuition lra).
Qed.

Lemma mark_eqb_eq (a b : mark) : mark_eqb a b = true <-> a = b.
Proof. destruct a, b; cbn; split; intros; congruence. Qed.

Lemma has_mark_true (m : mark) (marks : list (string * mark)) :
  has_mark m marks = true <-> exists key, In (key, m) marks.
Proof.
  unfold has_mark. rewrite existsb_exists. split.
  - intros ([key m'] & Hin & E). apply mark_eqb_eq in E. cbn in E. subst.
    eauto.
  - intros (key & Hin). exists (key, m). split; [assumption |].
    now apply mark_eqb_eq.
Qed.

Lemma has_mark_false (m : mark) (marks : list (string * mark)) :
  has_mark m marks = false <-> forall key, ~ In (key, m) marks.
Proof.
  rewrite <- not_true_iff_false, has_mark_true. split.
  - intros H key Hin. apply H. eauto.
  - intros H (key & Hin). exact (H key Hin).
Qed.

(** X19: the verdict over a table of marks is FAIL exactly when some mark is
    FAIL, WARN exactly when none is FAIL and some is WARN, PASS exactly
    when every mark is PASS or NA; it is never NA. *)
Theorem verdict_from_marks_spec (marks : list (string * mark)) :
  (verdict_from_marks marks = FAIL <-> exists key, In (key, FAIL) marks) /\
  (verdict_from_marks marks = WARN <->
     (forall key, ~ In (key, FAIL) marks) /\ exists key, In (key, WARN) marks) /\
  (verdict_from_marks marks = PASS <->
     forall key m, In (key, m) marks -> m = PASS \/ m = NA) /\
  verdict_from_marks marks <> NA.
Proof.
  unfold verdict_from_marks.
  destruct (has_mark FAIL marks) eqn:HF; [| destruct (has_mark WARN marks) eqn:HW].
  - apply has_mark_true in HF. repeat split; try discriminate; auto.
    + intros [H _]. destruct HF as [key Hk]. now apply H in Hk.
    + intros H. destruct HF as [key Hk]. apply H in Hk as [|]; discriminate.
  - pose proof (proj1 (has_mark_false _ _) HF) as HF'. clear HF.
    rename HF' into HF. apply has_mark_true in HW.
    repeat split; try discriminate; auto.
    + intros [key Hk]. now apply HF in Hk.
    + intros H. destruct HW as [key Hk]. apply H in Hk as [|]; discriminate.
  - pose proof (proj1 (has_mark_false _ _) HF) as HF'.
    pose proof (proj1 (has_mark_false _ _) HW) as HW'.
    clear HF HW. rename HF' into HF. rename HW' into HW.
    repeat split; try discriminate; auto.
    + intros [key Hk]. now apply HF in Hk.
    + intros [_ [key Hk]]. now apply HW in Hk.
    + intros _ key m Hin. destruct m; auto.
      * now apply HW in Hin.
      * now apply HF in Hin.
Qed.

(* ================================================================== *)
(** ** Judging a row *)

Lemma judge_TypeError_iff (val : pyval) (r : rule) :
  judge val r = TypeError <-> val = VOther /\ (has_min r || has_max r)%bool = true.
Proof.
  destruct val as [| f | z |]; cbn.
  - split; [discriminate | intros [H _]; discriminate].
  - destruct f; split; try discriminate; intros [H _]; discriminate.
  - split; [discriminate | intros [H _]; discriminate].
  - destruct (has_min r || has_max r)%bool; split; auto; try discriminate.
    intros [_ H]. discriminate.
Qed.

Lemma opt_float_not_other (o : option R) : opt_float o <> VOther.
Proof. destruct o; discriminate. Qed.

Lemma row_get_VOther_iff (row : file_row) (key : string) :
  row_get row key = VOther <->
  key = "file"%string \/ key = "silent_channels"%string \/
  (key = "channels"%string /\ row_channels row <> None).
Proof.
  unfold row_get.
  repeat match goal with
         | |- context [String.eqb key ?s] =>
             destruct (String.eqb_spec key s) as [-> | ?]
         end;
    try (split; [auto | reflexivity]);
    try (split; [intros H; try discriminate; now apply opt_float_not_other in H
                | intros [H | [H | [H _]]]; discriminate]).
  - destruct (row_channels row) eqn:E.
    + split; [intros _; right; right; split; [reflexivity | discriminate]
             | reflexivity].
    + split; [discriminate |].
      intros [H | [H | [_ H]]]; try discriminate. congruence.
  - split; [discriminate |]. intros [H | [H | [H _]]]; congruence.
Qed.

Lemma format_marks_Done (row : file_row) (thresholds : list (string * rule))
      (out : list (string * mark)) :
  format_marks row thresholds = Done out ->
  Forall2 (fun kr km => fst km = fst kr /\
                        judge (row_get row (fst kr)) (snd kr) = Done (snd km))
          thresholds out.
Proof.
  revert out. induction thresholds as [| [key r] rest IH]; intros out; cbn.
  - intros [= <-]. constructor.
  - destruct (judge (row_get row key) r) as [m |] eqn:Hj; [| discriminate].
    destruct (format_marks row rest) as [o |]; [| discriminate].
    intros [= <-]. constructor; [cbn; auto | now apply IH].
Qed.

Lemma format_marks_TypeError (row : file_row) (thresholds : list (string * rule)) :
  format_marks row thresholds = TypeError <->
  exists key r, In (key, r) thresholds /\ judge (row_get row key) r = TypeError.
Proof.
  induction thresholds as [| [key r] rest IH]; cbn.
  - split; [discriminate | intros (k & r & [] & _)].
  - destruct (judge (row_get row key) r) as [m |] eqn:Hj.
    + destruct (format_marks row rest) as [o |].
      * split; [discriminate |].
        intros (k & r' & [[= <- <-] | Hin] & Hk); [congruence |].
        assert (E : Done o = TypeError) by (apply IH; eauto).
        discriminate E.
      * split; [| reflexivity].
        intros _. destruct (proj1 IH eq_refl) as (k & r' & Hin & H).
        exists k, r'. auto.
    + split; [| reflexivity]. intros _. exists key, r. auto.
Qed.

(** On rules with numeric bounds the judgement of a row raises exactly
    when a rule with a minimum or a maximum is attached to a key whose
    value is no number; otherwise there is one mark per rule, in order. *)
Lemma format_marks_numeric_raises_iff (row : file_row) (thresholds : list (string * rule)) :
  (format_marks row thresholds = TypeError <->
   exists key r,
     In (key, r) thresholds /\ (has_min r || has_max r)%bool = true /\
     (key = "file"%string \/ key = "silent_channels"%string \/
      (key = "channels"%string /\ row_channels row <> None))) /\
  (forall out, format_marks row thresholds = Done out ->
               map fst out = map fst thresholds).
Proof.
  split.
  - rewrite format_marks_TypeError. split.
    + intros (key & r & Hin & H). apply judge_TypeError_iff in H as [Hv Hb].
      apply row_get_VOther_iff in Hv. exists key, r. auto.
    + intros (key & r & Hin & Hb & Hk). exists key, r. split; [assumption |].
      apply judge_TypeError_iff. split; [| assumption].
      now apply row_get_VOther_iff.
  - intros out H. apply format_marks_Done in H.
    induction H as [| kr km th o [Hk _] _ IH]; cbn; [reflexivity |].
    now rewrite Hk, IH.
Qed.

Lemma marks_of_rules (row : file_row) (thresholds : list (string * rule))
      (marks : list (string * mark)) (m : mark) :
  format_marks row thresholds = Done marks ->
  (exists key, In (key, m) marks) <->
  (exists key r, In (key, r) thresholds /\ judge (row_get row key) r = Done m).
Proof.
  intros H. apply format_marks_Done in H.
  induction H as [| [k r] [k' m'] th o [Hk Hj] _ IH]; cbn in *.
  - split; [intros (key & []) | intros (key & r & [] & _)].
  - subst k'. split.
    + intros (key & [[= <- <-] | Hin]).
      * exists k, r. auto.
      * destruct (proj1 IH (ex_intro _ key Hin)) as (key' & r' & Hin' & Hj').
        exists key', r'. auto.
    + intros (key & r' & [[= <- <-] | Hin] & Hj').
      * exists k. left. congruence.
      * destruct (proj2 IH (ex_intro _ key (ex_intro _ r' (conj Hin Hj'))))
          as (key' & Hin').
        exists key'. auto.
Qed.

Lemma keys_marked_nil (m : mark) (marks : list (string * mark)) :
  has_mark m marks = false -> keys_marked m marks = [].
Proof.
  unfold has_mark, keys_marked. induction marks as [| kv marks IH]; cbn;
    [reflexivity |].
  destruct (mark_eqb (snd kv) m); cbn; [discriminate | exact IH].
Qed.

(** X21: verdict and reason of a file in the batch report.  The verdict is FAIL
    exactly when the row is near-silent or some rule judges FAIL; WARN
    exactly when the row is not near-silent, no rule judges FAIL and some
    rule judges WARN; it is PASS otherwise.  A near-silent row has the
    reason near-silence whatever the thresholds say, and a PASS has the
    empty reason. *)
Theorem row_verdict_spec (thresholds : list (string * rule)) (r : file_row)
        (v : mark) (reason : string) :
  row_verdict thresholds r = Done (v, reason) ->
  (v = FAIL <->
     is_near_silence r = true \/
     exists key rl, In (key, rl) thresholds /\
                    judge (row_get r key) rl = Done FAIL) /\
  (v = WARN <->
     is_near_silence r = false /\
     (forall key rl, In (key, rl) thresholds ->
                     judge (row_get r key) rl <> Done FAIL) /\
     exists key rl, In (key, rl) thresholds /\
                    judge (row_get r key) rl = Done WARN) /\
  (v = PASS \/ v = WARN \/ v = FAIL) /\
  (is_near_silence r = true -> reason = "near-silence"%string) /\
  (v = PASS -> reason = EmptyString).
Proof.
  unfold row_verdict.
  destruct (format_marks r thresholds) as [marks |] eqn:Hm; [| discriminate].
  pose proof (marks_of_rules r thresholds marks FAIL Hm) as HF.
  pose proof (marks_of_rules r thresholds marks WARN Hm) as HW.
  destruct (is_near_silence r) eqn:Hs.
  - intros [= <- <-]. repeat split; auto; try discriminate.
    intros [H _]. discriminate.
  - unfold verdict_from_marks.
    destruct (has_mark FAIL marks) eqn:EF;
      [| destruct (has_mark WARN marks) eqn:EW].
    + intros [= <- <-]. apply has_mark_true in EF. apply HF in EF.
      repeat split; auto; try discriminate.
      intros (_ & Hno & _). destruct EF as (key & rl & Hin & Hj).
      exfalso. exact (Hno key rl Hin Hj).
    + intros [= <- <-]. apply has_mark_true in EW. apply HW in EW.
      assert (Hno : forall key rl, In (key, rl) thresholds ->
                                   judge (row_get r key) rl <> Done FAIL).
      { intros key rl Hin Hj.
        assert (E : has_mark FAIL marks = true)
          by (apply has_mark_true, HF; eauto).
        congruence. }
      repeat split; auto; try discriminate.
      intros [H | (key & rl & Hin & Hj)]; [discriminate |].
      exfalso. exact (Hno key rl Hin Hj).
    + rewrite (keys_marked_nil _ _ EF), (keys_marked_nil _ _ EW).
      intros [= <- <-].
      repeat split; auto; try discriminate.
      * intros [H | H]; [discriminate |].
        assert (E : has_mark FAIL marks = true) by (apply has_mark_true, HF, H).
        congruence.
      * intros (_ & _ & H).
        assert (E : has_mark WARN marks = true) by (apply has_mark_true, HW, H).
        congruence.
Qed.

Lemma loud_row_not_silent : is_near_silence loud_row = false.
Proof.
  unfold is_near_silence, loud_row, flt. cbn.
  apply orb_false_iff. split; apply Rltb_false; lra.
Qed.

Lemma loud_row_marks :
  format_marks loud_row sample_thresholds =
    Done [("peak_dbfs"%string, PASS); ("snr_db"%string, WARN); ("lra"%string, NA)].
Proof.
  cbn. unfold judge_number, with_min, with_max, has_min, has_max, warn_or_fail.
  cbn.
  assert (E1 : Rleb (-1) (-0.5) = true) by (apply Rleb_true; lra).
  assert (E2 : Rleb 20 15 = false) by (apply Rleb_false; lra).
  assert (E3 : Rltb 15 20 = true) by (apply Rltb_true; lra).
  assert (E4 : Rleb 10 15 = true) by (apply Rleb_true; lra).
  rewrite E1, E2, E3, E4. reflexivity.
Qed.

Lemma loud_row_verdict :
  row_verdict sample_thresholds loud_row = Done (WARN, "snr_db"%string).
Proof.
  unfold row_verdict. rewrite loud_row_marks, loud_row_not_silent. reflexivity.
Qed.

Lemma row_verdict_spec_witness :
  (WARN = FAIL <->
     is_near_silence loud_row = true \/
     exists key rl, In (key, rl) sample_thresholds /\
                    judge (row_get loud_row key) rl = Done FAIL) /\
  (WARN = WARN <->
     is_near_silence loud_row = false /\
     (forall key rl, In (key, rl) sample_thresholds ->
                     judge (row_get loud_row key) rl <> Done FAIL) /\
     exists key rl, In (key, rl) sample_thresholds /\
                    judge (row_get loud_row key) rl = Done WARN) /\
  (WARN = PASS \/ WARN = WARN \/ WARN = FAIL) /\
  (is_near_silence loud_row = true -> "snr_db"%string = "near-silence"%string) /\
  (WARN = PASS -> "snr_db"%string = EmptyString).
Proof.
  apply (row_verdict_spec sample_thresholds loud_row WARN "snr_db").
  exact loud_row_verdict.
Defined.

(** ** Judging a row against the rules of a YAML file *)

Ltac raw_cases :=
  unfold judge_raw_number, guarded, compare_bound, tbind, present, get_bound,
    warn_or_fail, Rleb, Rltb;
  cbn [raw_min raw_max raw_warn_min raw_warn_max andb orb negb];
  repeat match goal with
         | |- context [Rle_dec ?a ?b] => destruct (Rle_dec a b)
         | |- context [Rlt_dec ?a ?b] => destruct (Rlt_dec a b)
         end;
  cbn [andb orb negb].

(** when a number meets a null bound *)
Lemma judge_raw_number_TypeError (v : R) (r : raw_rule) :
  judge_raw_number v r = TypeError <->
  raw_min r = Null \/
  (raw_max r = Null /\
   (raw_min r = Absent \/ exists lo, raw_min r = Num lo /\ lo <= v)).
Proof.
  destruct r as [mn mx wmn wmx]. destruct mn as [| | lo], mx as [| | hi];
    raw_cases;
    repeat match goal with
           | |- context [match ?b with Absent => _ | Null => _ | Num _ => _ end] =>
               destruct b
           end;
    repeat match goal with
           | |- context [Rle_dec ?a ?b] => destruct (Rle_dec a b)
           | |- context [Rlt_dec ?a ?b] => destruct (Rlt_dec a b)
           end;
    split; intros H; try discriminate; try reflexivity; auto;
    try (destruct H as [H | [H H']]; try discriminate;
         destruct H' as [H' | (lo' & H' & Hle)]; try discriminate;
         injection H' as <-; lra);
    try (right; split; [reflexivity |]; right; eexists; split; [reflexivity | lra]);
    try lra.
Qed.

(** on rules with numeric bounds the two readings of [judge] agree *)
Lemma judge_raw_number_numeric (v : R) (r : rule) :
  judge_raw_number v (raw_of r) = Done (judge_number v r).
Proof.
  destruct r as [[lo |] [hi |] wl wh];
    unfold raw_of, bound_of, judge_number, with_min, with_max, has_min, has_max;
    cbn [rule_min rule_max rule_warn_min rule_warn_max];
    raw_cases; destruct wl, wh; try reflexivity; try lra.
Qed.

Lemma judge_raw_numeric (val : pyval) (r : rule) :
  judge_raw val (raw_of r) = judge val r.
Proof.
  destruct val as [| f | z |]; cbn [judge_raw judge].
  - reflexivity.
  - destruct f; try reflexivity. apply judge_raw_number_numeric.
  - apply judge_raw_number_numeric.
  - destruct r as [[lo |] [hi |] wl wh]; reflexivity.
Qed.

Lemma format_marks_raw_numeric (row : file_row) (thresholds : list (string * rule)) :
  format_marks_raw row (map (fun kr => (fst kr, raw_of (snd kr))) thresholds)
  = format_marks row thresholds.
Proof.
  induction thresholds as [| [key r] rest IH]; cbn [map format_marks_raw format_marks fst snd];
    [reflexivity |].
  rewrite judge_raw_numeric, IH.
  destruct (judge (row_get row key) r); cbn [tbind]; [| reflexivity].
  destruct (format_marks row rest); reflexivity.
Qed.

Lemma judge_raw_TypeError (val : pyval) (r : raw_rule) :
  judge_raw val r = TypeError <->
  (val = VOther /\ (present (raw_min r) || present (raw_max r))%bool = true) \/
  exists v,
    (val = VFloat (Finite v) \/ exists z, val = VInt z /\ v = IZR z) /\
    (raw_min r = Null \/
     (raw_max r = Null /\
      (raw_min r = Absent \/ exists lo, raw_min r = Num lo /\ lo <= v))).
Proof.
  destruct val as [| f | z |]; cbn [judge_raw].
  - split; [discriminate |].
    intros [[H _] | (v & [H | (z & H & _)] & _)]; discriminate.
  - destruct f as [x | | |].
    + rewrite judge_raw_number_TypeError. split.
      * intros H. right. exists x. auto.
      * intros [[H _] | (v & [[= <-] | (z & H & _)] & Hb)];
          [discriminate | assumption | discriminate].
    + split; [discriminate |].
      intros [[H _] | (v & [H | (z & H & _)] & _)]; discriminate.
    + split; [discriminate |].
      intros [[H _] | (v & [H | (z & H & _)] & _)]; discriminate.
    + split; [discriminate |].
      intros [[H _] | (v & [H | (z & H & _)] & _)]; discriminate.
  - rewrite judge_raw_number_TypeError. split.
    + intros H. right. exists (IZR z). split; [right; eauto | assumption].
    + intros [[H _] | (v & [H | (z' & [= <-] & ->)] & Hb)];
        [discriminate | discriminate | assumption].
  - destruct (present (raw_min r) || present (raw_max r))%bool.
    + split; auto.
    + split; [discriminate |].
      intros [[_ H] | (v & [H | (z & H & _)] & _)]; discriminate.
Qed.

Lemma format_marks_raw_TypeError (row : file_row)
      (thresholds : list (string * raw_rule)) :
  format_marks_raw row thresholds = TypeError <->
  exists key r, In (key, r) thresholds /\ judge_raw (row_get row key) r = TypeError.
Proof.
  induction thresholds as [| [key r] rest IH]; cbn [format_marks_raw].
  - split; [discriminate | intros (k & r & [] & _)].
  - destruct (judge_raw (row_get row key) r) as [m |] eqn:Hj; cbn [tbind].
    + destruct (format_marks_raw row rest) as [o |]; cbn [tbind].
      * split; [discriminate |].
        intros (k & r' & [[= <- <-] | Hin] & Hk); [congruence |].
        assert (E : Done o = TypeError) by (apply IH; eauto).
        discriminate E.
      * split; [| reflexivity].
        intros _. destruct (proj1 IH eq_refl) as (k & r' & Hin & H).
        exists k, r'. split; [now right | assumption].
    + split; [| reflexivity]. intros _. exists key, r. split; [now left | assumption].
Qed.

Lemma format_marks_raw_keys (row : file_row)
      (thresholds : list (string * raw_rule)) (out : list (string * mark)) :
  format_marks_raw row thresholds = Done out -> map fst out = map fst thresholds.
Proof.
  revert out. induction thresholds as [| [key r] rest IH]; intros out;
    cbn [format_marks_raw].
  - intros [= <-]. reflexivity.
  - destruct (judge_raw (row_get row key) r) as [m |]; cbn [tbind]; [| discriminate].
    destruct (format_marks_raw row rest) as [o |]; cbn [tbind]; [| discriminate].
    intros [= <-]. cbn. now rewrite (IH o eq_refl).
Qed.

(** X20: judging a row against the rules of a YAML file, whose bounds may
    be null.  [TypeError] is raised exactly when some rule either has a
    minimum or a maximum and sits on a key whose value is no number (the
    file name, the list of silent channels, the per-channel table when
    present), or sits on a numeric value and has a null minimum, or a null
    maximum that a comparison reaches: the minimum is absent, or it is a
    number not above the value.  Otherwise there is one mark per rule,
    under the rule's key and in the order of the rules.  On rules with
    numeric bounds this is [format_marks] as modelled above. *)
Theorem format_marks_raw_raises_iff (row : file_row)
        (thresholds : list (string * raw_rule)) :
  (format_marks_raw row thresholds = TypeError <->
   exists key r,
     In (key, r) thresholds /\
     (((present (raw_min r) || present (raw_max r))%bool = true /\
       (key = "file"%string \/ key = "silent_channels"%string \/
        (key = "channels"%string /\ row_channels row <> None)))
      \/
      exists v,
        (row_get row key = VFloat (Finite v) \/
         exists z, row_get row key = VInt z /\ v = IZR z) /\
        (raw_min r = Null \/
         (raw_max r = Null /\
          (raw_min r = Absent \/ exists lo, raw_min r = Num lo /\ lo <= v))))) /\
  (forall out, format_marks_raw row thresholds = Done out ->
               map fst out = map fst thresholds) /\
  (forall numeric : list (string * rule),
      format_marks_raw row (map (fun kr => (fst kr, raw_of (snd kr))) numeric)
      = format_marks row numeric).
Proof.
  split; [| split; [apply format_marks_raw_keys | apply format_marks_raw_numeric]].
  rewrite format_marks_raw_TypeError. split.
  - intros (key & r & Hin & H). exists key, r. split; [assumption |].
    apply judge_raw_TypeError in H as [[Hv Hb] | Hnum].
    + left. split; [assumption |]. now apply row_get_VOther_iff.
    + right. exact Hnum.
  - intros (key & r & Hin & [[Hb Hk] | Hnum]); exists key, r;
      (split; [assumption |]); apply judge_raw_TypeError.
    + left. split; [| assumption]. now apply row_get_VOther_iff.
    + right. exact Hnum.
Qed.

Lemma format_marks_raw_raises_iff_witness :
  format_marks_raw loud_row null_minimum = TypeError.
Proof.
  apply (proj1 (format_marks_raw_raises_iff loud_row null_minimum)).
  eexists _, _. split; [left; reflexivity |].
  right. exists (-1). split; [left; reflexivity | left; reflexivity].
Defined.

(** ** The batch *)

Lemma row_verdict_TypeError (thresholds : list (string * rule)) (r : file_row) :
  row_verdict thresholds r = TypeError <-> format_marks r thresholds = TypeError.
Proof.
  unfold row_verdict. destruct (format_marks r thresholds); [| tauto].
  destruct (is_near_silence r); split; discriminate.
Qed.

Lemma batch_tally_acc (thresholds : list (string * rule)) (rows : list file_row)
      (t : tally) :
  match batch_tally thresholds rows t with
  | TypeError => exists r, In r rows /\ format_marks r thresholds = TypeError
  | Done t' =>
      (pass_n t' + fail_n t' + warn_n t'
       = pass_n t + fail_n t + warn_n t + length rows)%nat /\
      (fail_n t <= fail_n t')%nat /\
      ((fail_n t < fail_n t')%nat <->
       exists r reason, In r rows /\ row_verdict thresholds r = Done (FAIL, reason))
  end.
Proof.
  revert t. induction rows as [| r rows IH]; intros t; cbn.
  - repeat split; try lia. intros (r & reason & [] & _).
  - destruct (row_verdict thresholds r) as [[v reason] |] eqn:Hv.
    + specialize (IH (count_verdict v t)).
      destruct (batch_tally thresholds rows (count_verdict v t)) as [t' |].
      * destruct IH as (Hsum & Hle & Hiff).
        assert (Hc : (pass_n (count_verdict v t) + fail_n (count_verdict v t)
                      + warn_n (count_verdict v t)
                      = S (pass_n t + fail_n t + warn_n t))%nat
                     /\ fail_n (count_verdict v t)
                        = (fail_n t + if mark_eqb v FAIL then 1 else 0)%nat).
        { destruct v; cbn; lia. }
        destruct Hc as [Hc1 Hc2].
        repeat split; try lia.
        -- intros Hlt.
           destruct (mark_eqb v FAIL) eqn:E.
           ++ apply mark_eqb_eq in E. subst v. exists r, reason. auto.
           ++ assert (Hlt' : (fail_n (count_verdict v t) < fail_n t')%nat) by lia.
              apply Hiff in Hlt' as (r' & reason' & Hin & Hr').
              exists r', reason'. auto.
        -- intros (r' & reason' & [<- | Hin] & Hr').
           ++ rewrite Hv in Hr'. injection Hr' as -> _.
              change (mark_eqb FAIL FAIL) with true in Hc2. cbv iota in Hc2. lia.
           ++ assert (fail_n (count_verdict v t) < fail_n t')%nat; [| lia].
              apply Hiff. eauto.
      * destruct IH as (r' & Hin & Hr'). exists r'. auto.
    + exists r. split; [now left |]. now apply row_verdict_TypeError.
Qed.

(** X22: the batch loop either stops on a row whose judgement raises
    [TypeError], or its three counters add up to the number of rows and
    the exit status is 1 exactly when some row has the verdict FAIL, and 0
    exactly when none has. *)
Theorem batch_summary_and_exit (thresholds : list (string * rule))
        (rows : list file_row) :
  match batch_tally thresholds rows {| pass_n := 0; fail_n := 0; warn_n := 0 |} with
  | TypeError => exists r, In r rows /\ format_marks r thresholds = TypeError
  | Done t =>
      (pass_n t + fail_n t + warn_n t = length rows)%nat /\
      (exit_status t = 1%Z <->
       exists r reason, In r rows /\ row_verdict thresholds r = Done (FAIL, reason)) /\
      (exit_status t = 0%Z <->
       forall r reason, In r rows -> row_verdict thresholds r <> Done (FAIL, reason))
  end.
Proof.
  pose proof (batch_tally_acc thresholds rows
                {| pass_n := 0; fail_n := 0; warn_n := 0 |}) as H.
  destruct (batch_tally thresholds rows _) as [t |]; [| exact H].
  cbn in H. destruct H as (Hsum & _ & Hiff).
  unfold exit_status.
  destruct (Nat.ltb_spec 0 (fail_n t)) as [Hpos | Hz].
  - repeat split; try lia; try discriminate.
    + intros _. now apply Hiff.
    + intros Hno. apply Hiff in Hpos as (r & reason & Hin & Hr).
      now apply Hno in Hr.
  - repeat split; try lia; try discriminate.
    + intros Hex. apply Hiff in Hex. lia.
    + intros _ r reason Hin Hr.
      assert (0 < fail_n t)%nat by (apply Hiff; eauto). lia.
Qed.

(* ================================================================== *)
(** ** The silence gate *)

Lemma level_below_pow (x : R) (n : nat) :
  0 < x -> (20 * log10 x < - (20 * INR n) <-> x < / 10 ^ n).
Proof.
  intros Hx. split; intros H.
  - destruct (Rlt_le_dec x (/ 10 ^ n)) as [Hlt | Hge]; [assumption |].
    pose proof (log10_ge_neg x n Hge). lra.
  - assert (log10 x < log10 (/ 10 ^ n)) by (now apply log10_lt).
    rewrite log10_inv_pow10 in H0. lra.
Qed.

Lemma flt_level_80 (x : R) :
  0 < x -> (flt (Finite (20 * log10 x)) (-80) = true <-> x < 1e-4).
Proof.
  intros Hx. unfold flt. rewrite Rltb_true.
  replace (-80) with (- (20 * INR 4)) by (simpl; lra).
  replace 1e-4 with (/ 10 ^ 4) by (simpl; lra).
  now apply level_below_pow.
Qed.

Lemma flt_level_60 (x : R) :
  0 < x -> (flt (Finite (20 * log10 x)) (-60) = true <-> x < 1e-3).
Proof.
  intros Hx. unfold flt. rewrite Rltb_true.
  replace (-60) with (- (20 * INR 3)) by (simpl; lra).
  replace 1e-3 with (/ 10 ^ 3) by (simpl; lra).
  now apply level_below_pow.
Qed.

Section SilenceGate.

Variable pyln_Meter : Z -> Meter.

(** X23: the silence gate in linear amplitude: a row returned by the analysis
    is near-silent exactly when the RMS of the buffer plus the guard is
    below 1e-4 or its largest magnitude plus the guard is below 1e-3. *)
Theorem near_silence_linear (y : list R) (sr : Z) (multi : result array2)
        (row : file_row) (m : R) :
  analyze_file pyln_Meter y sr multi = Ok row ->
  np_max (map Rabs y) = Some m ->
  (is_near_silence row = true <->
   sqrt (np_mean (square y)) + eps < 1e-4 \/ m + eps < 1e-3).
Proof.
  intros H Hm. apply analyze_file_inv in H as (_ & Hpk & Hrms & _).
  assert (Hne : y <> []) by (intros ->; discriminate).
  rewrite (peak_dbfs_eq y m Hm) in Hpk. injection Hpk as Hpk.
  rewrite (rms_dbfs_eq y Hne) in Hrms.
  unfold is_near_silence. rewrite <- Hpk, Hrms, orb_true_iff.
  pose proof eps_pos. pose proof (sqrt_pos (np_mean (square y))).
  pose proof (np_max_abs_nonneg y m Hm).
  rewrite flt_level_80, flt_level_60 by lra. reflexivity.
Qed.

(** X24: digital silence through the whole chain: when the meter returns an
    integrated loudness, the row of a non-empty all-zero buffer has peak
    and RMS at the floor 20*log10(1e-12), crest factor 0, no true peak and
    no SNR, and under every thresholds file its verdict is FAIL with the
    reason near-silence, unless the judgement itself raises. *)
Theorem silence_is_rejected (y : list R) (sr : Z) (multi : result array2)
        (L : float) :
  y <> [] -> Forall (fun v => v = 0) y ->
  integrated_loudness (pyln_Meter sr) y = Ok L ->
  exists row,
    analyze_file pyln_Meter y sr multi = Ok row /\
    row_peak_dbfs row = Finite floor_dbfs /\
    row_rms_dbfs row = Finite floor_dbfs /\
    row_crest_db row = Finite 0 /\
    row_true_peak_dbfs row = None /\
    row_snr_db row = None /\
    forall thresholds,
      row_verdict thresholds row = TypeError \/
      row_verdict thresholds row = Done (FAIL, "near-silence"%string).
Proof.
  intros Hne Hz HL.
  destruct (analyze_file_lufs pyln_Meter y sr multi L Hne HL) as (row & Hrow & _).
  exists row. split; [assumption |].
  apply analyze_file_inv in Hrow as (_ & Hpk & Hrms & Hcr & _ & Hsnr & Htp).
  rewrite (peak_dbfs_zero y Hne Hz) in Hpk. injection Hpk as Hpk.
  rewrite (rms_dbfs_zero y Hne Hz) in Hrms.
  rewrite (snr_db_zero y sr Hne Hz) in Hsnr. injection Hsnr as Hsnr.
  rewrite (true_peak_dbfs_zero y sr 4 Hz) in Htp.
  rewrite Hcr, <- Hpk, Hrms.
  repeat split; auto.
  - cbn. f_equal. lra.
  - intros thresholds. unfold row_verdict.
    destruct (format_marks row thresholds); [| now left].
    right. unfold is_near_silence. rewrite Hrms. cbn.
    replace (Rltb floor_dbfs (-80)) with true; [reflexivity |].
    symmetry. apply Rltb_true. rewrite floor_dbfs_value. lra.
Qed.

End SilenceGate.

Lemma power_meter_silence_loudness :
  integrated_loudness (power_meter 48000) [0; 0; 0] = Ok NInf.
Proof.
  cbn. unfold np_mean. cbn.
  assert (E : Rleb ((0 * 0 + (0 * 0 + (0 * 0 + 0))) / (1 + 1 + 1)) 0 = true)
    by (apply Rleb_true; lra).
  now rewrite E.
Qed.

Lemma silence_is_rejected_witness :
  exists row,
    analyze_file power_meter [0; 0; 0] 48000 (Raise ValueError) = Ok row /\
    row_peak_dbfs row = Finite floor_dbfs /\
    row_rms_dbfs row = Finite floor_dbfs /\
    row_crest_db row = Finite 0 /\
    row_true_peak_dbfs row = None /\
    row_snr_db row = None /\
    forall thresholds,
      row_verdict thresholds row = TypeError \/
      row_verdict thresholds row = Done (FAIL, "near-silence"%string).
Proof.
  apply (silence_is_rejected power_meter [0; 0; 0] 48000 (Raise ValueError) NInf).
  - discriminate.
  - repeat constructor.
  - exact power_meter_silence_loudness.
Defined.

Lemma near_silence_linear_witness :
  exists row,
    analyze_file power_meter [0; 0; 0] 48000 (Raise ValueError) = Ok row /\
    (is_near_silence row = true <->
     sqrt (np_mean (square [0; 0; 0])) + eps < 1e-4 \/ 0 + eps < 1e-3).
Proof.
  destruct (analyze_file_lufs power_meter [0; 0; 0] 48000 (Raise ValueError) NInf)
    as (row & Hrow & _).
  - discriminate.
  - exact power_meter_silence_loudness.
  - exists row. split; [exact Hrow |].
    apply (near_silence_linear power_meter [0; 0; 0] 48000 (Raise ValueError) row 0).
    + exact Hrow.
    + apply np_max_abs_zero; [discriminate | repeat constructor].
Defined.

(** ** Decoding: full scale and the mono down-mix *)

Lemma Rabs_np_sum_le (l : list R) (m : R) :
  (forall v, In v l -> Rabs v <= m) -> Rabs (np_sum l) <= INR (length l) * m.
Proof.
  induction l as [| a l IH]; intros H.
  - cbn. rewrite Rabs_R0. lra.
  - rewrite np_sum_cons. cbn [length]. rewrite S_INR.
    pose proof (Rabs_triang a (np_sum l)).
    assert (Rabs a <= m) by (apply H; now left).
    assert (Rabs (np_sum l) <= INR (length l) * m)
      by (apply IH; intros v Hv; apply H; now right).
    lra.
Qed.

Lemma Rabs_np_mean_le (l : list R) (m : R) :
  l <> [] -> (forall v, In v l -> Rabs v <= m) -> Rabs (np_mean l) <= m.
Proof.
  intros Hne H. unfold np_mean.
  assert (Hn : 0 < INR (length l)).
  { apply lt_0_INR. destruct l; [congruence | simpl; lia]. }
  unfold Rdiv. rewrite Rabs_mult, (Rabs_right (/ INR (length l))).
  - pose proof (Rabs_np_sum_le l m H).
    apply Rmult_le_reg_r with (INR (length l)); [assumption |].
    rewrite Rmult_assoc, Rinv_l by lra. lra.
  - left. now apply Rinv_0_lt_compat.
Qed.

(** X25: the mono down-mix (the mean over the channels of each frame) of a
    well-shaped array with at least one frame and one channel is never
    louder in peak than the loudest channel. *)
Theorem downmix_peak_le_channel_peak (a : array2) :
  frames_of a <> [] -> (1 <= shape_C a)%nat ->
  (forall fr, In fr (frames_of a) -> length fr = shape_C a) ->
  exists c p pc,
    (c < shape_C a)%nat /\
    peak_dbfs (downmix a) = Ok (Finite p) /\
    peak_dbfs (column a c) = Ok (Finite pc) /\
    p <= pc.
Proof.
  intros Hne HC Hshape.
  assert (Hd : map Rabs (downmix a) <> []).
  { unfold downmix. destruct (frames_of a); [congruence | discriminate]. }
  destruct (np_max_nonempty _ Hd) as [md Hmd].
  destruct (np_max_spec _ _ Hmd) as [Hin _].
  apply in_map_iff in Hin as (x & Hx & Hin).
  unfold downmix in Hin. apply in_map_iff in Hin as (fr & Hfr & Hin).
  assert (Hlen : length fr = shape_C a) by now apply Hshape.
  assert (Hfne : fr <> []) by (intros ->; simpl in Hlen; lia).
  assert (Hf : map Rabs fr <> []) by (destruct fr; [congruence | discriminate]).
  destruct (np_max_nonempty _ Hf) as [mf Hmf].
  destruct (np_max_spec _ _ Hmf) as [Hinf Hub].
  apply in_map_iff in Hinf as (s & Hs & Hinf).
  destruct (In_nth fr s 0 Hinf) as (c & Hc & Hnth).
  assert (Hcol : In s (column a c)).
  { unfold column. apply in_map_iff. exists fr. auto. }
  assert (Hcne : map Rabs (column a c) <> []).
  { destruct (column a c); [destruct Hcol | discriminate]. }
  destruct (np_max_nonempty _ Hcne) as [mc Hmc].
  destruct (np_max_spec _ _ Hmc) as [_ Hubc].
  exists c, (20 * log10 (md + eps)), (20 * log10 (mc + eps)).
  split; [lia |].
  rewrite (peak_dbfs_eq _ _ Hmd), (peak_dbfs_eq _ _ Hmc).
  repeat split.
  assert (Hle : md <= mc).
  { rewrite <- Hx, <- Hfr.
    apply Rle_trans with mf.
    - apply Rabs_np_mean_le; [assumption |].
      intros v Hv. apply Hub. now apply in_map.
    - rewrite <- Hs. apply Hubc. now apply in_map. }
  pose proof eps_pos. pose proof (np_max_abs_nonneg _ _ Hmd).
  assert (log10 (md + eps) <= log10 (mc + eps)) by (apply log10_le; lra).
  lra.
Qed.

Lemma downmix_peak_le_channel_peak_witness :
  exists c p pc,
    (c < shape_C one_dead_channel)%nat /\
    peak_dbfs (downmix one_dead_channel) = Ok (Finite p) /\
    peak_dbfs (column one_dead_channel c) = Ok (Finite pc) /\
    p <= pc.
Proof.
  apply (downmix_peak_le_channel_peak one_dead_channel).
  - discriminate.
  - cbn. lia.
  - intros fr [<- | [<- | []]]; reflexivity.
Defined.

Lemma pcm_scale_pow (sample_width : Z) :
  (1 <= sample_width)%Z -> pcm_scale sample_width = (2 ^ (8 * sample_width - 1))%Z.
Proof.
  intros H. unfold pcm_scale. rewrite Z.shiftl_1_l. reflexivity.
Qed.

Lemma pcm_sample_within (S v : Z) :
  (0 < S)%Z -> (- S <= v < S)%Z -> -1 <= IZR v / IZR S <= 1.
Proof.
  intros HS [Hlo Hhi].
  assert (0 < IZR S) by now apply IZR_lt.
  assert (IZR (- S) <= IZR v) by now apply IZR_le.
  assert (IZR v < IZR S) by now apply IZR_lt.
  rewrite opp_IZR in *.
  split.
  - apply Rmult_le_reg_r with (IZR S); [assumption |].
    unfold Rdiv. rewrite Rmult_assoc, Rinv_l by lra. lra.
  - apply Rmult_le_reg_r with (IZR S); [assumption |].
    unfold Rdiv. rewrite Rmult_assoc, Rinv_l by lra. lra.
Qed.

(** X26: integer PCM samples of [sample_width >= 1] bytes, divided by
    [1 << (8*sample_width - 1)], lie within [-1, 1], and the peak level of
    a non-empty decoded buffer is at most 20*log10(1 + 1e-12). *)
Theorem pcm_within_full_scale (sample_width : Z) (arr : list Z) :
  (1 <= sample_width)%Z -> arr <> [] ->
  (forall v, In v arr ->
     (- 2 ^ (8 * sample_width - 1) <= v < 2 ^ (8 * sample_width - 1))%Z) ->
  (forall x, In x (pcm_to_float sample_width arr) -> -1 <= x <= 1) /\
  exists p, peak_dbfs (pcm_to_float sample_width arr) = Ok (Finite p) /\
            p <= 20 * log10 (1 + eps).
Proof.
  intros Hw Hne Hrange.
  assert (Hin : forall x, In x (pcm_to_float sample_width arr) -> -1 <= x <= 1).
  { intros x Hx. unfold pcm_to_float in Hx.
    apply in_map_iff in Hx as (v & <- & Hv).
    rewrite (pcm_scale_pow sample_width Hw).
    apply pcm_sample_within; [| now apply Hrange].
    apply Z.pow_pos_nonneg; lia. }
  split; [exact Hin |].
  assert (Hf : map Rabs (pcm_to_float sample_width arr) <> []).
  { unfold pcm_to_float. destruct arr; [congruence | discriminate]. }
  destruct (np_max_nonempty _ Hf) as [m Hm].
  exists (20 * log10 (m + eps)). split; [now apply peak_dbfs_eq |].
  destruct (np_max_spec _ _ Hm) as [Hmin _].
  apply in_map_iff in Hmin as (x & <- & Hx).
  apply Hin in Hx.
  assert (Rabs x <= 1) by (apply Rabs_le; lra).
  pose proof eps_pos. pose proof (Rabs_pos x).
  assert (log10 (Rabs x + eps) <= log10 (1 + eps)) by (apply log10_le; lra).
  lra.
Qed.

Lemma pcm_within_full_scale_witness :
  (forall x, In x (pcm_to_float 2 [-32768; 12345; 32767]%Z) -> -1 <= x <= 1) /\
  exists p, peak_dbfs (pcm_to_float 2 [-32768; 12345; 32767]%Z) = Ok (Finite p) /\
            p <= 20 * log10 (1 + eps).
Proof.
  apply (pcm_within_full_scale 2 [-32768; 12345; 32767]%Z).
  - lia.
  - discriminate.
  - intros v [<- | [<- | [<- | []]]]; cbn; lia.
Defined.

(* ================================================================== *)
(** ** Crest factor zero *)

Lemma squares_at_bound (y : list R) (c : R) :
  (forall v, In v y -> v * v <= c) ->
  np_sum (square y) = INR (length y) * c ->
  forall v, In v y -> v * v = c.
Proof.
  induction y as [| a t IH]; intros Hub Hsum v Hv; [destruct Hv |].
  rewrite square_cons, np_sum_cons in Hsum. cbn [length] in Hsum.
  rewrite S_INR in Hsum.
  assert (Ha : a * a <= c) by (apply Hub; now left).
  assert (Ht : np_sum (square t) <= INR (length (square t)) * c).
  { apply np_sum_le. intros w Hw. unfold square in Hw.
    apply in_map_iff in Hw as (x & <- & Hx). apply Hub. now right. }
  rewrite length_square in Ht.
  destruct Hv as [<- | Hv]; [lra |].
  apply IH; auto.
  - intros w Hw. apply Hub. now right.
  - lra.
Qed.

Lemma rms_linear_eq_peak_iff (y : list R) (m : R) :
  np_max (map Rabs y) = Some m ->
  (sqrt (np_mean (square y)) = m <-> Forall (fun v => Rabs v = m) y).
Proof.
  intros Hm.
  assert (Hm0 : 0 <= m) by (eapply np_max_abs_nonneg; eauto).
  assert (Hn : (0 < length (square y))%nat).
  { rewrite length_square. destruct y; [discriminate | simpl; lia]. }
  assert (HnR : 0 < INR (length (square y))) by now apply lt_0_INR.
  destruct (np_max_spec _ _ Hm) as [_ Hub].
  assert (Hsq : forall v, In v y -> v * v <= m * m).
  { intros v Hv. assert (Rabs v <= m) by (apply Hub; now apply in_map).
    apply Rabs_le_between in H. nra. }
  split.
  - intros Hq.
    assert (Hmean : np_mean (square y) = m * m).
    { rewrite <- Hq. symmetry. apply sqrt_sqrt, np_mean_square_nonneg. }
    assert (Hsum : np_sum (square y) = INR (length y) * (m * m)).
    { unfold np_mean in Hmean. rewrite <- (length_square y).
      apply (Rmult_eq_compat_r (INR (length (square y)))) in Hmean.
      unfold Rdiv in Hmean. rewrite Rmult_assoc, Rinv_l in Hmean by lra. lra. }
    apply Forall_forall. intros v Hv.
    pose proof (squares_at_bound y (m * m) Hsq Hsum v Hv) as E.
    rewrite <- (sqrt_square m Hm0), <- E.
    symmetry. replace (v * v) with (Rsqr v) by reflexivity.
    apply sqrt_Rsqr_abs.
  - intros Hflat. rewrite Forall_forall in Hflat.
    assert (Hmean : np_mean (square y) = m * m).
    { apply Rle_antisym.
      - apply np_mean_le; [assumption |]. intros w Hw. unfold square in Hw.
        apply in_map_iff in Hw as (x & <- & Hx). now apply Hsq.
      - apply np_mean_ge; [assumption |]. intros w Hw. unfold square in Hw.
        apply in_map_iff in Hw as (x & <- & Hx).
        rewrite <- (Hflat x Hx). unfold Rabs. destruct (Rcase_abs x); nra. }
    rewrite Hmean. now apply sqrt_square.
Qed.

(** X27: the crest factor of a buffer is 0 exactly when all of its samples have
    the same magnitude (a square wave, a constant, silence); by X1 it is
    positive otherwise. *)
Theorem crest_zero_iff_flat (y : list R) (p r : R) :
  peak_dbfs y = Ok (Finite p) -> rms_dbfs y = Finite r ->
  (crest_db (Finite p) (Finite r) = Finite 0 <->
   exists m, Forall (fun v => Rabs v = m) y).
Proof.
  intros Hp Hr.
  assert (Hne : y <> []) by (intros ->; discriminate).
  destruct (np_max_nonempty (map Rabs y)) as [m Hm];
    [destruct y; [congruence | discriminate] |].
  rewrite (peak_dbfs_eq y m Hm) in Hp. injection Hp as <-.
  rewrite (rms_dbfs_eq y Hne) in Hr. injection Hr as <-.
  pose proof eps_pos. pose proof (sqrt_pos (np_mean (square y))).
  pose proof (np_max_abs_nonneg y m Hm).
  cbn. split.
  - intros [= E]. exists m. apply (rms_linear_eq_peak_iff y m Hm).
    assert (El : log10 (m + eps) = log10 (sqrt (np_mean (square y)) + eps)) by lra.
    apply log10_inj in El; lra.
  - intros [m' Hflat].
    assert (m' = m).
    { destruct (np_max_spec _ _ Hm) as [Hin _].
      apply in_map_iff in Hin as (x & <- & Hx).
      rewrite Forall_forall in Hflat. symmetry. now apply Hflat. }
    subst m'. apply (rms_linear_eq_peak_iff y m Hm) in Hflat.
    rewrite Hflat. f_equal. lra.
Qed.

Lemma crest_zero_iff_flat_witness :
  crest_db (Finite (20 * log10 (0.5 + eps))) (Finite (20 * log10 (0.5 + eps)))
    = Finite 0 <->
  exists m, Forall (fun v => Rabs v = m) [0.5; -0.5; 0.5].
Proof.
  assert (Hm : np_max (map Rabs [0.5; -0.5; 0.5]) = Some 0.5).
  { simpl. f_equal. reval. }
  assert (Hflat : Forall (fun v => Rabs v = 0.5) [0.5; -0.5; 0.5]).
  { repeat constructor; reval. }
  apply (crest_zero_iff_flat [0.5; -0.5; 0.5]).
  - now apply peak_dbfs_eq.
  - rewrite rms_dbfs_eq by discriminate.
    now rewrite (proj2 (rms_linear_eq_peak_iff _ _ Hm) Hflat).
Defined.

(** ** SNR: short buffers *)

(** X28: for a non-empty buffer of fewer than 4096 samples the spectral method
    never yields a value: the result is NA when the buffer is shorter than
    half a second, and otherwise whatever the time-domain percentile method
    decides. *)
Theorem snr_db_below_4096 (y : list R) (sr : Z) :
  y <> [] -> (length y < 4096)%nat ->
  snr_db y sr =
    Ok (if (Z.of_nat (length y) <? half_second sr)%Z then None
        else snr_percentile (active_frames y sr)).
Proof.
  intros Hne Hlen. unfold snr_db.
  destruct (Z.of_nat (length y) <? half_second sr)%Z; [reflexivity |].
  destruct (snr_percentile (active_frames y sr)); [reflexivity |].
  assert (Hn : length y <> 0%nat) by (destruct y; [congruence | discriminate]).
  destruct (nfft_of_spec (length y) Hn) as (Hnfft & Hk & Hle & _).
  rewrite (snr_spectral_eq y _ Hnfft).
  replace (_ <? 4096)%nat with true; [reflexivity |].
  symmetry. apply Nat.ltb_lt. lia.
Qed.

Lemma snr_db_below_4096_witness :
  snr_db two_level_buffer 20 =
    Ok (if (Z.of_nat (length two_level_buffer) <? half_second 20)%Z then None
        else snr_percentile (active_frames two_level_buffer 20)).
Proof.
  apply (snr_db_below_4096 two_level_buffer 20).
  - discriminate.
  - cbn. lia.
Defined.

(** ** [analyze_file]: the per-channel part of the row *)

Section ChannelPart.

Variable pyln_Meter : Z -> Meter.

Lemma per_channel_metrics_no_frames (a : array2) (sr : Z) :
  frames_of a = [] -> (1 <= shape_C a)%nat ->
  per_channel_metrics pyln_Meter a sr = Raise ValueError.
Proof.
  intros Hf HC. unfold per_channel_metrics.
  destruct (shape_C a) as [| C]; [lia |].
  cbn [seq channel_rows]. unfold channel_metrics at 1, column at 1.
  rewrite Hf. reflexivity.
Qed.

(** X29: the per-channel part of a row.  A per-channel table is present exactly
    when the multi-channel read returned an array with at least two
    channels and at least one frame; without it the row has no
    correlation, no imbalance and an empty list of silent channels; with
    it, the table and these three fields are those of
    [per_channel_metrics] on that array. *)
Theorem analyze_file_channels (y : list R) (sr : Z) (multi : result array2)
        (row : file_row) :
  analyze_file pyln_Meter y sr multi = Ok row ->
  (row_channels row <> None <->
   exists ymc, multi = Ok ymc /\ (2 <= shape_C ymc)%nat /\ frames_of ymc <> []) /\
  (row_channels row = None ->
   row_lr_corr row = None /\ row_channel_imbalance_db row = None /\
   row_silent_channels row = []) /\
  (forall rows, row_channels row = Some rows ->
   exists ymc extra,
     multi = Ok ymc /\
     per_channel_metrics pyln_Meter ymc sr = Ok (rows, extra) /\
     row_lr_corr row = lr_corr extra /\
     row_channel_imbalance_db row = channel_imbalance_db extra /\
     row_silent_channels row = silent_channels extra).
Proof.
  unfold analyze_file.
  destruct (peak_dbfs y) as [pk | e]; cbn [bind]; [| discriminate].
  destruct (r128_loudness_and_lra pyln_Meter y sr) as [[[[Li Ls] Lm] LRA] | e];
    cbn [bind]; [| discriminate].
  destruct (snr_db y sr) as [snr | e]; cbn [bind]; [| discriminate].
  destruct multi as [ymc | e]; cbn [bind try_except].
  - destruct (Nat.leb_spec 2 (shape_C ymc)) as [HC | HC].
    + destruct (frames_of ymc) as [| fr frs] eqn:Hf.
      * rewrite (per_channel_metrics_no_frames ymc sr Hf) by lia.
        cbn [bind try_except]. intros [= <-]. cbn.
        repeat split; try congruence.
        intros (ymc' & [= <-] & _ & H). congruence.
      * destruct (per_channel_metrics_total pyln_Meter ymc sr)
          as (rows & extra & Hpc); [congruence |].
        rewrite Hpc. cbn [bind try_except fst snd]. intros [= <-]. cbn.
        repeat split; try discriminate.
        -- intros _. exists ymc. repeat split; [assumption | congruence].
        -- intros rows' [= <-]. exists ymc, extra. auto.
    + intros [= <-]. cbn. repeat split; try congruence.
      intros (ymc' & [= <-] & H & _). lia.
  - intros [= <-]. cbn. repeat split; try congruence.
    intros (ymc' & H & _). discriminate.
Qed.

End ChannelPart.

Lemma analyze_file_channels_witness :
  exists row,
    analyze_file power_meter [0.5; -1] 48000 (Ok one_dead_channel) = Ok row /\
    (row_channels row <> None <->
     exists ymc, Ok one_dead_channel = Ok ymc /\ (2 <= shape_C ymc)%nat /\
                 frames_of ymc <> []) /\
    (row_channels row = None ->
     row_lr_corr row = None /\ row_channel_imbalance_db row = None /\
     row_silent_channels row = []) /\
    (forall rows, row_channels row = Some rows ->
     exists ymc extra,
       Ok one_dead_channel = Ok ymc /\
       per_channel_metrics power_meter ymc 48000 = Ok (rows, extra) /\
       row_lr_corr row = lr_corr extra /\
       row_channel_imbalance_db row = channel_imbalance_db extra /\
       row_silent_channels row = silent_channels extra).
Proof.
  destruct (analyze_file_lufs power_meter [0.5; -1] 48000 (Ok one_dead_channel) _
              ltac:(discriminate) power_meter_loud_loudness) as (row & Hrow & _).
  exists row. split; [exact Hrow |].
  exact (analyze_file_channels power_meter [0.5; -1] 48000 (Ok one_dead_channel)
           row Hrow).
Defined.
